(** * fairseq-context: the code2seq context pipeline

    A shallow embedding of the parts of the repository that split, encode and
    aggregate the per-example path instances, together with the preprocessing
    converter and the dataset accessor:

    - [Converter]      : [code2seq_to_fairseq.py], the main loop.
    - [Dataset]        : [LanguagePairWithMultiContextDataset.__getitem__].
    - [ContextEncoder] : [FConvContextEncoder.forward].
    - [Code2Seq]       : [Code2SeqEncoder.forward], [_split_seq] and
                         [_truncate_seqs].
    - [Reorder]        : [reorder_encoder_out] of the encoders.
    - [MultiContextEncoder] : [FConvMultiContextEncoder.forward].
    - [Collate]        : [collate] of the dataset module.
    - [Fconv]          : [extend_conv_spec] and the architecture defaults.

    Conventions.  Token ids, lengths and indices are [Z], as the tensors hold
    64-bit integers; no operation below comes near the range limit, so no
    wrap-around is written.  A 1-D tensor is a list, a 2-D tensor a list of
    rows.  Floating-point tensors are modelled over the exact rationals [Q].
    A Python exception is [None] in the option monad. *)

From Stdlib Require Import ZArith QArith Ascii String List Lia.
From stdpp Require Import base option list sorting.

Open Scope Z_scope.

(** ** Python indexing and slicing *)

Module Py.

(** [l[i]] for an integer [i]: negative indices count from the end, an index
    out of range raises [IndexError]. *)
Definition index {A} (l : list A) (i : Z) : option A :=
  let n := Z.of_nat (length l) in
  if (0 <=? i) && (i <? n) then l !! Z.to_nat i
  else if (i <? 0) && (0 <=? i + n) then l !! Z.to_nat (i + n)
  else None.

(** Normalisation of one slice bound against a length [n]. *)
Definition bound (n i : Z) : Z :=
  if i <? 0 then Z.max (i + n) 0 else Z.min i n.

(** [l[start:stop]]: never raises, bounds are clamped. *)
Definition slice {A} (l : list A) (start stop : Z) : list A :=
  let n := Z.of_nat (length l) in
  let s := bound n start in
  let e := bound n stop in
  take (Z.to_nat (e - s)) (drop (Z.to_nat s) l).

(** [l[start:]]. *)
Definition slice_from {A} (l : list A) (start : Z) : list A :=
  drop (Z.to_nat (bound (Z.of_nat (length l)) start)) l.

(** [l[:stop]]. *)
Definition slice_to {A} (l : list A) (stop : Z) : list A :=
  take (Z.to_nat (bound (Z.of_nat (length l)) stop)) l.

End Py.

(** ** The preprocessing converter, [code2seq_to_fairseq.py] *)

Module Converter.

(** [l.append(x)] on a Python list, and [f.write(s)] on a file opened for
    writing, seen as the list of the strings written so far. *)
Definition append_item {A} (l : list A) (x : A) : list A := l ++ [x].
Definition write (file : list string) (s : string) : list string :=
  file ++ [s].

Local Open Scope string_scope.

(** Python [str] values are modelled as [string]; a character stands for a
    code point below 256. *)

(** [c.isspace()] on that range. *)
Definition is_space (c : ascii) : bool :=
  let n := nat_of_ascii c in
  ((9 <=? n) && (n <=? 13))%nat || ((28 <=? n) && (n <=? 32))%nat
  || (n =? 133)%nat || (n =? 160)%nat.

Fixpoint lstrip (s : string) : string :=
  match s with
  | EmptyString => EmptyString
  | String c s' => if is_space c then lstrip s' else s
  end.

Fixpoint rstrip (s : string) : string :=
  match s with
  | EmptyString => EmptyString
  | String c s' =>
      match rstrip s' with
      | EmptyString => if is_space c then EmptyString else String c EmptyString
      | r => String c r
      end
  end.

(** [s.strip()]. *)
Definition strip (s : string) : string := rstrip (lstrip s).

(** [s.split(sep)] for a one-character separator: every occurrence cuts,
    empty fields are kept, and the result is never empty. *)
Fixpoint split (sep : ascii) (s : string) : list string :=
  match s with
  | EmptyString => [EmptyString]
  | String c s' =>
      if Ascii.eqb c sep then EmptyString :: split sep s'
      else match split sep s' with
           | [] => [String c EmptyString]
           | w :: ws => String c w :: ws
           end
  end.

(** [sep.join(l)]. *)
Fixpoint join (sep : string) (l : list string) : string :=
  match l with
  | [] => EmptyString
  | [x] => x
  | x :: xs => x ++ sep ++ join sep xs
  end.

Definition nl : string := String (ascii_of_nat 10) EmptyString.

(** The four output files, each as the list of strings written so far. *)
Record outputs := Outputs {
  src_file : list string;
  trg_file : list string;
  leaf_file : list string;
  path_file : list string;
}.

Definition no_output : outputs := Outputs [] [] [] [].

(** One turn of the inner loop, [for path in line[2:]], on the pair
    [(leaves, paths)]. *)
Definition path_step (acc : list string * list string) (path : string)
  : option (list string * list string) :=
  let path := split "|" (strip path) in
  if (length path <? 3)%nat then Some acc
  else
    first ← Py.index path 0;
    final ← Py.index path (-1);
    Some (append_item acc.1 (join "|" [first; final]),
          append_item acc.2 (join "|" (Py.slice path 1 (-1)))).

Fixpoint path_loop (acc : list string * list string) (l : list string)
  : option (list string * list string) :=
  match l with
  | [] => Some acc
  | path :: l' => acc' ← path_step acc path; path_loop acc' l'
  end.

(** One turn of the outer loop, [for line in open(args.input_file)]. *)
Definition convert_line (out : outputs) (line : string) : option outputs :=
  let line := split " " (strip line) in
  if (length line <? 3)%nat then Some out
  else
    l0 ← Py.index line 0;
    l1 ← Py.index line 1;
    let trg := join " " (split "|" l0) in
    let src := join " " (split "|" l1) in
    '(leaves, paths) ← path_loop ([], []) (Py.slice_from line 2);
    Some {| src_file := write (src_file out) (src ++ nl);
            trg_file := write (trg_file out) (trg ++ nl);
            leaf_file := write (leaf_file out) (join " " leaves ++ nl);
            path_file := write (path_file out) (join " " paths ++ nl) |}.

Fixpoint convert (out : outputs) (lines : list string) : option outputs :=
  match lines with
  | [] => Some out
  | line :: rest => out' ← convert_line out line; convert out' rest
  end.

(** The path tuples an example keeps: those with at least three
    pipe-separated fields. *)
Definition kept_tuples (fields : list string) : list (list string) :=
  filter (λ p, (3 <= length p)%nat)
         (map (λ f, split "|" (strip f)) (drop 2 fields)).

Definition leaf_of (p : list string) : string :=
  join "|" [hd "" p; List.last p ""].

Definition path_of (p : list string) : string :=
  join "|" (removelast (tl p)).

(** Whether a character occurs in a string. *)
Fixpoint mentions (c : ascii) (s : string) : bool :=
  match s with
  | EmptyString => false
  | String c' s' => Ascii.eqb c' c || mentions c s'
  end.

(** Whether a line yields an example: it has at least three space-separated
    fields. *)
Definition is_example (line : string) : Prop :=
  (3 <= length (split " " (strip line)))%nat.

(** The example a line yields when it is not skipped. *)
Definition emitted (out : outputs) (fields : list string) : outputs :=
  {| src_file := write (src_file out) (join " " (split "|" (nth 1 fields "")) ++ nl);
     trg_file := write (trg_file out) (join " " (split "|" (nth 0 fields "")) ++ nl);
     leaf_file := write (leaf_file out) (join " " (map leaf_of (kept_tuples fields)) ++ nl);
     path_file := write (path_file out) (join " " (map path_of (kept_tuples fields)) ++ nl) |}.

End Converter.

(** ** The dataset accessor,
    [LanguagePairWithMultiContextDataset.__getitem__] *)

Module Dataset.

(** The fields of [self] that [__getitem__] reads.  An indexed dataset is
    the list of its token tensors; [tgt] and [tgt_dict] may be [None]. *)
Record dataset := {
  src : list (list Z);
  tgt : option (list (list Z));
  leaf : list (list Z);
  path : list (list Z);
  src_dict_eos : Z;
  tgt_dict_eos : option Z;
  leaf_dict_leaf : Z;
  append_eos_to_target : bool;
  remove_eos_from_source : bool;
}.

(** The dictionary returned by [__getitem__]. *)
Record item := {
  id : nat;
  source : list Z;
  target : option (list Z);
  start_leaf : list Z;
  end_leaf : list Z;
  path_item : list Z;
}.

(** [torch.nonzero(t == x)] on a 1-D tensor: the positions holding [x], in
    increasing order, counted from [pos]. *)
Fixpoint nonzero_eq (x : Z) (t : list Z) (pos : Z) : list Z :=
  match t with
  | [] => []
  | y :: t' => (if y =? x then [pos] else []) ++ nonzero_eq x t' (pos + 1)
  end.

Definition getitem (self : dataset) (index : nat) : option item :=
  tgt_item ← match tgt self with
             | Some t => Some <$> t !! index
             | None => Some None
             end;
  src_item ← src self !! index;
  leaf_item ← leaf self !! index;
  path_item ← path self !! index;
  ind ← Py.index (nonzero_eq (leaf_dict_leaf self) leaf_item 0) 0;
  let start_leaf_item := Py.slice_to leaf_item ind in
  let end_leaf_item := Py.slice_from leaf_item (ind + 1) in
  tgt_item ←
    (if append_eos_to_target self then
       let eos := default (src_dict_eos self) (tgt_dict_eos self) in
       match tgt self with
       | Some (t0 :: trest) =>
           t ← (t0 :: trest) !! index;
           final ← Py.index t (-1);
           if negb (final =? eos) then Some (Some (t ++ [eos]))
           else Some tgt_item
       | _ => Some tgt_item
       end
     else Some tgt_item);
  src_item ←
    (if remove_eos_from_source self then
       let eos := src_dict_eos self in
       s ← src self !! index;
       final ← Py.index s (-1);
       if final =? eos then Some (Py.slice_to s (-1)) else Some src_item
     else Some src_item);
  Some {| id := index;
          source := src_item;
          target := tgt_item;
          start_leaf := start_leaf_item;
          end_leaf := end_leaf_item;
          path_item := path_item |}.

(** The other fields of example [index] can be read: the index is in range
    of every dataset, and a tensor whose last token an enabled end-marker
    option inspects is not empty. *)
Definition readable (self : dataset) (index : nat) : Prop :=
  (∃ s, src self !! index = Some s ∧
        (remove_eos_from_source self = true → s ≠ [])) ∧
  is_Some (path self !! index) ∧
  (∀ ts, tgt self = Some ts →
         ∃ t, ts !! index = Some t ∧
              (append_eos_to_target self = true → t ≠ [])).

(** A small dataset, for the examples below. *)
Definition toy_dataset : dataset :=
  {| src := [[5; 2]]; tgt := Some [[6; 2]]; leaf := [[7; 3; 8; 3; 9]]; path := [[4]];
     src_dict_eos := 2; tgt_dict_eos := Some 2; leaf_dict_leaf := 3;
     append_eos_to_target := true; remove_eos_from_source := true |}.

End Dataset.

(** ** The single-context encoder, [FConvContextEncoder.forward] *)

Module ContextEncoder.

Definition tensor3 := list (list (list Q)).
Definition byte_mask := list (list bool).

(** The dictionary every encoder returns. *)
Record encoder_output := {
  encoder_out : tensor3 * tensor3;
  encoder_padding_mask : option byte_mask;
}.

(** [torch.cat([a, b], 2)]. *)
Definition cat2 (a b : tensor3) : tensor3 :=
  zip_with (zip_with (λ u v : list Q, u ++ v)) a b.

(** [a * b] on byte masks. *)
Definition mask_mul (a b : byte_mask) : byte_mask :=
  zip_with (zip_with andb) a b.

Section Forward.
(** The state of the random generator that dropout draws from. *)
Variable rng : Type.
(** [FConvEncoder.forward] of the two sub-encoders, each with its own
    parameters. *)
Variable input_encoder context_encoder :
  rng → list (list Z) → list Z → encoder_output * rng.

Definition forward (g : rng) (src_tokens : list (list Z)) (src_lengths : list Z)
    (ctx_tokens : list (list Z)) (ctx_lengths : list Z)
  : encoder_output * rng :=
  let '(src_output, g) := input_encoder g src_tokens src_lengths in
  let '(ctx_output, g) := context_encoder g src_tokens src_lengths in
  let encoder_padding_mask :=
    match encoder_padding_mask src_output, encoder_padding_mask ctx_output with
    | Some ms, Some mc => Some (mask_mul ms mc)
    | _, _ => None
    end in
  ({| encoder_out :=
        (cat2 (encoder_out src_output).1 (encoder_out ctx_output).1,
         cat2 (encoder_out src_output).2 (encoder_out ctx_output).2);
      encoder_padding_mask := encoder_padding_mask |}, g).
End Forward.

End ContextEncoder.

(** ** The multi-context path encoder, [Code2SeqEncoder] *)

Module Code2Seq.

(** *** Tensors *)

Definition vec := list Q.

Definition vzeros (n : nat) : vec := replicate n 0%Q.
Definition vadd (u v : vec) : vec := zip_with Qplus u v.
(** [v / n] for a Python integer [n]. *)
Definition vdiv (v : vec) (n : Z) : vec := map (λ q, (q / inject_Z n)%Q) v.

(** [t.size()[1]] of a 2-D tensor with at least one row. *)
Definition size1 {A} (t : list (list A)) : Z :=
  match t with
  | [] => 0
  | r :: _ => Z.of_nat (length r)
  end.

(** [torch.sum(t, 0)] of a 2-D tensor with [width] columns. *)
Definition sum_dim0 (width : nat) (rows : list vec) : vec :=
  foldl vadd (vzeros width) rows.

(** [t == x] and [t != x] on a 2-D integer tensor. *)
Definition eq_mask (t : list (list Z)) (x : Z) : list (list bool) :=
  map (map (λ tok, tok =? x)) t.
Definition ne_mask (t : list (list Z)) (x : Z) : list (list bool) :=
  map (map (λ tok, negb (tok =? x))) t.

(** [mask.sum(1)]. *)
Definition count_true (row : list bool) : Z :=
  Z.of_nat (length (filter (λ b, b = true) row)).
Definition sum_dim1 (mask : list (list bool)) : list Z := map count_true mask.

(** [torch.cumsum(l, 0)], with the running total in [acc]. *)
Fixpoint cumsum_from (acc : Z) (l : list Z) : list Z :=
  match l with
  | [] => []
  | x :: l' => (acc + x) :: cumsum_from (acc + x) l'
  end.
Definition cumsum (l : list Z) : list Z := cumsum_from 0 l.

(** [torch.nonzero(mask)]: the (row, column) pairs of the true entries, in
    row-major order. *)
Fixpoint true_cols (j : Z) (row : list bool) : list Z :=
  match row with
  | [] => []
  | b :: row' => (if b then [j] else []) ++ true_cols (j + 1) row'
  end.
Fixpoint nonzero_from (i : Z) (mask : list (list bool)) : list (Z * Z) :=
  match mask with
  | [] => []
  | row :: mask' => map (pair i) (true_cols 0 row) ++ nonzero_from (i + 1) mask'
  end.
Definition nonzero (mask : list (list bool)) : list (Z * Z) := nonzero_from 0 mask.

(** [t.index_select(0, order)]; an index out of range raises. *)
Definition index_select {A} (t : list A) (order : list nat) : option (list A) :=
  mapM (λ j, t !! j) order.

(** [l.sort(descending=True)] and [l.sort()] on a 1-D tensor: the sorted
    values and, for each, the position it came from.  Ties are resolved by
    the merge sort below; no property proved here depends on how. *)
Definition by_key_desc (a b : Z * nat) : Prop := b.1 <= a.1.
Definition by_key_asc (a b : nat * nat) : Prop := (a.1 <= b.1)%nat.

#[global] Instance by_key_desc_dec a b : Decision (by_key_desc a b).
Proof. unfold by_key_desc. apply _. Defined.
#[global] Instance by_key_asc_dec a b : Decision (by_key_asc a b).
Proof. unfold by_key_asc. apply _. Defined.

Definition enumerate {A} (l : list A) : list (A * nat) :=
  zip l (seq 0 (length l)).

Definition sort_descending (l : list Z) : list Z * list nat :=
  let s := merge_sort by_key_desc (enumerate l) in (s.*1, s.*2).
Definition sort_ascending (l : list nat) : list nat * list nat :=
  let s := merge_sort by_key_asc (enumerate l) in (s.*1, s.*2).

(** [nn.utils.rnn.pad_sequence(seqs, batch_first=True, padding_value=pad)]:
    every sequence is filled on the right up to the longest one; an empty
    list of sequences raises. *)
Definition pad_sequence (seqs : list (list Z)) (pad : Z) : option (list (list Z)) :=
  match seqs with
  | [] => None
  | _ => let width := max_list (length <$> seqs) in
         Some ((λ s, s ++ replicate (width - length s) pad) <$> seqs)
  end.

(** [nn.utils.rnn.pack_padded_sequence(seqs, lens, batch_first=True)]: of
    row [j] the recurrent pass sees the first [lens[j]] steps.  torch raises
    unless there is one length per row, every length is greater than 0 and
    the lengths are in decreasing order (equal neighbours allowed).  A length
    beyond the number of steps of [seqs] is not among the cases torch checks
    here; the properties below are stated for lengths within the steps. *)
Definition pack_padded_sequence {A} (seqs : list (list A)) (lens : list Z)
  : option (list (list A)) :=
  if decide (length lens = length seqs
             ∧ Forall (λ n, 0 < n) lens
             ∧ Sorted (λ a b, b <= a) lens)
  then Some (zip_with (λ s n, take (Z.to_nat n) s) seqs lens)
  else None.

(** [torch.clamp(x, lo, hi)]. *)
Definition clamp (lo hi x : Z) : Z := Z.min (Z.max x lo) hi.

(** A tensor of rank 0 or 1, and one of rank 1 or 2: [squeeze] and the
    final [torch.cat] of [forward] move between them. *)
Inductive tensor01 := Scalar (q : Q) | Vector (v : vec).
Inductive tensor12 := Flat (v : vec) | Rows (rows : list vec).

(** [v.squeeze()] on a 1-D tensor: a single entry loses its dimension. *)
Definition squeeze (v : vec) : tensor01 :=
  match v with
  | [q] => Scalar q
  | _ => Vector v
  end.

(** [torch.cat([s.unsqueeze(0) for s in l])]: the pieces must have one
    common rank, and there must be at least one. *)
Fixpoint all_vectors (l : list tensor01) : option (list vec) :=
  match l with
  | [] => Some []
  | Vector v :: l' => cons v <$> all_vectors l'
  | Scalar _ :: _ => None
  end.
Fixpoint all_scalars (l : list tensor01) : option (list Q) :=
  match l with
  | [] => Some []
  | Scalar q :: l' => cons q <$> all_scalars l'
  | Vector _ :: _ => None
  end.
Definition cat_unsqueeze0 (l : list tensor01) : option tensor12 :=
  match l with
  | [] => None
  | Vector _ :: _ => Rows <$> all_vectors l
  | Scalar _ :: _ => Flat <$> all_scalars l
  end.

(** *** [_truncate_seqs] *)

(** The warning it prints when it truncates is left out. *)

Definition _truncate_seqs {A} (max_length : Z) (seqs : list (list A))
    (seq_lens : option (list Z)) (seq_masks : option (list (list bool)))
  : list (list A) * option (list Z) * option (list (list bool)) :=
  if size1 seqs <=? max_length then (seqs, seq_lens, seq_masks)
  else
    (map (λ r, Py.slice_to r max_length) seqs,
     match seq_lens with
     | None => None
     | Some lens => Some (map (clamp 0 max_length) lens)
     end,
     match seq_masks with
     | None => None
     | Some masks => Some (map (λ r, Py.slice_to r max_length) masks)
     end).

Section Encoder.

(** *** Configuration and parameters of one encoder *)

Variable embed_dim : nat.
(** [leaf_dictionary.pad()], [leaf_dictionary.path()] and
    [path_dictionary.path()]. *)
Variables leaf_pad leaf_path path_path : Z.
Variables max_leaf_positions max_path_positions : Z.
(** The two embedding tables, as functions of the token id. *)
Variables leaf_embedding path_embedding : Z → vec.
(** The bidirectional recurrent pass on one packed sequence: its final
    forward and backward hidden states, side by side (a row of [h_n] after
    the transpose and view). *)
Variable path_bilstm : list vec → vec.
(** [self.tanh(self.fc(x))] on one row. *)
Variable fc_tanh : vec → vec.

(** *** [_split_seq] *)

(** The body of the loop for one row: the sub-sequences cut from it and
    their lengths. *)
Definition split_row (max_length : Z) (row : list Z) (len : Z)
    (sentence_splits : list Z) : list (list Z) * list Z :=
  let subsplit :=
    Z.add 1 <$> ([max_length - len - 1] ++ sentence_splits ++ [max_length]) in
  let split_lengths :=
    zip_with (λ a b, a - b - 1) (Py.slice_from subsplit 1) (Py.slice_to subsplit (-1)) in
  let starts := Py.slice_to subsplit (-1) in
  let ends := zip_with Z.add (Py.slice_to subsplit (-1)) split_lengths in
  (zip_with (λ s e, Py.slice row s e) starts ends, split_lengths).

Fixpoint split_loop (max_length : Z) (lengths : list Z) (splits : list (Z * Z))
    (split_inds : list Z) (i : Z) (rows : list (list Z))
    (seqs : list (list Z)) (seq_lengths : list Z)
  : option (list (list Z) * list Z) :=
  match rows with
  | [] => Some (seqs, seq_lengths)
  | row :: rows' =>
      lo ← Py.index split_inds i;
      hi ← Py.index split_inds (i + 1);
      let sentence_splits := snd <$> Py.slice splits lo hi in
      len ← Py.index lengths i;
      let '(row_seqs, split_lengths) := split_row max_length row len sentence_splits in
      split_loop max_length lengths splits split_inds (i + 1) rows'
                 (seqs ++ row_seqs) (seq_lengths ++ split_lengths)
  end.

Definition _split_seq (tokens : list (list Z)) (lengths : list Z)
    (splits : list (Z * Z)) (split_inds : list Z)
  : option (list (list Z) * list Z * list (list bool)) :=
  let max_length := size1 tokens in
  '(seqs, seq_lengths) ←
    split_loop max_length lengths splits split_inds 0 tokens [] [];
  padded ← pad_sequence seqs leaf_pad;
  Some (padded, seq_lengths, ne_mask padded leaf_pad).

(** *** The stages of [forward] *)

(** [torch.sum(self.leaf_embedding(seqs).masked_fill_(mask.unsqueeze(2), 0), dim=1)]. *)
Definition masked_fill (mask : list bool) (row : list vec) : list vec :=
  zip_with (λ (m : bool) v, if m then (λ _, 0%Q) <$> v else v) mask row.
Definition leaf_sum (seq : list Z) (mask : list bool) : vec :=
  sum_dim0 embed_dim (masked_fill mask (leaf_embedding <$> seq)).
Definition leaf_sums (seqs : list (list Z)) (mask : list (list bool)) : list vec :=
  zip_with leaf_sum seqs mask.

(** The sort, the recurrent pass and the unsort. *)
Definition encode_paths (path_seqs : list (list vec)) (path_lens : list Z)
  : option (list vec) :=
  let '(path_lens, sort_order) := sort_descending path_lens in
  path_seqs ← index_select path_seqs sort_order;
  packed_paths ← pack_padded_sequence path_seqs path_lens;
  let h_n := path_bilstm <$> packed_paths in
  let '(_, sort_order) := sort_ascending sort_order in
  index_select h_n sort_order.

(** [self.tanh(self.fc(torch.cat((h_n, start_leaf_sums, end_leaf_sums), dim=1)))];
    the three tensors must have the same number of rows. *)
Definition fuse (h_n start_leaf_sums end_leaf_sums : list vec) : option (list vec) :=
  if decide (length start_leaf_sums = length h_n ∧ length end_leaf_sums = length h_n)
  then Some (zip_with (λ h se, fc_tanh (h ++ se.1 ++ se.2))
                      h_n (zip start_leaf_sums end_leaf_sums))
  else None.

(** The loop that fills [output_sums]; [n] rows remain, [i] is the next. *)
Fixpoint aggregate_loop (z : list vec) (split_inds : list Z) (n : nat) (i : Z)
    (cur_max : Z) (output_sums : list tensor01) : option (list tensor01) :=
  match n with
  | O => Some output_sums
  | S n' =>
      start ← Py.index split_inds i;
      stop ← Py.index split_inds (i + 1);
      if negb (start =? stop) then
        let cur_max := stop + i in
        aggregate_loop z split_inds n' (i + 1) cur_max
          (output_sums ++
             [Vector (vdiv (sum_dim0 (Z.to_nat (size1 z))
                                     (Py.slice z (start + i) (cur_max + 1)))
                           (stop - start))])
      else
        let cur_max := cur_max + 1 in
        row ← Py.index z cur_max;
        aggregate_loop z split_inds n' (i + 1) cur_max
          (output_sums ++ [squeeze row])
  end.

Definition aggregate (z : list vec) (split_inds : list Z) (batch : nat)
  : option tensor12 :=
  output_sums ← aggregate_loop z split_inds batch 0 (-1) [];
  cat_unsqueeze0 output_sums.

(** *** [forward] *)

(** The test [forward] makes on the three [torch.nonzero] results before it
    splits anything; [inds[:, 0]] is the column of row indices. *)
Definition rejected (start_leaf_inds end_leaf_inds path_inds : list (Z * Z)) : bool :=
  bool_decide (start_leaf_inds = []) || bool_decide (end_leaf_inds = [])
  || bool_decide (path_inds = [])
  || negb (bool_decide (start_leaf_inds.*1 = end_leaf_inds.*1))
  || negb (bool_decide (start_leaf_inds.*1 = path_inds.*1)).

Definition forward
    (start_leaf_tokens : list (list Z)) (start_leaf_lengths : list Z)
    (end_leaf_tokens : list (list Z)) (end_leaf_lengths : list Z)
    (path_tokens : list (list Z)) (path_lengths : list Z)
  : option tensor12 :=
  let default_return := Rows (replicate (length start_leaf_tokens) (vzeros embed_dim)) in
  let leaf_split_mask := eq_mask start_leaf_tokens leaf_path in
  let split_inds := [0] ++ cumsum (sum_dim1 leaf_split_mask) in
  let start_leaf_inds := nonzero leaf_split_mask in
  let end_leaf_inds := nonzero (eq_mask end_leaf_tokens leaf_path) in
  let path_inds := nonzero (eq_mask path_tokens path_path) in
  if rejected start_leaf_inds end_leaf_inds path_inds
  then Some default_return
  else
    '(start_leaf_seqs, _, start_leaf_mask) ←
      _split_seq start_leaf_tokens start_leaf_lengths start_leaf_inds split_inds;
    '(end_leaf_seqs, _, end_leaf_mask) ←
      _split_seq end_leaf_tokens end_leaf_lengths end_leaf_inds split_inds;
    '(path_seqs, path_lens, _) ←
      _split_seq path_tokens path_lengths path_inds split_inds;
    let '(start_leaf_seqs, _, start_leaf_mask) :=
      _truncate_seqs max_leaf_positions start_leaf_seqs None (Some start_leaf_mask) in
    let '(end_leaf_seqs, _, end_leaf_mask) :=
      _truncate_seqs max_leaf_positions end_leaf_seqs None (Some end_leaf_mask) in
    let '(path_seqs, path_lens, _) :=
      _truncate_seqs max_path_positions path_seqs (Some path_lens) None in
    start_leaf_mask ← start_leaf_mask;
    end_leaf_mask ← end_leaf_mask;
    path_lens ← path_lens;
    let start_leaf_sums := leaf_sums start_leaf_seqs start_leaf_mask in
    let end_leaf_sums := leaf_sums end_leaf_seqs end_leaf_mask in
    let path_seqs := map (map path_embedding) path_seqs in
    h_n ← encode_paths path_seqs path_lens;
    z ← fuse h_n start_leaf_sums end_leaf_sums;
    aggregate z split_inds (length start_leaf_tokens).

(** *** Notions used to state the properties *)

(** The sum of a list of counts. *)
Definition total (l : list Z) : Z := foldr Z.add 0 l.

(** The arithmetic mean of the rows of a 2-D tensor with [width] columns. *)
Definition mean (width : nat) (rows : list vec) : vec :=
  vdiv (sum_dim0 width rows) (Z.of_nat (length rows)).

(** Equality of vectors, entry by entry, as rationals. *)
Definition vec_equiv (u v : vec) : Prop := Forall2 Qeq u v.

(** The columns of a row that hold the delimiter. *)
Definition delimiter_cols (delim : Z) (row : list Z) : list Z :=
  true_cols 0 ((λ tok, tok =? delim) <$> row).

(** What [_split_seq] cuts from each row at the delimiters of that row (the
    sub-sequences and their reported lengths), and the sub-sequences of the
    whole batch in row order. *)
Definition row_splits (delim : Z) (tokens : list (list Z)) (lengths : list Z)
  : list (list (list Z) * list Z) :=
  zip_with (λ row len, split_row (size1 tokens) row len (delimiter_cols delim row))
           tokens lengths.
Definition flat_segments (delim : Z) (tokens : list (list Z)) (lengths : list Z)
  : list (list Z) :=
  concat (fst <$> row_splits delim tokens lengths).
Definition flat_lengths (delim : Z) (tokens : list (list Z)) (lengths : list Z)
  : list Z :=
  concat (snd <$> row_splits delim tokens lengths).
Definition flat_width (delim : Z) (tokens : list (list Z)) (lengths : list Z) : nat :=
  max_list (length <$> flat_segments delim tokens lengths).

(** A sequence filled on the right up to [width]. *)
Definition pad_to (width : nat) (pad : Z) (s : list Z) : list Z :=
  s ++ replicate (width - length s) pad.

(** A row of a tensor with [width] columns after [_truncate_seqs]. *)
Definition truncated {A} (max_positions : Z) (width : nat) (r : list A) : list A :=
  if Z.of_nat width <=? max_positions then r else Py.slice_to r max_positions.

(** The width of the path tensor and the lengths that [forward] hands to
    [pack_padded_sequence], after [_truncate_seqs]. *)
Definition packed_width (path_tokens : list (list Z)) (path_lengths : list Z) : Z :=
  let width := Z.of_nat (flat_width path_path path_tokens path_lengths) in
  if width <=? max_path_positions then width else max_path_positions.
Definition packed_lengths (path_tokens : list (list Z)) (path_lengths : list Z)
  : list Z :=
  let lens := flat_lengths path_path path_tokens path_lengths in
  if Z.of_nat (flat_width path_path path_tokens path_lengths) <=? max_path_positions
  then lens else clamp 0 max_path_positions <$> lens.

(** What turn [i] of the aggregation loop appends to [output_sums], with
    [cur_max] replaced by its value at that turn. *)
Definition example_output (z : list vec) (split_inds : list Z) (i : Z)
  : option tensor01 :=
  start ← Py.index split_inds i;
  stop ← Py.index split_inds (i + 1);
  if negb (start =? stop) then
    Some (Vector (vdiv (sum_dim0 (Z.to_nat (size1 z))
                                 (Py.slice z (start + i) (stop + i + 1)))
                       (stop - start)))
  else squeeze <$> Py.index z (start + i).

(** The fused vector of one flat instance, from its three sub-sequences as
    cut from the rows, the widths of the three flat tensors and the reported
    length of the path sub-sequence. *)
Definition fused_instance (start_seg end_seg path_seg : list Z)
    (start_width end_width path_width : nat) (path_len : Z) : vec :=
  let prepare max_positions width seg :=
    truncated max_positions width (pad_to width leaf_pad seg) in
  let mask_of max_positions width seg :=
    truncated max_positions width
              ((λ tok, negb (tok =? leaf_pad)) <$> pad_to width leaf_pad seg) in
  let path_len :=
    if Z.of_nat path_width <=? max_path_positions then path_len
    else clamp 0 max_path_positions path_len in
  fc_tanh
    (path_bilstm
       (take (Z.to_nat path_len)
             (path_embedding <$> prepare max_path_positions path_width path_seg))
     ++ leaf_sum (prepare max_leaf_positions start_width start_seg)
                 (mask_of max_leaf_positions start_width start_seg)
     ++ leaf_sum (prepare max_leaf_positions end_width end_seg)
                 (mask_of max_leaf_positions end_width end_seg)).

(** The fused vectors of all flat instances of a batch, in flat order: what
    [forward] holds in [z] once the batch has passed the validation. *)
Definition flat_fused
    (start_leaf_tokens : list (list Z)) (start_leaf_lengths : list Z)
    (end_leaf_tokens : list (list Z)) (end_leaf_lengths : list Z)
    (path_tokens : list (list Z)) (path_lengths : list Z) : list vec :=
  let start_width := flat_width leaf_path start_leaf_tokens start_leaf_lengths in
  let end_width := flat_width leaf_path end_leaf_tokens end_leaf_lengths in
  let path_width := flat_width path_path path_tokens path_lengths in
  zip_with (λ (leaves : list Z * list Z) (path : list Z * Z),
              fused_instance leaves.1 leaves.2 path.1
                             start_width end_width path_width path.2)
           (zip (flat_segments leaf_path start_leaf_tokens start_leaf_lengths)
                (flat_segments leaf_path end_leaf_tokens end_leaf_lengths))
           (zip (flat_segments path_path path_tokens path_lengths)
                (flat_lengths path_path path_tokens path_lengths)).

End Encoder.

(** *** Notions used to state the properties of [_split_seq] *)

(** The pieces of a token list between the occurrences of a delimiter: every
    occurrence cuts, empty pieces are kept. *)
Fixpoint split_on (delim : Z) (l : list Z) : list (list Z) :=
  match l with
  | [] => [[]]
  | x :: l' =>
      if x =? delim then [] :: split_on delim l'
      else match split_on delim l' with
           | [] => [[x]]
           | s :: ss => (x :: s) :: ss
           end
  end.

(** The pieces put together again, with the delimiter between them. *)
Fixpoint join_with (delim : Z) (pieces : list (list Z)) : list Z :=
  match pieces with
  | [] => []
  | s :: ss =>
      match ss with
      | [] => s
      | _ => s ++ delim :: join_with delim ss
      end
  end.

(** A row of a tensor with [max_length] columns that holds [len] tokens after
    its left padding, the padding holding no delimiter. *)
Definition left_padded (delim max_length : Z) (row : list Z) (len : Z) : Prop :=
  Z.of_nat (length row) = max_length ∧ 0 <= len <= max_length ∧
  Forall (λ tok, tok ≠ delim) (take (Z.to_nat (max_length - len)) row).

(** The tokens of a row after its left padding, and the pieces of all rows
    of a stream in row order. *)
Definition real_tokens (max_length : Z) (row : list Z) (len : Z) : list Z :=
  drop (Z.to_nat (max_length - len)) row.
Definition pieces (delim : Z) (tokens : list (list Z)) (lengths : list Z)
  : list (list Z) :=
  concat (zip_with (λ row len, split_on delim (real_tokens (size1 tokens) row len))
                   tokens lengths).

(** The sub-sequences and lengths that [split_row] computes, boundary by
    boundary: [start] is the boundary just passed (already moved behind the
    delimiter), [cols] are the delimiter columns still ahead. *)
Fixpoint cuts (row : list Z) (max_length start : Z) (cols : list Z)
  : list (list Z) * list Z :=
  match cols with
  | [] =>
      ([Py.slice row start (start + (1 + max_length - start - 1))],
       [1 + max_length - start - 1])
  | col :: cols' =>
      let rest := cuts row max_length (1 + col) cols' in
      (Py.slice row start (start + (1 + col - start - 1)) :: rest.1,
       (1 + col - start - 1) :: rest.2)
  end.

(** The row indices [torch.nonzero] reports for a mask with the given numbers
    of true entries per row, rows counted from [off]. *)
Fixpoint row_indices (off : Z) (counts : list Z) : list Z :=
  match counts with
  | [] => []
  | c :: counts' => replicate (Z.to_nat c) off ++ row_indices (off + 1) counts'
  end.

(** *** Parameter values for the examples *)

(** Every table and every layer zero, at embedding width [d]. *)
Definition zero_embedding (d : nat) (tok : Z) : vec := vzeros d.
Definition zero_bilstm (d : nat) (s : list vec) : vec := vzeros (2 * d).
Definition zero_fc_tanh (d : nat) (x : vec) : vec := vzeros d.

(** An embedding table of width 2 whose row for the pad symbol 1 is zero, as
    [Embedding] initialises it. *)
Definition toy_embedding (tok : Z) : vec :=
  if tok =? 1 then vzeros 2 else [inject_Z tok; 1%Q].

(** A fully connected layer with zero weights and a bias whose hyperbolic
    tangent is one half, at width 2: every fused vector is (1/2, 1/2). *)
Definition half_fc_tanh (x : vec) : vec := [1 # 2; 1 # 2]%Q.

(** A batch of two examples, with pad symbol 1 and delimiter 4 in every
    dictionary: the first example has one delimiter, the second has none and
    is padded on the left. *)
Definition toy_tokens : list (list Z) := [[10; 4; 11; 12]; [1; 1; 13; 14]].
Definition toy_lengths : list Z := [4; 2].

End Code2Seq.

(** ** [reorder_encoder_out] of the convolutional encoders *)

(** [FConvEncoder], [FConvContextEncoder] and [FConvMultiContextEncoder]
    carry the same method; [Code2SeqEncoder] carries it too, but what its own
    [forward] puts under ['encoder_out'] is a tensor, not a pair. *)

Module Reorder.

(** The dictionary an encoder returns, each entry possibly [None].  A tensor
    is the list of its slices along dimension 0. *)
Record encoder_dict (A M : Type) := {
  encoder_out : option (list A * list A);
  encoder_padding_mask : option (list M);
}.
Arguments encoder_out {A M} _.
Arguments encoder_padding_mask {A M} _.

(** An entry of the index tensor as a position: a negative one is out of
    range. *)
Definition to_index (j : Z) : option nat :=
  if 0 <=? j then Some (Z.to_nat j) else None.

(** [t.index_select(0, new_order)]: an index that is negative or past the
    last slice raises. *)
Definition index_select {A} (t : list A) (new_order : list Z) : option (list A) :=
  order ← mapM to_index new_order;
  Code2Seq.index_select t order.

(** The method updates the dictionary it is given and returns it; the model
    returns the updated dictionary. *)
Definition reorder_encoder_out {A M} (encoder_out : encoder_dict A M)
    (new_order : list Z) : option (encoder_dict A M) :=
  out ← match Reorder.encoder_out encoder_out with
        | Some (x, y) =>
            x ← index_select x new_order;
            y ← index_select y new_order;
            Some (Some (x, y))
        | None => Some None
        end;
  mask ← match encoder_padding_mask encoder_out with
         | Some m => Some <$> index_select m new_order
         | None => Some None
         end;
  Some {| encoder_out := out; encoder_padding_mask := mask |}.

(** The same method when ['encoder_out'] holds the 2-D tensor that
    [Code2SeqEncoder.forward] returns and the mask is [None], as there:
    [encoder_out['encoder_out'][0]] is then the row of the first example, a
    1-D tensor, and [index_select] picks entries of it. *)
Definition reorder_encoder_out_tensor (encoder_out : list Code2Seq.vec)
    (new_order : list Z) : option (Code2Seq.vec * Code2Seq.vec) :=
  first ← encoder_out !! 0%nat;
  x ← index_select first new_order;
  second ← encoder_out !! 1%nat;
  y ← index_select second new_order;
  Some (x, y).

(** Whether every entry of the index tensor is a row of a tensor with [n]
    slices. *)
Definition in_range (n : nat) (new_order : list Z) : Prop :=
  Forall (λ j, 0 <= j < Z.of_nat n) new_order.

(** The number of slices of every tensor the dictionary holds. *)
Definition batch_is {A M} (n : nat) (e : encoder_dict A M) : Prop :=
  (∀ x y, encoder_out e = Some (x, y) → length x = n ∧ length y = n)
  ∧ (∀ m, encoder_padding_mask e = Some m → length m = n).

End Reorder.

(** ** The multi-context encoder, [FConvMultiContextEncoder.forward] *)

Module MultiContextEncoder.
Import ContextEncoder.

(** [t.size()[0]] and, for a 3-D tensor with at least one row and one
    position, [t.size()[2]]. *)
Definition size0 {A} (t : list A) : Z := Z.of_nat (length t).
Definition size2 (t : tensor3) : Z :=
  match t with
  | (v :: _) :: _ => Z.of_nat (length v)
  | _ => 0
  end.

(** The entries of a tensor of rank 1 or 2 in storage order, and the first
    [n] blocks of [e] entries of a list. *)
Definition elements (t : Code2Seq.tensor12) : list Q :=
  match t with
  | Code2Seq.Flat v => v
  | Code2Seq.Rows rows => concat rows
  end.
Fixpoint chunks (n e : nat) (l : list Q) : list (list Q) :=
  match n with
  | O => []
  | S n' => take e l :: chunks n' e (drop e l)
  end.

(** [t.view((batch_size, 1, embed_dim))]: the number of entries must be
    [batch_size * embed_dim]. *)
Definition view (t : Code2Seq.tensor12) (batch_size embed_dim : Z) : option tensor3 :=
  if Z.of_nat (length (elements t)) =? batch_size * embed_dim
  then Some ((λ v, [v]) <$> chunks (Z.to_nat batch_size) (Z.to_nat embed_dim) (elements t))
  else None.

(** [torch.cat([a, b], 1)] on 3-D tensors: the sizes must agree in
    dimensions 0 and 2. *)
Definition cat1 (a b : tensor3) : option tensor3 :=
  if decide (length a = length b
             ∧ Forall (Forall (λ v, Z.of_nat (length v) = size2 a)) (a ++ b))
  then Some (zip_with app a b)
  else None.

(** [torch.cat((mask, torch.zeros(batch_size, 1).byte()), 1)]. *)
Definition cat_zeros (mask : byte_mask) (batch_size : Z) : option byte_mask :=
  if decide (size0 mask = batch_size)
  then Some ((λ row, row ++ [false]) <$> mask)
  else None.

Section Forward.
(** The state of the random generator that dropout draws from, and
    [FConvEncoder.forward] of the input encoder. *)
Variable rng : Type.
Variable input_encoder : rng → list (list Z) → list Z → encoder_output * rng.
(** The parameters of the [Code2SeqEncoder] that is the context encoder. *)
Variable embed_dim : nat.
Variables leaf_pad leaf_path path_path : Z.
Variables max_leaf_positions max_path_positions : Z.
Variables leaf_embedding path_embedding : Z → Code2Seq.vec.
Variable path_bilstm : list Code2Seq.vec → Code2Seq.vec.
Variable fc_tanh : Code2Seq.vec → Code2Seq.vec.

Definition forward (g : rng) (src_tokens : list (list Z)) (src_lengths : list Z)
    (start_leaf_tokens : list (list Z)) (start_leaf_lengths : list Z)
    (end_leaf_tokens : list (list Z)) (end_leaf_lengths : list Z)
    (path_tokens : list (list Z)) (path_lengths : list Z)
  : option (encoder_output * rng) :=
  let '(src_output, g) := input_encoder g src_tokens src_lengths in
  ctx_output ←
    Code2Seq.forward embed_dim leaf_pad leaf_path path_path max_leaf_positions
      max_path_positions leaf_embedding path_embedding path_bilstm fc_tanh
      start_leaf_tokens start_leaf_lengths end_leaf_tokens end_leaf_lengths
      path_tokens path_lengths;
  let batch_size := size0 src_tokens in
  let embed_dim := size2 (encoder_out src_output).1 in
  encoder_padding_mask ←
    match encoder_padding_mask src_output with
    | None => Some None
    | Some mask => Some <$> cat_zeros mask batch_size
    end;
  ctx ← view ctx_output batch_size embed_dim;
  x ← cat1 (encoder_out src_output).1 ctx;
  ctx ← view ctx_output batch_size embed_dim;
  y ← cat1 (encoder_out src_output).2 ctx;
  Some ({| encoder_out := (x, y); encoder_padding_mask := encoder_padding_mask |}, g).
End Forward.

(** What the input encoder returns for a batch of [b] examples: two tensors
    with [b] rows of at least one position each and a common width [e], and
    a mask, if any, with [b] rows. *)
Definition well_shaped (b e : nat) (src_output : encoder_output) : Prop :=
  let shaped (t : tensor3) :=
    length t = b
    ∧ Forall (λ row, row ≠ [] ∧ Forall (λ v : list Q, length v = e) row) t in
  shaped (encoder_out src_output).1 ∧ shaped (encoder_out src_output).2
  ∧ ∀ mask, encoder_padding_mask src_output = Some mask → length mask = b.

(** An input encoder for the examples: every source token becomes the
    vector (token, 1) in the first tensor and (token, 2) in the second, and
    the mask marks the pad symbol 1. *)
Definition toy_input_encoder (g : unit) (src_tokens : list (list Z))
    (src_lengths : list Z) : encoder_output * unit :=
  ({| encoder_out :=
        (map (map (λ tok, [inject_Z tok; 1%Q])) src_tokens,
         map (map (λ tok, [inject_Z tok; 2%Q])) src_tokens);
      encoder_padding_mask := Some (map (map (λ tok, tok =? 1)) src_tokens) |}, g).

End MultiContextEncoder.

(** ** Batching, [collate] *)

Module Collate.
Import Dataset.

(** The two dictionaries [collate] builds. *)
Record net_input := {
  src_tokens : list (list Z);
  src_lengths : list Z;
  start_leaf_tokens : list (list Z);
  start_leaf_lengths : list Z;
  end_leaf_tokens : list (list Z);
  end_leaf_lengths : list Z;
  path_tokens : list (list Z);
  path_lengths : list Z;
  prev_output_tokens : option (list (list Z));
}.
Record batch := {
  batch_id : list nat;
  ntokens : Z;
  batch_net_input : net_input;
  batch_target : option (list (list Z));
  nsentences : Z;
}.

(** [t.numel()] and [len(t)] of a 1-D tensor; [sum(...)] over a list of
    Python integers is [Code2Seq.total]. *)
Definition numel (t : list Z) : Z := Z.of_nat (length t).

Section Collate.
(** [data_utils.collate_tokens(values, pad_idx, eos_idx, left_pad,
    move_eos_to_beginning)], which is not part of this source: it returns a
    2-D tensor or raises. *)
Variable collate_tokens :
  list (list Z) → Z → Z → bool → bool → option (list (list Z)).

(** The result is [None] when the code raises, [Some None] for the empty
    dictionary it returns on no samples. *)
Definition collate (samples : list item) (pad_idx eos_idx : Z)
    (left_pad_source left_pad_target input_feeding : bool)
  : option (option batch) :=
  match samples with
  | [] => Some None
  | first :: _ =>
      let merge (values : list (list Z)) (left_pad move_eos_to_beginning : bool) :=
        collate_tokens values pad_idx eos_idx left_pad move_eos_to_beginning in
      let id := id <$> samples in
      src_tokens ← merge (source <$> samples) left_pad_source false;
      start_leaf_tokens ← merge (start_leaf <$> samples) left_pad_source false;
      end_leaf_tokens ← merge (end_leaf <$> samples) left_pad_source false;
      path_tokens ← merge (path_item <$> samples) left_pad_source false;
      let src_lengths := (λ s, numel (source s)) <$> samples in
      let start_leaf_lengths := (λ s, numel (start_leaf s)) <$> samples in
      let end_leaf_lengths := (λ s, numel (end_leaf s)) <$> samples in
      let path_lengths := (λ s, numel (path_item s)) <$> samples in
      let '(src_lengths, sort_order) := Code2Seq.sort_descending src_lengths in
      id ← Code2Seq.index_select id sort_order;
      src_tokens ← Code2Seq.index_select src_tokens sort_order;
      start_leaf_tokens ← Code2Seq.index_select start_leaf_tokens sort_order;
      start_leaf_lengths ← Code2Seq.index_select start_leaf_lengths sort_order;
      end_leaf_tokens ← Code2Seq.index_select end_leaf_tokens sort_order;
      end_leaf_lengths ← Code2Seq.index_select end_leaf_lengths sort_order;
      path_tokens ← Code2Seq.index_select path_tokens sort_order;
      path_lengths ← Code2Seq.index_select path_lengths sort_order;
      '(target, prev_output_tokens, ntokens) ←
        match Dataset.target first with
        | Some _ =>
            targets ← mapM Dataset.target samples;
            target ← merge targets left_pad_target false;
            target ← Code2Seq.index_select target sort_order;
            let ntokens := Code2Seq.total (numel <$> targets) in
            if input_feeding then
              prev_output_tokens ← merge targets left_pad_target true;
              prev_output_tokens ← Code2Seq.index_select prev_output_tokens sort_order;
              Some (Some target, Some prev_output_tokens, ntokens)
            else Some (Some target, None, ntokens)
        | None =>
            Some (None, None, Code2Seq.total ((λ s, numel (source s)) <$> samples))
        end;
      Some (Some {|
        batch_id := id;
        ntokens := ntokens;
        batch_net_input := {|
          src_tokens := src_tokens;
          src_lengths := src_lengths;
          start_leaf_tokens := start_leaf_tokens;
          start_leaf_lengths := start_leaf_lengths;
          end_leaf_tokens := end_leaf_tokens;
          end_leaf_lengths := end_leaf_lengths;
          path_tokens := path_tokens;
          path_lengths := path_lengths;
          prev_output_tokens := prev_output_tokens |};
        batch_target := target;
        nsentences := numel (source first) |})
  end.
End Collate.

(** The values of a field, each filled on the left with the pad symbol up to
    the longest: what [collate_tokens] is meant to return for the source-side
    fields when [left_pad_source] is set. *)
Definition left_pad_rows (pad_idx : Z) (values : list (list Z)) : list (list Z) :=
  let size := max_list (length <$> values) in
  (λ v, replicate (size - length v) pad_idx ++ v) <$> values.

(** A stand-in for [collate_tokens] in the examples: every value is filled
    with the pad symbol up to the longest, on the left or on the right; with
    [move_eos_to_beginning] a value must end with the end marker, which is
    moved to its front. *)
Definition example_collate_tokens (values : list (list Z)) (pad_idx eos_idx : Z)
    (left_pad move_eos_to_beginning : bool) : option (list (list Z)) :=
  let size := max_list (length <$> values) in
  mapM (λ v,
          v ← (if move_eos_to_beginning then
                 final ← Py.index v (-1);
                 if final =? eos_idx then Some (eos_idx :: Py.slice_to v (-1)) else None
               else Some v);
          Some (if left_pad then replicate (size - length v) pad_idx ++ v
                else v ++ replicate (size - length v) pad_idx))
       values.

(** Two samples for the examples, the first with the shorter source. *)
Definition example_samples : list item :=
  [ {| id := 7; source := [5; 2]; target := Some [6; 2];
       start_leaf := [10; 4; 11]; end_leaf := [12; 4; 13]; path_item := [20; 4; 21] |};
    {| id := 9; source := [5; 5; 2]; target := Some [6; 6; 2];
       start_leaf := [14]; end_leaf := [15]; path_item := [22] |} ].

End Collate.

(** ** Module-level helpers of [fconv.py]: [extend_conv_spec] and the
    architecture defaults *)

Module Fconv.

(** A convolution spec is a tuple of integers; [extended] is the list the
    loop appends to. *)
Fixpoint extend_loop (extended : list (list Z)) (convolutions : list (list Z))
  : option (list (list Z)) :=
  match convolutions with
  | [] => Some extended
  | spec :: rest =>
      if (length spec =? 3)%nat then extend_loop (extended ++ [spec]) rest
      else if (length spec =? 2)%nat then extend_loop (extended ++ [spec ++ [1]]) rest
      else None
  end.

Definition extend_conv_spec (convolutions : list (list Z)) : option (list (list Z)) :=
  extend_loop [] convolutions.

(** The values the architecture functions store, and the [args] namespace as
    the attributes that are set. *)
Inductive value :=
| VNone
| VBool (b : bool)
| VInt (n : Z)
| VFloat (q : Q)
| VStr (s : string).

Definition namespace := string → option value.

(** [getattr(args, name, default)] and [setattr(args, name, v)]. *)
Definition getattr (args : namespace) (name : string) (default : value) : value :=
  match args name with
  | Some v => v
  | None => default
  end.
Definition setattr (args : namespace) (name : string) (v : value) : namespace :=
  λ n, if String.eqb n name then Some v else args n.

(** The statement [args.name = getattr(args, 'name', default)]. *)
Definition set_default (args : namespace) (name : string) (default : value)
  : namespace :=
  setattr args name (getattr args name default).

Local Open Scope string_scope.

Definition base_lm_architecture (args : namespace) : namespace :=
  let args := set_default args "dropout" (VFloat (1 # 10)) in
  let args := set_default args "decoder_embed_dim" (VInt 128) in
  let args := set_default args "decoder_layers" (VStr "[(1268, 4)] * 13") in
  let args := set_default args "decoder_attention" (VStr "False") in
  let args := set_default args "adaptive_softmax_cutoff" VNone in
  let args := set_default args "adaptive_softmax_dropout" (VInt 0) in
  args.

Definition fconv_lm_dauphin_wikitext103 (args : namespace) : namespace :=
  let layers := "[(850, 6)] * 3" in
  let layers := layers ++ " + [(850, 1)] * 1" in
  let layers := layers ++ " + [(850, 5)] * 4" in
  let layers := layers ++ " + [(850, 1)] * 1" in
  let layers := layers ++ " + [(850, 4)] * 3" in
  let layers := layers ++ " + [(1024, 4)] * 1" in
  let layers := layers ++ " + [(2048, 4)] * 1" in
  let args := set_default args "decoder_embed_dim" (VInt 280) in
  let args := set_default args "decoder_layers" (VStr layers) in
  let args := set_default args "decoder_attention" (VStr "False") in
  let args := set_default args "adaptive_softmax_cutoff" (VStr "10000,20000,200000") in
  base_lm_architecture args.

Definition fconv_lm_dauphin_gbw (args : namespace) : namespace :=
  let layers := "[(512, 5)]" in
  let layers := layers ++ " + [(128, 1, 0), (128, 5, 0), (512, 1, 3)] * 3" in
  let layers := layers ++ " + [(512, 1, 0), (512, 5, 0), (1024, 1, 3)] * 3" in
  let layers := layers ++ " + [(1024, 1, 0), (1024, 5, 0), (2048, 1, 3)] * 6" in
  let layers := layers ++ " + [(1024, 1, 0), (1024, 5, 0), (4096, 1, 3)]" in
  let args := set_default args "decoder_embed_dim" (VInt 128) in
  let args := set_default args "decoder_layers" (VStr layers) in
  let args := set_default args "decoder_attention" (VStr "False") in
  let args := set_default args "adaptive_softmax_cutoff" (VStr "10000,50000,200000") in
  base_lm_architecture args.

Definition base_architecture (args : namespace) : namespace :=
  let args := set_default args "dropout" (VFloat (1 # 10)) in
  let args := set_default args "encoder_embed_dim" (VInt 512) in
  let args := set_default args "encoder_embed_path" VNone in
  let args := set_default args "encoder_layers" (VStr "[(512, 3)] * 20") in
  let args := set_default args "decoder_embed_dim" (VInt 512) in
  let args := set_default args "decoder_embed_path" VNone in
  let args := set_default args "decoder_layers" (VStr "[(512, 3)] * 20") in
  let args := set_default args "decoder_out_embed_dim" (VInt 256) in
  let args := set_default args "decoder_attention" (VStr "True") in
  let args := set_default args "share_input_output_embed" (VBool false) in
  args.

Definition fconv_iwslt_de_en (args : namespace) : namespace :=
  let args := set_default args "encoder_embed_dim" (VInt 256) in
  let args := set_default args "encoder_layers" (VStr "[(256, 3)] * 4") in
  let args := set_default args "decoder_embed_dim" (VInt 256) in
  let args := set_default args "decoder_layers" (VStr "[(256, 3)] * 3") in
  let args := set_default args "decoder_out_embed_dim" (VInt 256) in
  base_architecture args.

Definition fconv_wmt_en_ro (args : namespace) : namespace :=
  let args := set_default args "decoder_out_embed_dim" (VInt 512) in
  base_architecture args.

Definition fconv_wmt_en_de (args : namespace) : namespace :=
  let convs := "[(512, 3)] * 9" in
  let convs := convs ++ " + [(1024, 3)] * 4" in
  let convs := convs ++ " + [(2048, 1)] * 2" in
  let args := set_default args "encoder_embed_dim" (VInt 768) in
  let args := set_default args "encoder_layers" (VStr convs) in
  let args := set_default args "decoder_embed_dim" (VInt 768) in
  let args := set_default args "decoder_layers" (VStr convs) in
  let args := set_default args "decoder_out_embed_dim" (VInt 512) in
  base_architecture args.

Definition fconv_wmt_en_fr (args : namespace) : namespace :=
  let convs := "[(512, 3)] * 6" in
  let convs := convs ++ " + [(768, 3)] * 4" in
  let convs := convs ++ " + [(1024, 3)] * 3" in
  let convs := convs ++ " + [(2048, 1)] * 1" in
  let convs := convs ++ " + [(4096, 1)] * 1" in
  let args := set_default args "encoder_embed_dim" (VInt 768) in
  let args := set_default args "encoder_layers" (VStr convs) in
  let args := set_default args "decoder_embed_dim" (VInt 768) in
  let args := set_default args "decoder_layers" (VStr convs) in
  let args := set_default args "decoder_out_embed_dim" (VInt 512) in
  base_architecture args.

Definition base_fconv_context (args : namespace) : namespace :=
  base_architecture args.

Definition base_fconv_multicontext (args : namespace) : namespace :=
  base_architecture args.

(** The registered architectures of the translation models and of the
    language models, and the attributes each family sets. *)
Definition translation_architectures : list (namespace → namespace) :=
  [base_architecture; fconv_iwslt_de_en; fconv_wmt_en_ro; fconv_wmt_en_de;
   fconv_wmt_en_fr; base_fconv_context; base_fconv_multicontext].
Definition lm_architectures : list (namespace → namespace) :=
  [base_lm_architecture; fconv_lm_dauphin_wikitext103; fconv_lm_dauphin_gbw].
Definition translation_attributes : list string :=
  ["dropout"; "encoder_embed_dim"; "encoder_embed_path"; "encoder_layers";
   "decoder_embed_dim"; "decoder_embed_path"; "decoder_layers";
   "decoder_out_embed_dim"; "decoder_attention"; "share_input_output_embed"].
Definition lm_attributes : list string :=
  ["dropout"; "decoder_embed_dim"; "decoder_layers"; "decoder_attention";
   "adaptive_softmax_cutoff"; "adaptive_softmax_dropout"].

(** A list of statements [args.name = getattr(args, 'name', default)] run in
    order, and the first default a list gives for a name. *)
Definition set_defaults (defaults : list (string * value)) (args : namespace)
  : namespace :=
  foldl (λ a d, set_default a d.1 d.2) args defaults.
Fixpoint first_default (defaults : list (string * value)) (name : string)
  : option value :=
  match defaults with
  | [] => None
  | d :: rest => if String.eqb name d.1 then Some d.2 else first_default rest name
  end.

(** The statements each architecture function runs, in the order it runs
    them (its own, then those of the base function it calls). *)
Definition base_lm_defaults : list (string * value) :=
  [("dropout", VFloat (1 # 10)); ("decoder_embed_dim", VInt 128);
   ("decoder_layers", VStr "[(1268, 4)] * 13"); ("decoder_attention", VStr "False");
   ("adaptive_softmax_cutoff", VNone); ("adaptive_softmax_dropout", VInt 0)].
Definition base_defaults : list (string * value) :=
  [("dropout", VFloat (1 # 10)); ("encoder_embed_dim", VInt 512);
   ("encoder_embed_path", VNone); ("encoder_layers", VStr "[(512, 3)] * 20");
   ("decoder_embed_dim", VInt 512); ("decoder_embed_path", VNone);
   ("decoder_layers", VStr "[(512, 3)] * 20"); ("decoder_out_embed_dim", VInt 256);
   ("decoder_attention", VStr "True"); ("share_input_output_embed", VBool false)].
Definition translation_defaults
  : list ((namespace → namespace) * list (string * value)) :=
  [(base_architecture, base_defaults);
   (fconv_iwslt_de_en,
    [("encoder_embed_dim", VInt 256); ("encoder_layers", VStr "[(256, 3)] * 4");
     ("decoder_embed_dim", VInt 256); ("decoder_layers", VStr "[(256, 3)] * 3");
     ("decoder_out_embed_dim", VInt 256)] ++ base_defaults);
   (fconv_wmt_en_ro, [("decoder_out_embed_dim", VInt 512)] ++ base_defaults);
   (fconv_wmt_en_de,
    [("encoder_embed_dim", VInt 768);
     ("encoder_layers", VStr "[(512, 3)] * 9 + [(1024, 3)] * 4 + [(2048, 1)] * 2");
     ("decoder_embed_dim", VInt 768);
     ("decoder_layers", VStr "[(512, 3)] * 9 + [(1024, 3)] * 4 + [(2048, 1)] * 2");
     ("decoder_out_embed_dim", VInt 512)] ++ base_defaults);
   (fconv_wmt_en_fr,
    [("encoder_embed_dim", VInt 768);
     ("encoder_layers",
      VStr "[(512, 3)] * 6 + [(768, 3)] * 4 + [(1024, 3)] * 3 + [(2048, 1)] * 1 + [(4096, 1)] * 1");
     ("decoder_embed_dim", VInt 768);
     ("decoder_layers",
      VStr "[(512, 3)] * 6 + [(768, 3)] * 4 + [(1024, 3)] * 3 + [(2048, 1)] * 1 + [(4096, 1)] * 1");
     ("decoder_out_embed_dim", VInt 512)] ++ base_defaults);
   (base_fconv_context, base_defaults);
   (base_fconv_multicontext, base_defaults)]%list.
Definition lm_defaults
  : list ((namespace → namespace) * list (string * value)) :=
  [(base_lm_architecture, base_lm_defaults);
   (fconv_lm_dauphin_wikitext103,
    [("decoder_embed_dim", VInt 280);
     ("decoder_layers",
      VStr "[(850, 6)] * 3 + [(850, 1)] * 1 + [(850, 5)] * 4 + [(850, 1)] * 1 + [(850, 4)] * 3 + [(1024, 4)] * 1 + [(2048, 4)] * 1");
     ("decoder_attention", VStr "False");
     ("adaptive_softmax_cutoff", VStr "10000,20000,200000")] ++ base_lm_defaults);
   (fconv_lm_dauphin_gbw,
    [("decoder_embed_dim", VInt 128);
     ("decoder_layers",
      VStr "[(512, 5)] + [(128, 1, 0), (128, 5, 0), (512, 1, 3)] * 3 + [(512, 1, 0), (512, 5, 0), (1024, 1, 3)] * 3 + [(1024, 1, 0), (1024, 5, 0), (2048, 1, 3)] * 6 + [(1024, 1, 0), (1024, 5, 0), (4096, 1, 3)]");
     ("decoder_attention", VStr "False");
     ("adaptive_softmax_cutoff", VStr "10000,50000,200000")] ++ base_lm_defaults)]%list.

(** A namespace with some attributes given on the command line. *)
Definition example_args : namespace :=
  λ n, if String.eqb n "encoder_embed_dim" then Some (VInt 64)
       else if String.eqb n "decoder_attention" then Some VNone
       else None.

End Fconv.

(** * Properties *)

(** ** Slices with non-negative bounds *)

Section PySlices.
Context {A : Type}.
Implicit Types l : list A.

Lemma index_nonneg l (i : Z) :
0 <= i -> Py.index l i = l !! Z.to_nat i.
Proof.
intros Hi. unfold Py.index.
destruct (Z.ltb_spec i (Z.of_nat (length l))) as [Hlt|Hge].
- replace (0 <=? i) with true by (symmetry; apply Z.leb_le; lia). reflexivity.
- replace (0 <=? i) with true by (symmetry; apply Z.leb_le; lia).
  replace (i <? 0) with false by (symmetry; apply Z.ltb_ge; lia).
  simpl. symmetry. apply lookup_ge_None. lia.
Qed.

Lemma slice_nonneg l (s e : Z) :
0 <= s -> 0 <= e ->
Py.slice l s e = take (Z.to_nat e - Z.to_nat s) (drop (Z.to_nat s) l).
Proof.
intros Hs He. unfold Py.slice, Py.bound.
replace (s <? 0) with false by (symmetry; apply Z.ltb_ge; lia).
replace (e <? 0) with false by (symmetry; apply Z.ltb_ge; lia).
destruct (Z.le_gt_cases (Z.of_nat (length l)) s) as [Hns|Hns].
- rewrite (Z.min_r s) by lia.
  rewrite !drop_ge by lia. by rewrite !take_nil.
- rewrite (Z.min_l s) by lia.
  destruct (Z.le_gt_cases e (Z.of_nat (length l))) as [Hen|Hen].
  + rewrite (Z.min_l e) by lia. f_equal. lia.
  + rewrite (Z.min_r e) by lia.
    rewrite !take_ge; [done| |]; rewrite length_drop; lia.
Qed.

Lemma slice_to_nonneg l (e : Z) :
0 <= e -> Py.slice_to l e = take (Z.to_nat e) l.
Proof.
intros He. unfold Py.slice_to, Py.bound.
replace (e <? 0) with false by (symmetry; apply Z.ltb_ge; lia).
destruct (Z.le_gt_cases e (Z.of_nat (length l))).
- by rewrite Z.min_l by lia.
- rewrite Z.min_r by lia. rewrite !take_ge; [done| |]; lia.
Qed.

Lemma slice_from_nonneg l (s : Z) :
0 <= s -> Py.slice_from l s = drop (Z.to_nat s) l.
Proof.
intros Hs. unfold Py.slice_from, Py.bound.
replace (s <? 0) with false by (symmetry; apply Z.ltb_ge; lia).
destruct (Z.le_gt_cases s (Z.of_nat (length l))).
- by rewrite Z.min_l by lia.
- rewrite Z.min_r by lia. rewrite !drop_ge; [done| |]; lia.
Qed.

Lemma lookup_final l (d : A) :
l ≠ [] → l !! (length l - 1)%nat = Some (List.last l d).
Proof.
induction l as [|x [|y l] IH]; intros Hne; [done..|].
change (List.last (x :: y :: l) d) with (List.last (y :: l) d).
rewrite <- IH by done. simpl. by rewrite Nat.sub_0_r.
Qed.

(** [l[-1]] on a list that is not empty. *)
Lemma index_final l (d : A) :
l ≠ [] → Py.index l (-1) = Some (List.last l d).
Proof.
intros Hne. unfold Py.index.
replace (0 <=? -1) with false by done. simpl.
replace (0 <=? -1 + Z.of_nat (length l)) with true
  by (symmetry; apply Z.leb_le; destruct l; [done|simpl; lia]).
replace (Z.to_nat (-1 + Z.of_nat (length l))) with (length l - 1)%nat by lia.
by apply lookup_final.
Qed.

End PySlices.

(** ** The converter *)

Section ConverterProps.
Import Converter.
Local Open Scope string_scope.

Lemma split_not_nil sep s : split sep s ≠ [].
Proof.
  destruct s as [|c s]; simpl; [done|].
  destruct (Ascii.eqb c sep); [done|]. by destruct (split sep s).
Qed.

Lemma removelast_take {A} (l : list A) : removelast l = take (length l - 1) l.
Proof.
  induction l as [|x [|y l] IH]; [done..|].
  change (removelast (x :: y :: l)) with (x :: removelast (y :: l)).
  rewrite IH. simpl. by rewrite Nat.sub_0_r.
Qed.

(** What the three index expressions of the inner loop read from a tuple
    that passed the length test. *)
Lemma tuple_reads (p : list string) :
  (3 <= length p)%nat →
  Py.index p 0 = Some (hd "" p) ∧
  Py.index p (-1) = Some (List.last p "") ∧
  Py.slice p 1 (-1) = removelast (tl p).
Proof.
  intros Hp. split_and!.
  - rewrite index_nonneg by lia. destruct p; [simpl in Hp; lia|done].
  - apply index_final. destruct p; [simpl in Hp; lia|done].
  - unfold Py.slice, Py.bound.
    replace (1 <? 0)%Z with false by done. replace (-1 <? 0)%Z with true by done.
    rewrite Z.min_l, Z.max_l by lia.
    rewrite removelast_take. destruct p as [|x p]; [simpl in Hp; lia|].
    simpl. rewrite drop_0. f_equal. lia.
Qed.

Lemma path_loop_spec (l : list string) (acc : list string * list string) :
  let kept := filter (λ p, (3 <= length p)%nat) (map (λ f, split "|" (strip f)) l) in
  path_loop acc l = Some ((acc.1 ++ map leaf_of kept)%list, (acc.2 ++ map path_of kept)%list).
Proof.
  revert acc. induction l as [|f l IH]; intros [leaves paths]; simpl.
  - by rewrite !app_nil_r.
  - unfold path_step. rewrite filter_cons.
    destruct (Nat.ltb_spec (length (split "|" (strip f))) 3) as [Hlt|Hge].
    + simpl. rewrite decide_False by lia. apply IH.
    + destruct (tuple_reads _ Hge) as (-> & -> & ->). simpl.
      rewrite decide_True by lia. rewrite IH. simpl.
      unfold append_item. by rewrite <- !app_assoc.
Qed.

Lemma convert_line_spec (out : outputs) (line : string) :
  let fields := split " " (strip line) in
  convert_line out line =
    Some (if decide (length fields < 3)%nat then out else emitted out fields).
Proof.
  intros fields. unfold convert_line. fold fields.
  destruct (Nat.ltb_spec (length fields) 3) as [Hlt|Hge].
  - by rewrite decide_True by lia.
  - rewrite decide_False by lia.
    rewrite !index_nonneg by lia.
    destruct fields as [|f0 [|f1 rest]] eqn:E; [simpl in Hge; lia..|].
    simpl. rewrite slice_from_nonneg by lia.
    rewrite path_loop_spec. simpl. reflexivity.
Qed.

Lemma convert_total (lines : list string) (out : outputs) :
  is_Some (convert out lines).
Proof.
  revert out. induction lines as [|line lines IH]; intros out; simpl; [eauto|].
  rewrite convert_line_spec. simpl. apply IH.
Qed.

(** C8 (as amended).  A line with fewer than three SPACE-separated fields
    (after stripping) leaves the four files as they were; any other line
    appends exactly one record to each file, built from the first two
    fields and from those path tuples that have at least three
    pipe-separated fields, the shorter tuples being left out of the leaf and
    path records; and no line, hence no input file, makes the converter
    raise. *)
Theorem convert_skips_short_lines_and_tuples (out : outputs) (line : string) :
  let fields := split " " (strip line) in
  convert_line out line =
    Some (if decide (length fields < 3)%nat then out else emitted out fields)
  ∧ (∀ lines, is_Some (convert out lines)).
Proof.
  split; [apply convert_line_spec|]. intros lines. apply convert_total.
Qed.

(** C8, the claim as stated, fails: the line [a b c] has a single
    pipe-separated top-level field, yet it is not skipped: a record is
    written to each of the four files.  Conversely [a|b|c] has three
    pipe-separated fields and is skipped. *)
Lemma pipe_separated_fields_do_not_decide :
  (length (split "|" (strip "a b c")) < 3)%nat ∧
  convert_line no_output "a b c" =
    Some {| src_file := ["b" ++ nl]; trg_file := ["a" ++ nl];
            leaf_file := [nl]; path_file := [nl] |} ∧
  (3 <= length (split "|" (strip "a|b|c")))%nat ∧
  convert_line no_output "a|b|c" = Some no_output.
Proof. split_and!; [simpl; lia|reflexivity|simpl; lia|reflexivity]. Qed.

End ConverterProps.

(** ** The dataset accessor *)

Section DatasetProps.
Import Dataset.

Lemma nonzero_eq_absent (x : Z) (t : list Z) (pos : Z) :
  x ∉ t → nonzero_eq x t pos = [].
Proof.
  revert pos. induction t as [|y t IH]; intros pos Hx; simpl; [done|].
  apply not_elem_of_cons in Hx as [Hxy Hxt].
  rewrite (proj2 (Z.eqb_neq y x)) by done. simpl. by apply IH.
Qed.

(** The first position reported is that of the first occurrence. *)
Lemma nonzero_eq_first (x : Z) (t : list Z) (pos : Z) :
  x ∈ t →
  ∃ pre post rest,
    t = (pre ++ x :: post) ∧ (x ∉ pre) ∧
    nonzero_eq x t pos = (pos + Z.of_nat (length pre)) :: rest.
Proof.
  revert pos. induction t as [|y t IH]; intros pos Hx.
  - by apply elem_of_nil in Hx.
  - simpl. destruct (Z.eqb_spec y x) as [->|Hne].
    + exists [], t, (nonzero_eq x t (pos + 1)). split_and!; [done| |].
      * apply not_elem_of_nil.
      * simpl. f_equal. lia.
    + apply elem_of_cons in Hx as [Hx|Hx]; [congruence|].
      destruct (IH (pos + 1) Hx) as (pre & post & rest & -> & Hpre & ->).
      exists (y :: pre), post, rest. split_and!; [done| |].
      * apply not_elem_of_cons. split; [congruence|done].
      * simpl. f_equal. lia.
Qed.

Lemma getitem_returns_split (self : dataset) (index : nat) (leaf_item : list Z) :
  leaf self !! index = Some leaf_item →
  (leaf_dict_leaf self ∈ leaf_item → readable self index →
     ∃ it, getitem self index = Some it ∧
           leaf_item = (start_leaf it ++ [leaf_dict_leaf self] ++ end_leaf it) ∧
           leaf_dict_leaf self ∉ start_leaf it) ∧
  (leaf_dict_leaf self ∉ leaf_item → getitem self index = None).
Proof.
  intros Hleaf. split.
  - intros Hin ((s & Hs & Hsne) & (p & Hp) & Htgt).
    destruct (nonzero_eq_first _ _ 0 Hin) as (pre & post & rest & -> & Hpre & Hnz).
    assert (Hstart : Py.slice_to (pre ++ leaf_dict_leaf self :: post)
                       (0 + Z.of_nat (length pre)) = pre).
    { rewrite slice_to_nonneg by lia.
      replace (Z.to_nat (0 + Z.of_nat (length pre))) with (length pre) by lia.
      by rewrite take_app_length. }
    assert (Hend : Py.slice_from (pre ++ leaf_dict_leaf self :: post)
                     (0 + Z.of_nat (length pre) + 1) = post).
    { rewrite slice_from_nonneg by lia.
      replace (Z.to_nat (0 + Z.of_nat (length pre) + 1)) with (S (length pre)) by lia.
      rewrite (cons_middle _ pre post), app_assoc.
      rewrite drop_app_length'; [done|]. rewrite length_app. simpl. lia. }
    unfold getitem.
    destruct (tgt self) as [ts|] eqn:Etgt.
    + destruct (Htgt ts eq_refl) as (t & Ht & Htne).
      rewrite Ht; simpl. rewrite Hs; simpl. rewrite Hleaf; simpl.
      rewrite Hp; simpl. rewrite Hnz; simpl. rewrite Hstart, Hend.
      destruct (append_eos_to_target self), (remove_eos_from_source self);
        try destruct ts as [|t0 trest]; rewrite ?Ht; simpl;
        rewrite ?(index_final t 0), ?(index_final s 0) by auto; simpl;
        repeat case_match; simpl;
        (eexists; split; [reflexivity|]; simpl; by split).
    + rewrite Hs; simpl. rewrite Hleaf; simpl.
      rewrite Hp; simpl. rewrite Hnz; simpl. rewrite Hstart, Hend.
      destruct (append_eos_to_target self), (remove_eos_from_source self); simpl;
        rewrite ?(index_final s 0) by auto; simpl;
        repeat case_match; simpl;
        (eexists; split; [reflexivity|]; simpl; by split).
  - intros Hnot. unfold getitem.
    destruct (match tgt self with Some t => Some <$> t !! index | None => Some None end);
      [simpl|done].
    destruct (src self !! index); [simpl|done]. rewrite Hleaf. simpl.
    destruct (path self !! index); [simpl|done].
    rewrite nonzero_eq_absent by done. done.
Qed.

(** What a returned item holds in its two leaf fields. *)
Lemma getitem_leaf_fields (self : dataset) (index : nat) (it : item) :
  getitem self index = Some it →
  ∃ leaf_item ind,
    leaf self !! index = Some leaf_item ∧
    Py.index (nonzero_eq (leaf_dict_leaf self) leaf_item 0) 0 = Some ind ∧
    start_leaf it = Py.slice_to leaf_item ind ∧
    end_leaf it = Py.slice_from leaf_item (ind + 1).
Proof.
  unfold getitem. intros Hit.
  destruct (match tgt self with Some t => Some <$> t !! index | None => Some None end)
    as [tgt_item|]; [simpl in Hit|done].
  destruct (src self !! index) as [src_item|]; [simpl in Hit|done].
  destruct (leaf self !! index) as [leaf_item|] eqn:Hleaf; [simpl in Hit|done].
  destruct (path self !! index) as [p|]; [simpl in Hit|done].
  destruct (Py.index (nonzero_eq (leaf_dict_leaf self) leaf_item 0) 0) as [ind|] eqn:Hind;
    [simpl in Hit|done].
  exists leaf_item, ind.
  match type of Hit with
  | ?a ≫= _ = _ => destruct a as [t'|]; [simpl in Hit|done]
  end.
  match type of Hit with
  | ?a ≫= _ = _ => destruct a as [s'|]; [simpl in Hit|done]
  end.
  simplify_eq. done.
Qed.

(** C10.  When the leaf tensor of example [index] holds the leaf separator,
    every item [__getitem__] returns has as [start_leaf] the part of the leaf
    tensor strictly before the first separator (it holds none) and as
    [end_leaf] the part strictly after it, so that
    start_leaf ++ [separator] ++ end_leaf is the leaf tensor again; and an
    item is returned as soon as the other fields of the example can be read.
    When the leaf tensor holds no separator the accessor raises instead of
    returning. *)
Theorem getitem_splits_leaf_at_first_separator
    (self : dataset) (index : nat) (leaf_item : list Z) :
  leaf self !! index = Some leaf_item →
  (leaf_dict_leaf self ∈ leaf_item →
     (∀ it, getitem self index = Some it →
            leaf_item = (start_leaf it ++ [leaf_dict_leaf self] ++ end_leaf it) ∧
            leaf_dict_leaf self ∉ start_leaf it) ∧
     (readable self index → is_Some (getitem self index))) ∧
  (leaf_dict_leaf self ∉ leaf_item → getitem self index = None).
Proof.
  intros Hleaf. destruct (getitem_returns_split self index leaf_item Hleaf) as [Hret Hnone].
  split; [|done]. intros Hin. split.
  - intros it Hit.
    destruct (getitem_leaf_fields self index it Hit) as (l & ind & Hl & Hind & -> & ->).
    simplify_eq.
    destruct (nonzero_eq_first _ _ 0 Hin) as (pre & post & rest & -> & Hpre & Hnz).
    rewrite Hnz, index_nonneg in Hind by lia. simpl in Hind. simplify_eq.
    rewrite slice_to_nonneg, slice_from_nonneg by lia.
    replace (Z.to_nat (0 + Z.of_nat (length pre))) with (length pre) by lia.
    replace (Z.to_nat (0 + Z.of_nat (length pre) + 1)) with (S (length pre)) by lia.
    rewrite take_app_length. split; [|done].
    replace (drop (S (length pre)) (pre ++ leaf_dict_leaf self :: post)) with post; [done|].
    rewrite (cons_middle _ pre post), app_assoc.
    rewrite drop_app_length'; [done|]. rewrite length_app. simpl. lia.
  - intros Hrd. destruct (Hret Hin Hrd) as (it & -> & _). eauto.
Qed.

Lemma getitem_splits_leaf_at_first_separator_witness :
  leaf toy_dataset !! 0%nat = Some [7; 3; 8; 3; 9] ∧
  leaf_dict_leaf toy_dataset ∈ [7; 3; 8; 3; 9] ∧
  readable toy_dataset 0 ∧
  getitem toy_dataset 0
  = Some {| id := 0; source := [5]; target := Some [6; 2];
            start_leaf := [7]; end_leaf := [8; 3; 9]; path_item := [4] |} ∧
  (∀ it, getitem toy_dataset 0 = Some it →
         [7; 3; 8; 3; 9] = (start_leaf it ++ [leaf_dict_leaf toy_dataset] ++ end_leaf it) ∧
         leaf_dict_leaf toy_dataset ∉ start_leaf it) ∧
  is_Some (getitem toy_dataset 0).
Proof.
  assert (Hin : leaf_dict_leaf toy_dataset ∈ [7; 3; 8; 3; 9]).
  { apply (list_elem_of_lookup_2 _ 1%nat). reflexivity. }
  assert (Hrd : readable toy_dataset 0).
  { unfold readable. split_and!.
    - exists [5; 2]. split; [reflexivity|discriminate].
    - eexists. reflexivity.
    - intros ts Hts. exists [6; 2]. simpl in Hts. simplify_eq.
      split; [reflexivity|discriminate]. }
  split_and!; [reflexivity|exact Hin|exact Hrd|reflexivity| |].
  - exact (proj1 (proj1 (getitem_splits_leaf_at_first_separator toy_dataset 0
                           [7; 3; 8; 3; 9] eq_refl) Hin)).
  - exact (proj2 (proj1 (getitem_splits_leaf_at_first_separator toy_dataset 0
                           [7; 3; 8; 3; 9] eq_refl) Hin) Hrd).
Defined.

End DatasetProps.

(** ** The single-context encoder *)

Section ContextEncoderProps.
Import ContextEncoder.
Context {rng : Type}.
Variables input_encoder context_encoder :
  rng → list (list Z) → list Z → encoder_output * rng.

(** C9.  With the parameters of the two sub-encoders, the generator state,
    [src_tokens] and [src_lengths] fixed, [forward] returns the same
    dictionary (both [encoder_out] tensors and the padding mask) for any two
    values of [ctx_tokens] and [ctx_lengths]: the context encoder is run on
    the source tokens, and its share of the output is what it computes from
    them. *)
Theorem forward_ignores_context_inputs
    (g : rng) (src_tokens : list (list Z)) (src_lengths : list Z)
    (ctx_tokens ctx_tokens' : list (list Z)) (ctx_lengths ctx_lengths' : list Z) :
  forward rng input_encoder context_encoder g src_tokens src_lengths ctx_tokens ctx_lengths
  = forward rng input_encoder context_encoder g src_tokens src_lengths ctx_tokens' ctx_lengths'
  ∧ let src_output := input_encoder g src_tokens src_lengths in
    let ctx_output := context_encoder src_output.2 src_tokens src_lengths in
    (encoder_out (forward rng input_encoder context_encoder g
                    src_tokens src_lengths ctx_tokens ctx_lengths).1).1
    = cat2 (encoder_out src_output.1).1 (encoder_out ctx_output.1).1.
Proof.
  split; [reflexivity|]. unfold forward.
  destruct (input_encoder g src_tokens src_lengths) as [so g1]. simpl.
  by destruct (context_encoder g1 src_tokens src_lengths) as [co g2].
Qed.

End ContextEncoderProps.

(** ** [_truncate_seqs] *)

Section TruncateProps.
Import Code2Seq.
Context {A : Type}.

(** C7.  For a configured maximum [M] (not negative) and a flat collection
    whose common padded length exceeds [M], [_truncate_seqs] returns every
    sub-sequence cut to its first [M] tokens, every reported length clamped
    into [0, M], every mask row cut to its first [M] columns, and as many
    rows as it was given in each of the three; a collection whose common
    length is at most [M] is returned unchanged. *)
Theorem truncate_seqs_clamps_to_max
    (M : Z) (seqs : list (list A)) (seq_lens : option (list Z))
    (seq_masks : option (list (list bool))) :
  0 <= M →
  (size1 seqs <= M →
     _truncate_seqs M seqs seq_lens seq_masks = (seqs, seq_lens, seq_masks)) ∧
  (M < size1 seqs →
     ∃ seqs' lens' masks',
       _truncate_seqs M seqs seq_lens seq_masks = (seqs', lens', masks') ∧
       seqs' = map (take (Z.to_nat M)) seqs ∧
       length seqs' = length seqs ∧
       Forall (λ r, Z.of_nat (length r) <= M) seqs' ∧
       lens' = (map (λ n, Z.min (Z.max n 0) M) <$> seq_lens) ∧
       (∀ ls, lens' = Some ls →
              Forall (λ n, 0 <= n <= M) ls ∧
              ∃ ls0, seq_lens = Some ls0 ∧ length ls = length ls0) ∧
       masks' = (map (take (Z.to_nat M)) <$> seq_masks) ∧
       (∀ ms, masks' = Some ms →
              ∃ ms0, seq_masks = Some ms0 ∧ length ms = length ms0)).
Proof.
  intros HM. unfold _truncate_seqs. split.
  - intros Hle. by rewrite (proj2 (Z.leb_le _ _)) by done.
  - intros Hgt. rewrite (proj2 (Z.leb_gt _ _)) by done.
    eexists _, _, _. split; [reflexivity|]. split_and!.
    + apply map_ext. intros r. by apply slice_to_nonneg.
    + by rewrite length_map.
    + apply Forall_forall. intros r Hr.
      apply list_elem_of_In, in_map_iff in Hr as (r0 & <- & _).
      rewrite slice_to_nonneg by done. rewrite length_take. lia.
    + by destruct seq_lens.
    + intros ls Hls. destruct seq_lens as [ls0|]; [|done]. simplify_eq. split.
      * apply Forall_forall. intros n Hn.
        apply list_elem_of_In, in_map_iff in Hn as (n0 & <- & _).
        unfold clamp. lia.
      * exists ls0. by rewrite length_map.
    + destruct seq_masks as [ms0|]; [|done]. simpl. f_equal.
      apply map_ext. intros r. by apply slice_to_nonneg.
    + intros ms Hms. destruct seq_masks as [ms0|]; [|done]. simplify_eq.
      exists ms0. by rewrite length_map.
Qed.

End TruncateProps.

Lemma truncate_seqs_clamps_to_max_witness :
  0 <= 2 ∧
  Code2Seq._truncate_seqs 2 [[5; 6; 7]; [8; 1; 1]] (Some [3; 1])
                 (Some [[true; true; true]; [true; false; false]])
  = ([[5; 6]; [8; 1]], Some [2; 1], Some [[true; true]; [true; false]]).
Proof.
  split; [lia|].
  destruct (truncate_seqs_clamps_to_max (A:=Z) 2 [[5; 6; 7]; [8; 1; 1]] (Some [3; 1])
              (Some [[true; true; true]; [true; false; false]])) as [_ Hcut]; [lia|].
  destruct Hcut as (s' & l' & m' & -> & -> & _ & _ & -> & _ & -> & _); [simpl; lia|].
  reflexivity.
Defined.

(** ** The sort and the unsort around the recurrent pass *)

Section SortProps.
Import Code2Seq.

#[local] Instance by_key_desc_total : Total by_key_desc.
Proof. intros a b. unfold by_key_desc. lia. Qed.
#[local] Instance by_key_asc_total : Total by_key_asc.
Proof. intros a b. unfold by_key_asc. lia. Qed.

Lemma enumerate_elem {A} (l : list A) (x : A) (j : nat) :
  (x, j) ∈ enumerate l ↔ l !! j = Some x.
Proof.
  unfold enumerate. rewrite list_elem_of_lookup. split.
  - intros (i & Hi). apply lookup_zip_Some in Hi as [Hx Hj].
    apply lookup_seq in Hj as [-> _]. done.
  - intros Hx. exists j. apply lookup_zip_Some. split; [done|].
    apply lookup_seq. split; [done|]. by apply lookup_lt_Some in Hx.
Qed.

Lemma enumerate_snd {A} (l : list A) : (enumerate l).*2 = seq 0 (length l).
Proof. unfold enumerate. apply snd_zip. by rewrite length_seq. Qed.

Lemma enumerate_fst {A} (l : list A) : (enumerate l).*1 = l.
Proof. unfold enumerate. apply fst_zip. by rewrite length_seq. Qed.

Lemma strongly_sorted_seq (a n : nat) : StronglySorted le (seq a n).
Proof.
  revert a. induction n as [|n IH]; intros a; simpl; constructor; [apply IH|].
  apply Forall_forall. intros x Hx. apply elem_of_seq in Hx. lia.
Qed.

(** The positions returned by an ascending sort of a permutation of
    [0 .. n-1] are those of the inverse permutation. *)
Lemma sort_ascending_inverse (p : list nat) (v j : nat) :
  p ≡ₚ seq 0 (length p) →
  (sort_ascending p).2 !! v = Some j → p !! j = Some v.
Proof.
  intros Hp. unfold sort_ascending. simpl.
  set (s := merge_sort by_key_asc (enumerate p)).
  assert (Hs : s ≡ₚ enumerate p) by apply merge_sort_Permutation.
  assert (Hkeys : s.*1 = seq 0 (length p)).
  { apply (StronglySorted_unique le).
    - apply (Sorted_StronglySorted _).
      apply (Sorted_fmap fst by_key_asc); [by intros [] []|].
      apply (Sorted_merge_sort _).
    - apply strongly_sorted_seq.
    - rewrite Hs, enumerate_fst. done. }
  intros Hv. rewrite list_lookup_fmap in Hv.
  destruct (s !! v) as [[k j']|] eqn:Esv; simplify_eq/=.
  assert (k = v) as ->.
  { assert (s.*1 !! v = Some k) as Hk by by rewrite list_lookup_fmap, Esv.
    rewrite Hkeys in Hk. apply lookup_seq in Hk. lia. }
  apply enumerate_elem. rewrite <- Hs. by eapply list_elem_of_lookup_2.
Qed.

Lemma sort_ascending_length (p : list nat) :
  length (sort_ascending p).2 = length p.
Proof.
  unfold sort_ascending. simpl. rewrite length_fmap.
  rewrite (merge_sort_Permutation _ _). unfold enumerate.
  rewrite length_zip, length_seq. lia.
Qed.

Lemma sort_descending_perm (l : list Z) :
  (sort_descending l).2 ≡ₚ seq 0 (length l).
Proof.
  unfold sort_descending. simpl.
  rewrite (merge_sort_Permutation _ _). by rewrite enumerate_snd.
Qed.

Lemma sort_descending_lookup (l : list Z) (k j : nat) (n : Z) :
  (sort_descending l).1 !! k = Some n →
  (sort_descending l).2 !! k = Some j →
  l !! j = Some n.
Proof.
  unfold sort_descending. simpl. rewrite !list_lookup_fmap.
  destruct (merge_sort by_key_desc (enumerate l) !! k) as [[n' j']|] eqn:E;
    intros; simplify_eq/=.
  apply enumerate_elem. rewrite <- (merge_sort_Permutation by_key_desc).
  by eapply list_elem_of_lookup_2.
Qed.

Lemma sort_descending_length (l : list Z) :
  length (sort_descending l).1 = length l ∧ length (sort_descending l).2 = length l.
Proof.
  unfold sort_descending. simpl. rewrite !length_fmap.
  rewrite (merge_sort_Permutation _ _). unfold enumerate.
  rewrite length_zip, length_seq. lia.
Qed.

Lemma index_select_Some {A} (t : list A) (order : list nat) :
  Forall (λ j, (j < length t)%nat) order →
  ∃ t', index_select t order = Some t' ∧ Forall2 (λ j x, t !! j = Some x) order t'.
Proof.
  intros Hin. unfold index_select.
  induction Hin as [|j order Hj _ (t' & Ht' & IH)].
  - exists []. split; [done|constructor].
  - destruct (lookup_lt_is_Some_2 t j Hj) as [x Hx].
    exists (x :: t'). split; [|by constructor].
    rewrite mapM_Some. constructor; [done|]. by apply mapM_Some.
Qed.

Lemma perm_seq_bound (p : list nat) (n : nat) :
  p ≡ₚ seq 0 n → Forall (λ j, (j < n)%nat) p.
Proof.
  intros Hp. apply Forall_forall. intros j Hj. rewrite Hp in Hj.
  apply elem_of_seq in Hj. lia.
Qed.

(** Selecting along a permutation and then along the positions of its
    ascending sort gives the tensor back. *)
Lemma unsort_after_sort {A} (t t' : list A) (p : list nat) :
  p ≡ₚ seq 0 (length p) → length t = length p →
  index_select t p = Some t' →
  index_select t' (sort_ascending p).2 = Some t.
Proof.
  intros Hp Hlen Hsel. unfold index_select in *.
  apply mapM_Some in Hsel. apply mapM_Some.
  apply Forall2_same_length_lookup_2.
  - rewrite sort_ascending_length. lia.
  - intros v j x Hj Hx.
    apply sort_ascending_inverse in Hj; [|done].
    destruct (Forall2_lookup_l _ _ _ _ _ Hsel Hj) as (y & Hy & Hty).
    congruence.
Qed.

Lemma sort_descending_sorted (l : list Z) :
  StronglySorted (λ a b, b <= a) (Code2Seq.sort_descending l).1.
Proof.
  assert (Transitive (λ a b : Z, b <= a)) by (intros x y z; lia).
  unfold Code2Seq.sort_descending. cbn [fst].
  apply (Sorted_StronglySorted _).
  apply (Sorted_fmap fst Code2Seq.by_key_desc); [by intros [] []|].
  apply (Sorted_merge_sort _).
Qed.

Lemma sort_descending_values (l : list Z) : (sort_descending l).1 ≡ₚ l.
Proof.
  unfold sort_descending. cbn [fst].
  rewrite (merge_sort_Permutation _ _). by rewrite enumerate_fst.
Qed.

(** [pack_padded_sequence] on what the descending sort returns: it raises
    exactly when some length is not positive. *)
Lemma pack_sorted {A} (seqs : list (list A)) (path_lens : list Z) :
  length seqs = length path_lens →
  pack_padded_sequence seqs (sort_descending path_lens).1
  = if decide (Forall (λ n, 0 < n) path_lens)
    then Some (zip_with (λ s n, take (Z.to_nat n) s) seqs (sort_descending path_lens).1)
    else None.
Proof.
  intros Hlen. unfold pack_padded_sequence.
  destruct (sort_descending_length path_lens) as [Hl1 _].
  pose proof (sort_descending_values path_lens) as Hperm.
  destruct (decide (Forall (λ n, 0 < n) path_lens)) as [Hpos|Hneg].
  - rewrite decide_True; [done|]. split_and!.
    + lia.
    + by rewrite Hperm.
    + apply StronglySorted_Sorted, sort_descending_sorted.
  - rewrite decide_False; [done|]. intros (_ & Hpos & _). apply Hneg.
    by rewrite <- Hperm.
Qed.

Section Encode.
Variable path_bilstm : list vec → vec.

Lemma encode_paths_rowwise (path_seqs : list (list vec)) (path_lens : list Z) :
  length path_seqs = length path_lens →
  Forall (λ n, 0 < n) path_lens →
  encode_paths path_bilstm path_seqs path_lens
  = Some (zip_with (λ s n, path_bilstm (take (Z.to_nat n) s)) path_seqs path_lens).
Proof.
  intros Hlen Hpos.
  pose proof (sort_descending_perm path_lens) as Hperm.
  destruct (sort_descending_length path_lens) as [Hl1 Hl2].
  unfold encode_paths.
  destruct (sort_descending path_lens) as [lens' order] eqn:Esort.
  simpl in Hperm, Hl1, Hl2.
  assert (Hperm' : order ≡ₚ seq 0 (length order)) by by rewrite Hl2.
  destruct (index_select_Some path_seqs order) as (xs & Hxs & Hsel).
  { rewrite Hlen. by apply perm_seq_bound. }
  rewrite Hxs. cbn [mbind option_bind].
  assert (Hxl : length xs = length order) by (symmetry; by eapply Forall2_length).
  assert (Hpack : pack_padded_sequence xs lens'
                  = Some (zip_with (λ s n, take (Z.to_nat n) s) xs lens')).
  { pose proof (pack_sorted xs path_lens) as Hp. rewrite Esort in Hp.
    cbn [fst] in Hp. rewrite Hp by lia. by rewrite decide_True. }
  rewrite Hpack. cbn [mbind option_bind].
  destruct (sort_ascending order) as [keys order'] eqn:Easc.
  assert (order' = (sort_ascending order).2) as -> by by rewrite Easc.
  apply unsort_after_sort; [done|rewrite length_zip_with; lia|].
  unfold index_select. apply mapM_Some.
  apply Forall2_same_length_lookup_2.
  { rewrite length_fmap, length_zip_with. lia. }
  intros k j h Hj Hh.
  rewrite list_lookup_fmap in Hh.
  destruct (zip_with _ xs lens' !! k) as [pk|] eqn:Epk; simplify_eq/=.
  apply lookup_zip_with_Some in Epk as (sq & n & -> & Hsq & Hn).
  destruct (Forall2_lookup_l _ _ _ _ _ Hsel Hj) as (sq' & Hsq' & Hseq).
  simplify_eq.
  apply lookup_zip_with_Some. exists sq, n. split_and!; [done..|].
  apply (sort_descending_lookup path_lens k j n); by rewrite Esort.
Qed.

(** A sub-sequence with a length that is not positive makes
    [pack_padded_sequence], and with it the whole pass, raise. *)
Lemma encode_paths_raises (path_seqs : list (list vec)) (path_lens : list Z) :
  length path_seqs = length path_lens →
  ¬ Forall (λ n, 0 < n) path_lens →
  encode_paths path_bilstm path_seqs path_lens = None.
Proof.
  intros Hlen Hneg.
  pose proof (sort_descending_perm path_lens) as Hperm.
  destruct (sort_descending_length path_lens) as [Hl1 Hl2].
  unfold encode_paths.
  destruct (sort_descending path_lens) as [lens' order] eqn:Esort.
  simpl in Hperm, Hl1, Hl2.
  destruct (index_select_Some path_seqs order) as (xs & Hxs & Hsel).
  { rewrite Hlen. by apply perm_seq_bound. }
  rewrite Hxs. cbn [mbind option_bind].
  assert (Hxl : length xs = length order) by (symmetry; by eapply Forall2_length).
  pose proof (pack_sorted xs path_lens) as Hp. rewrite Esort in Hp.
  cbn [fst] in Hp. rewrite Hp by lia. by rewrite decide_False.
Qed.



End Encode.

End SortProps.


(** ** The delimiter positions and the validation of a batch *)

Section ValidationProps.
Import Code2Seq.

Lemma filter_none {A} (P : A → Prop) `{∀ x, Decision (P x)} (l : list A) :
  Forall (λ x, ¬ P x) l → filter P l = [].
Proof.
  induction 1 as [|x l Hx _ IH]; [done|]. by rewrite filter_cons_False.
Qed.

Lemma filter_all {A} (P : A → Prop) `{∀ x, Decision (P x)} (l : list A) :
  Forall P l → filter P l = l.
Proof.
  induction 1 as [|x l Hx _ IH]; [done|]. rewrite filter_cons_True by done.
  by rewrite IH.
Qed.

Lemma true_cols_length (row : list bool) (j : Z) :
  Z.of_nat (length (true_cols j row)) = count_true row.
Proof.
  unfold count_true. revert j. induction row as [|b row IH]; intros j; [done|].
  simpl. rewrite length_app. specialize (IH (j + 1)).
  destruct b.
  - rewrite filter_cons_True by done. simpl. lia.
  - rewrite filter_cons_False by done. simpl. lia.
Qed.

Lemma count_true_nonneg (row : list bool) : 0 <= count_true row.
Proof. unfold count_true. lia. Qed.

Lemma nonzero_from_rows_ge (mask : list (list bool)) (off r : Z) :
  r ∈ (nonzero_from off mask).*1 → off <= r.
Proof.
  revert off. induction mask as [|row mask IH]; intros off; simpl.
  - by intros ?%elem_of_nil.
  - rewrite fmap_app, elem_of_app, <- list_fmap_compose.
    intros [Hr|Hr].
    + apply list_elem_of_fmap in Hr as (c & -> & _). simpl. lia.
    + apply IH in Hr. lia.
Qed.

(** Row [off + i] occurs among the row indices of [torch.nonzero] as many
    times as row [i] of the mask has true entries. *)
Lemma nonzero_rows_count (mask : list (list bool)) (off : Z) (i : nat) :
  Z.of_nat (length (filter (λ r, r = off + Z.of_nat i) (nonzero_from off mask).*1))
  = default 0 (sum_dim1 mask !! i).
Proof.
  revert off i. induction mask as [|row mask IH]; intros off i; [done|].
  simpl. rewrite fmap_app, filter_app, length_app, <- list_fmap_compose.
  destruct i as [|i].
  - simpl. rewrite Z.add_0_r.
    rewrite (filter_none _ (nonzero_from (off + 1) mask).*1).
    2:{ apply Forall_forall. intros r Hr%nonzero_from_rows_ge. lia. }
    rewrite filter_all.
    2:{ apply Forall_forall. by intros r (c & -> & _)%list_elem_of_fmap. }
    rewrite length_fmap. simpl. rewrite Nat.add_0_r. apply true_cols_length.
  - rewrite filter_none.
    2:{ apply Forall_forall. intros r (c & -> & _)%list_elem_of_fmap. simpl. lia. }
    simpl. rewrite <- (IH (off + 1) i). do 3 f_equal.
    apply list_filter_iff. intros r. lia.
Qed.

Lemma nonzero_from_nil (mask : list (list bool)) (off : Z) :
  Forall (λ c, c = 0) (sum_dim1 mask) → nonzero_from off mask = [].
Proof.
  revert off. induction mask as [|row mask IH]; intros off Hz; [done|].
  simpl in *. apply Forall_cons in Hz as [Hrow Hz].
  rewrite IH by done. rewrite <- (true_cols_length row 0) in Hrow.
  destruct (true_cols 0 row); [done|simpl in Hrow; lia].
Qed.

(** Two masks whose [torch.nonzero] row indices agree have the same number of
    true entries in every row they both have. *)
Lemma equal_rows_equal_counts (m1 m2 : list (list bool)) (i : nat) (a b : Z) :
  (nonzero m1).*1 = (nonzero m2).*1 →
  sum_dim1 m1 !! i = Some a → sum_dim1 m2 !! i = Some b → a = b.
Proof.
  intros Heq Ha Hb.
  pose proof (nonzero_rows_count m1 0 i) as H1.
  pose proof (nonzero_rows_count m2 0 i) as H2.
  unfold nonzero in Heq. rewrite Heq, H2, Hb in H1. rewrite Ha in H1. done.
Qed.

Section Forward.
Variable embed_dim : nat.
Variables leaf_pad leaf_path path_path : Z.
Variables max_leaf_positions max_path_positions : Z.
Variables leaf_embedding path_embedding : Z → vec.
Variable path_bilstm : list vec → vec.
Variable fc_tanh : vec → vec.

(** C2.  When some example has delimiter counts that are not the same in the
    start-leaf, end-leaf and path streams, or when one of the three streams
    holds no delimiter at all, [forward] returns (it does not raise) one row
    per example, every row being the zero vector of width [embed_dim] -- also
    for the examples whose own three counts agree. *)
Theorem forward_falls_back_to_zero_rows
    (start_leaf_tokens : list (list Z)) (start_leaf_lengths : list Z)
    (end_leaf_tokens : list (list Z)) (end_leaf_lengths : list Z)
    (path_tokens : list (list Z)) (path_lengths : list Z) :
  let cs := sum_dim1 (eq_mask start_leaf_tokens leaf_path) in
  let ce := sum_dim1 (eq_mask end_leaf_tokens leaf_path) in
  let cp := sum_dim1 (eq_mask path_tokens path_path) in
  (∃ i a b c, cs !! i = Some a ∧ ce !! i = Some b ∧ cp !! i = Some c ∧
              ¬ (a = b ∧ a = c))
  ∨ Forall (λ c, c = 0) cs ∨ Forall (λ c, c = 0) ce ∨ Forall (λ c, c = 0) cp →
  forward embed_dim leaf_pad leaf_path path_path max_leaf_positions
          max_path_positions leaf_embedding path_embedding path_bilstm fc_tanh
          start_leaf_tokens start_leaf_lengths end_leaf_tokens end_leaf_lengths
          path_tokens path_lengths
  = Some (Rows (replicate (length start_leaf_tokens) (vzeros embed_dim))).
Proof.
  intros cs ce cp Hbad. unfold forward, rejected.
  repeat case_bool_decide; simpl; try done.
  exfalso. destruct Hbad as [(i & a & b & c & Ha & Hb & Hc & Hne)|[Hz|[Hz|Hz]]].
  - apply Hne. split.
    + by apply (equal_rows_equal_counts (eq_mask start_leaf_tokens leaf_path)
                  (eq_mask end_leaf_tokens leaf_path) i).
    + by apply (equal_rows_equal_counts (eq_mask start_leaf_tokens leaf_path)
                  (eq_mask path_tokens path_path) i).
  - by apply (nonzero_from_nil _ 0) in Hz.
  - by apply (nonzero_from_nil _ 0) in Hz.
  - by apply (nonzero_from_nil _ 0) in Hz.
Qed.

End Forward.
End ValidationProps.

(** ** The aggregation loop *)

Section AggregateProps.
Import Code2Seq.

Lemma example_output_unfold (z : list vec) (split_inds : list Z) (i : Z) :
  example_output z split_inds i
  = (start ← Py.index split_inds i;
     stop ← Py.index split_inds (i + 1);
     if negb (start =? stop) then
       Some (Vector (vdiv (sum_dim0 (Z.to_nat (size1 z))
                                    (Py.slice z (start + i) (stop + i + 1)))
                          (stop - start)))
     else squeeze <$> Py.index z (start + i)).
Proof. reflexivity. Qed.

(** The loop appends, turn by turn, what [example_output] describes: the
    pointer [cur_max] always stands one row before the first flat row of the
    next example. *)
Lemma aggregate_loop_spec (z : list vec) (split_inds : list Z) (n i : nat)
    (cur_max : Z) (output_sums : list tensor01) :
  (∀ lo, Py.index split_inds (Z.of_nat i) = Some lo → cur_max = lo + Z.of_nat i - 1) →
  aggregate_loop z split_inds n (Z.of_nat i) cur_max output_sums
  = (rest ← mapM (example_output z split_inds) (Z.of_nat <$> seq i n);
     Some (output_sums ++ rest)).
Proof.
  revert i cur_max output_sums.
  induction n as [|n IH]; intros i cur_max output_sums Hcur; simpl.
  - by rewrite app_nil_r.
  - rewrite (example_output_unfold z split_inds (Z.of_nat i)).
    destruct (Py.index split_inds (Z.of_nat i)) as [lo|] eqn:Elo; [simpl|done].
    destruct (Py.index split_inds (Z.of_nat i + 1)) as [hi|] eqn:Ehi; [simpl|done].
    specialize (Hcur lo eq_refl). subst cur_max.
    replace (Z.of_nat i + 1) with (Z.of_nat (S i)) in * by lia.
    destruct (Z.eqb_spec lo hi) as [->|Hne]; simpl.
    + replace (hi + Z.of_nat i - 1 + 1) with (hi + Z.of_nat i) by lia.
      destruct (Py.index z (hi + Z.of_nat i)) as [row|]; [simpl|done].
      rewrite IH.
      * destruct (mapM _ _); [simpl|done]. by rewrite <- app_assoc.
      * intros lo' Hlo'. simplify_eq. lia.
    + rewrite IH.
      * destruct (mapM _ _); [simpl|done]. by rewrite <- app_assoc.
      * intros lo' Hlo'. simplify_eq. lia.
Qed.

Lemma aggregate_spec (z : list vec) (rest : list Z) (batch : nat) :
  aggregate z (0 :: rest) batch
  = (output_sums ← mapM (example_output z (0 :: rest)) (Z.of_nat <$> seq 0 batch);
     cat_unsqueeze0 output_sums).
Proof.
  unfold aggregate. rewrite (aggregate_loop_spec z (0 :: rest) batch 0).
  - by destruct (mapM _ _).
  - intros lo Hlo. rewrite index_nonneg in Hlo by lia. simpl in Hlo.
    simplify_eq. lia.
Qed.

End AggregateProps.

(** ** The offset index and the flat layout *)

Section LayoutProps.
Import Code2Seq.

Lemma total_app (l k : list Z) : total (l ++ k) = total l + total k.
Proof. induction l as [|x l IH]; simpl; [done|]. rewrite IH. lia. Qed.

Lemma total_nonneg (l : list Z) : Forall (λ c, 0 <= c) l → 0 <= total l.
Proof. induction 1; simpl; lia. Qed.

Lemma sum_dim1_nonneg (mask : list (list bool)) : Forall (λ c, 0 <= c) (sum_dim1 mask).
Proof.
  apply Forall_forall. intros c (row & -> & _)%list_elem_of_fmap.
  unfold count_true. lia.
Qed.

Lemma cumsum_from_length (acc : Z) (l : list Z) : length (cumsum_from acc l) = length l.
Proof. revert acc. induction l as [|x l IH]; intros acc; simpl; [done|]. by rewrite IH. Qed.

Lemma cumsum_from_lookup (acc : Z) (l : list Z) (i : nat) :
  (i < length l)%nat →
  cumsum_from acc l !! i = Some (acc + total (take (S i) l)).
Proof.
  revert acc i. induction l as [|x l IH]; intros acc i Hi; simpl in *; [lia|].
  destruct i as [|i]; simpl.
  - f_equal. lia.
  - rewrite IH by lia. f_equal. simpl. lia.
Qed.

(** Entry [i] of the offset index is the number of delimiters of the rows
    before row [i]. *)
Lemma split_inds_lookup (counts : list Z) (i : nat) :
  (i <= length counts)%nat →
  ([0] ++ cumsum counts) !! i = Some (total (take i counts)).
Proof.
  intros Hi. destruct i as [|i]; [done|]. simpl. unfold cumsum.
  rewrite cumsum_from_lookup by lia. f_equal.
Qed.

Lemma split_inds_length (counts : list Z) :
  length ([0] ++ cumsum counts) = S (length counts).
Proof. simpl. unfold cumsum. by rewrite cumsum_from_length. Qed.

Lemma total_take_S (l : list Z) (i : nat) (c : Z) :
  l !! i = Some c → total (take (S i) l) = total (take i l) + c.
Proof.
  intros Hc. rewrite (take_S_r _ _ _ Hc), total_app. simpl. lia.
Qed.

Lemma concat_block {A} (blocks : list (list A)) (i : nat) (b : list A) :
  blocks !! i = Some b →
  take (length b) (drop (length (concat (take i blocks))) (concat blocks)) = b.
Proof.
  intros Hb. rewrite <- (take_drop_middle _ _ _ Hb) at 2.
  rewrite concat_app, drop_app_length. simpl. by rewrite take_app_length.
Qed.

Lemma nonzero_from_app (m1 m2 : list (list bool)) (off : Z) :
  nonzero_from off (m1 ++ m2)
  = nonzero_from off m1 ++ nonzero_from (off + Z.of_nat (length m1)) m2.
Proof.
  revert off. induction m1 as [|row m1 IH]; intros off; simpl.
  - by rewrite Z.add_0_r.
  - rewrite IH, <- app_assoc. do 3 f_equal. lia.
Qed.

Lemma nonzero_from_length (mask : list (list bool)) (off : Z) :
  Z.of_nat (length (nonzero_from off mask)) = total (sum_dim1 mask).
Proof.
  revert off. induction mask as [|row mask IH]; intros off; simpl; [done|].
  rewrite length_app, length_fmap, Nat2Z.inj_add, IH, true_cols_length. done.
Qed.

(** The slice of [torch.nonzero] that the offset index assigns to row [i]
    holds the delimiter positions of row [i], and only those. *)
Lemma nonzero_slice (mask : list (list bool)) (i : nat) (row : list bool) :
  mask !! i = Some row →
  Py.slice (nonzero mask) (total (take i (sum_dim1 mask)))
           (total (take (S i) (sum_dim1 mask)))
  = pair (Z.of_nat i) <$> true_cols 0 row.
Proof.
  intros Hrow.
  assert (Hc : sum_dim1 mask !! i = Some (count_true row))
    by (unfold sum_dim1; by rewrite list_lookup_fmap, Hrow).
  rewrite (total_take_S _ _ _ Hc).
  replace (take i (sum_dim1 mask)) with (sum_dim1 (take i mask))
    by (unfold sum_dim1; by rewrite fmap_take).
  rewrite <- (nonzero_from_length (take i mask) 0).
  rewrite <- (true_cols_length row 0).
  rewrite slice_nonneg by lia.
  replace (Z.to_nat (_ + _) - Z.to_nat _)%nat with (length (true_cols 0 row)) by lia.
  rewrite Nat2Z.id. unfold nonzero.
  rewrite <- (take_drop_middle _ _ _ Hrow) at 2.
  rewrite nonzero_from_app, drop_app_length. simpl.
  rewrite length_take_le by (apply lookup_lt_Some in Hrow; lia).
  rewrite take_app_length'; [done|]. by rewrite length_fmap.
Qed.

Lemma slice_to_minus_one {A} (l : list A) :
  Py.slice_to l (-1) = take (length l - 1) l.
Proof.
  unfold Py.slice_to, Py.bound. replace (-1 <? 0) with true by done.
  f_equal. lia.
Qed.

Lemma split_row_length (ml : Z) (row : list Z) (len : Z) (splits : list Z) :
  length (split_row ml row len splits).1 = S (length splits) ∧
  length (split_row ml row len splits).2 = S (length splits).
Proof.
  unfold split_row. simpl.
  rewrite !length_zip_with, slice_to_minus_one, slice_from_nonneg by lia.
  rewrite length_take, length_drop. simpl.
  rewrite !length_fmap, !length_app. simpl. lia.
Qed.

(** A row without delimiter is cut into one sub-sequence: its tokens after
    the left padding. *)
Lemma split_row_nil (ml : Z) (row : list Z) (len : Z) :
  split_row ml row len [] = ([Py.slice row (ml - len) ml], [len]).
Proof.
  unfold split_row. simpl. repeat f_equal; lia.
Qed.

Lemma split_loop_spec (ml : Z) (lengths : list Z) (splits : list (Z * Z))
    (split_inds : list Z) (delim : Z) (rows : list (list Z)) (i0 : nat)
    (seqs : list (list Z)) (seq_lengths : list Z) :
  (∀ j row, rows !! j = Some row →
     ∃ lo hi, split_inds !! (i0 + j)%nat = Some lo ∧
              split_inds !! S (i0 + j) = Some hi ∧
              snd <$> Py.slice splits lo hi = delimiter_cols delim row) →
  (i0 + length rows <= length lengths)%nat →
  let cut := zip_with (λ row len, split_row ml row len (delimiter_cols delim row))
                      rows (drop i0 lengths) in
  split_loop ml lengths splits split_inds (Z.of_nat i0) rows seqs seq_lengths
  = Some (seqs ++ concat (fst <$> cut), seq_lengths ++ concat (snd <$> cut)).
Proof.
  revert i0 seqs seq_lengths.
  induction rows as [|row rows IH]; intros i0 seqs seq_lengths Hrows Hlen cut.
  - subst cut. simpl. by rewrite !app_nil_r.
  - destruct (Hrows 0%nat row eq_refl) as (lo & hi & Hlo & Hhi & Hcols).
    rewrite Nat.add_0_r in Hlo, Hhi. simpl in Hlen.
    destruct (lookup_lt_is_Some_2 lengths i0) as [len Hlen0]; [lia|].
    assert (Ecut : cut = split_row ml row len (delimiter_cols delim row)
                         :: zip_with (λ row len, split_row ml row len (delimiter_cols delim row))
                                     rows (drop (S i0) lengths)).
    { subst cut. by rewrite (drop_S _ _ _ Hlen0). }
    rewrite Ecut. clear Ecut cut.
    simpl. rewrite !index_nonneg by lia.
    replace (Z.to_nat (Z.of_nat i0 + 1)) with (S i0) by lia.
    rewrite Nat2Z.id, Hlo, Hhi, Hlen0. simpl. rewrite Hcols.
    destruct (split_row ml row len (delimiter_cols delim row)) as [row_seqs split_lengths].
    replace (Z.of_nat i0 + 1) with (Z.of_nat (S i0)) by lia.
    rewrite IH.
    + simpl. by rewrite <- !app_assoc.
    + intros j r Hr. specialize (Hrows (S j) r Hr).
      by replace (S i0 + j)%nat with (i0 + S j)%nat by lia.
    + lia.
Qed.

Lemma pad_sequence_spec (seqs : list (list Z)) (pad : Z) :
  seqs ≠ [] →
  pad_sequence seqs pad = Some (pad_to (max_list (length <$> seqs)) pad <$> seqs).
Proof. by destruct seqs. Qed.

Lemma eq_mask_lookup (tokens : list (list Z)) (delim : Z) (i : nat) (row : list Z) :
  tokens !! i = Some row →
  eq_mask tokens delim !! i = Some ((λ tok, tok =? delim) <$> row).
Proof. intros Hrow. unfold eq_mask. by rewrite list_lookup_fmap, Hrow. Qed.

Lemma sum_dim1_eq_mask_lookup (tokens : list (list Z)) (delim : Z) (i : nat) (row : list Z) :
  tokens !! i = Some row →
  sum_dim1 (eq_mask tokens delim) !! i
  = Some (Z.of_nat (length (delimiter_cols delim row))).
Proof.
  intros Hrow. unfold sum_dim1.
  rewrite list_lookup_fmap, (eq_mask_lookup _ _ _ _ Hrow). simpl.
  unfold delimiter_cols. by rewrite true_cols_length.
Qed.

Lemma sum_dim1_length (mask : list (list bool)) : length (sum_dim1 mask) = length mask.
Proof. unfold sum_dim1. by rewrite length_fmap. Qed.

Lemma eq_mask_length (tokens : list (list Z)) (delim : Z) :
  length (eq_mask tokens delim) = length tokens.
Proof. unfold eq_mask. by rewrite length_fmap. Qed.

Section Stream.
(** One stream, split with an offset index built from counts that agree with
    the delimiter counts of its own rows. *)
Variables (pad delim : Z) (tokens : list (list Z)) (lengths : list Z).
Hypothesis Hrows : tokens ≠ [].
Hypothesis Hlengths : length lengths = length tokens.

Local Abbreviation counts := (sum_dim1 (eq_mask tokens delim)).
Local Abbreviation split_inds := ([0] ++ cumsum counts).

Lemma counts_length : length counts = length tokens.
Proof. by rewrite sum_dim1_length, eq_mask_length. Qed.

Lemma row_splits_lookup (i : nat) (row : list Z) (len : Z) :
  tokens !! i = Some row → lengths !! i = Some len →
  row_splits delim tokens lengths !! i
  = Some (split_row (size1 tokens) row len (delimiter_cols delim row)).
Proof.
  intros Hrow Hlen. unfold row_splits. apply lookup_zip_with_Some. eauto.
Qed.

Lemma row_splits_length : length (row_splits delim tokens lengths) = length tokens.
Proof. unfold row_splits. rewrite length_zip_with. lia. Qed.

(** The flat rows of the examples before example [i] are as many as their
    delimiters, plus one trailing sub-sequence each. *)
Lemma flat_offset (i : nat) :
  (i <= length tokens)%nat →
  Z.of_nat (length (concat (take i (fst <$> row_splits delim tokens lengths))))
  = total (take i counts) + Z.of_nat i
  ∧ Z.of_nat (length (concat (take i (snd <$> row_splits delim tokens lengths))))
  = total (take i counts) + Z.of_nat i.
Proof.
  induction i as [|i IH]; intros Hi; [done|].
  destruct IH as [IH1 IH2]; [lia|].
  destruct (lookup_lt_is_Some_2 tokens i) as [row Hrow]; [lia|].
  destruct (lookup_lt_is_Some_2 lengths i) as [len Hlen]; [lia|].
  pose proof (row_splits_lookup i row len Hrow Hlen) as Hcut.
  pose proof (sum_dim1_eq_mask_lookup tokens delim i row Hrow) as Hc.
  destruct (split_row_length (size1 tokens) row len (delimiter_cols delim row)) as [Hl1 Hl2].
  rewrite (total_take_S _ _ _ Hc).
  rewrite (take_S_r (fst <$> _) i (split_row (size1 tokens) row len (delimiter_cols delim row)).1)
    by by rewrite list_lookup_fmap, Hcut.
  rewrite (take_S_r (snd <$> _) i (split_row (size1 tokens) row len (delimiter_cols delim row)).2)
    by by rewrite list_lookup_fmap, Hcut.
  rewrite !concat_app, !length_app, !concat_cons, !concat_nil, !app_nil_r.
  split; lia.
Qed.

Lemma flat_segments_length :
  Z.of_nat (length (flat_segments delim tokens lengths))
  = total counts + Z.of_nat (length tokens).
Proof.
  destruct (flat_offset (length tokens)) as [H _]; [lia|].
  rewrite take_ge in H by (rewrite length_fmap, row_splits_length; lia).
  rewrite take_ge in H by (rewrite counts_length; lia). done.
Qed.

Lemma flat_segments_not_nil : flat_segments delim tokens lengths ≠ [].
Proof.
  intros Hnil. pose proof flat_segments_length as Hl. rewrite Hnil in Hl.
  pose proof (total_nonneg counts (sum_dim1_nonneg _)).
  assert (0 < length tokens)%nat by (destruct tokens; [done|simpl; lia]).
  simpl in Hl. lia.
Qed.

(** [_split_seq] returns the sub-sequences of all rows in row order, filled
    up to the longest. *)
Lemma split_seq_spec :
  _split_seq pad tokens lengths (nonzero (eq_mask tokens delim)) split_inds
  = Some (pad_to (flat_width delim tokens lengths) pad <$> flat_segments delim tokens lengths,
          flat_lengths delim tokens lengths,
          ne_mask (pad_to (flat_width delim tokens lengths) pad
                     <$> flat_segments delim tokens lengths) pad).
Proof.
  unfold _split_seq.
  rewrite (split_loop_spec (size1 tokens) lengths _ split_inds delim tokens 0 [] []).
  - rewrite drop_0. simpl.
    fold (row_splits delim tokens lengths).
    fold (flat_segments delim tokens lengths) (flat_lengths delim tokens lengths).
    rewrite pad_sequence_spec by apply flat_segments_not_nil. done.
  - intros j row Hrow. simpl.
    pose proof (lookup_lt_Some _ _ _ Hrow) as Hj.
    exists (total (take j counts)), (total (take (S j) counts)). split_and!.
    + apply split_inds_lookup. rewrite counts_length. lia.
    + apply (split_inds_lookup counts (S j)). rewrite counts_length. lia.
    + rewrite (nonzero_slice _ j _ (eq_mask_lookup _ _ _ _ Hrow)).
      rewrite <- list_fmap_compose. unfold delimiter_cols.
      by rewrite list_fmap_id.
  - simpl. lia.
Qed.

(** The flat rows of example [i]: they start [i] rows after its entry of the
    offset index, and there is one more of them than it has delimiters. *)
Lemma flat_block (i : nat) (row : list Z) (len : Z) :
  tokens !! i = Some row → lengths !! i = Some len →
  Py.slice (flat_segments delim tokens lengths)
           (total (take i counts) + Z.of_nat i)
           (total (take (S i) counts) + Z.of_nat i + 1)
  = (split_row (size1 tokens) row len (delimiter_cols delim row)).1
  ∧ Py.slice (flat_lengths delim tokens lengths)
             (total (take i counts) + Z.of_nat i)
             (total (take (S i) counts) + Z.of_nat i + 1)
  = (split_row (size1 tokens) row len (delimiter_cols delim row)).2.
Proof.
  intros Hrow Hlen.
  pose proof (lookup_lt_Some _ _ _ Hrow) as Hi.
  pose proof (row_splits_lookup i row len Hrow Hlen) as Hcut.
  pose proof (sum_dim1_eq_mask_lookup tokens delim i row Hrow) as Hc.
  destruct (split_row_length (size1 tokens) row len (delimiter_cols delim row)) as [Hl1 Hl2].
  destruct (flat_offset i) as [Ho1 Ho2]; [lia|].
  rewrite (total_take_S _ _ _ Hc).
  pose proof (total_nonneg (take i counts)
                (Forall_take _ _ _ (sum_dim1_nonneg _))) as Hnn.
  rewrite !slice_nonneg by lia. split.
  - rewrite <- Ho1, Nat2Z.id.
    replace (Z.to_nat _ - _)%nat
      with (length (split_row (size1 tokens) row len (delimiter_cols delim row)).1) by lia.
    unfold flat_segments. apply concat_block. by rewrite list_lookup_fmap, Hcut.
  - rewrite <- Ho2, Nat2Z.id.
    replace (Z.to_nat _ - _)%nat
      with (length (split_row (size1 tokens) row len (delimiter_cols delim row)).2) by lia.
    unfold flat_lengths. apply concat_block. by rewrite list_lookup_fmap, Hcut.
Qed.

End Stream.

Lemma slice_fmap {A B} (f : A → B) (l : list A) (a b : Z) :
  Py.slice (f <$> l) a b = f <$> Py.slice l a b.
Proof. unfold Py.slice. by rewrite length_fmap, fmap_take, fmap_drop. Qed.

Lemma slice_shorter {A} (l : list A) (a b : Z) :
  0 <= a → a <= b →
  Py.slice l a b = take (Z.to_nat (b - a)) (Py.slice l a (b + 1)).
Proof.
  intros Ha Hb. rewrite !slice_nonneg by lia. rewrite take_take. f_equal. lia.
Qed.

Lemma slice_final {A} (l : list A) (a b : Z) :
  0 <= a → a <= b →
  l !! Z.to_nat b = Py.slice l a (b + 1) !! Z.to_nat (b - a).
Proof.
  intros Ha Hb. rewrite slice_nonneg by lia.
  rewrite lookup_take_lt by lia. rewrite lookup_drop. f_equal. lia.
Qed.

(** Where the sub-sequences of example [i] lie in the tensor [_split_seq]
    returns for a stream. *)
Lemma stream_layout (pad delim : Z) (tokens : list (list Z)) (lengths : list Z)
    (i : nat) (row : list Z) (len lo hi : Z) :
  length lengths = length tokens →
  tokens !! i = Some row → lengths !! i = Some len →
  ([0] ++ cumsum (sum_dim1 (eq_mask tokens delim))) !! i = Some lo →
  ([0] ++ cumsum (sum_dim1 (eq_mask tokens delim))) !! S i = Some hi →
  let padded := pad_to (flat_width delim tokens lengths) pad
                  <$> flat_segments delim tokens lengths in
  let segs := pad_to (flat_width delim tokens lengths) pad
                <$> (split_row (size1 tokens) row len (delimiter_cols delim row)).1 in
  0 <= lo ∧
  hi - lo = Z.of_nat (length (delimiter_cols delim row)) ∧
  Z.of_nat (length segs) = hi - lo + 1 ∧
  Py.slice padded (lo + Z.of_nat i) (hi + Z.of_nat i + 1) = segs ∧
  Py.slice padded (lo + Z.of_nat i) (hi + Z.of_nat i) = take (Z.to_nat (hi - lo)) segs ∧
  padded !! Z.to_nat (hi + Z.of_nat i) = segs !! Z.to_nat (hi - lo) ∧
  Py.slice (flat_lengths delim tokens lengths) (lo + Z.of_nat i) (hi + Z.of_nat i + 1)
  = (split_row (size1 tokens) row len (delimiter_cols delim row)).2.
Proof.
  intros Hlengths Hrow Hlen Hlo Hhi padded segs.
  pose proof (lookup_lt_Some _ _ _ Hrow) as Hi.
  rewrite split_inds_lookup in Hlo by (rewrite sum_dim1_length, eq_mask_length; lia).
  rewrite split_inds_lookup in Hhi by (rewrite sum_dim1_length, eq_mask_length; lia).
  simplify_eq.
  pose proof (sum_dim1_eq_mask_lookup tokens delim i row Hrow) as Hc.
  pose proof (total_nonneg (take i (sum_dim1 (eq_mask tokens delim)))
                (Forall_take _ _ _ (sum_dim1_nonneg _))) as Hnn.
  destruct (flat_block delim tokens lengths Hlengths i row len Hrow Hlen) as [Hblock Hlens].
  destruct (split_row_length (size1 tokens) row len (delimiter_cols delim row)) as [Hl1 _].
  assert (Hwhole : Py.slice padded
                     (total (take i (sum_dim1 (eq_mask tokens delim))) + Z.of_nat i)
                     (total (take (S i) (sum_dim1 (eq_mask tokens delim))) + Z.of_nat i + 1)
                   = segs).
  { subst padded segs. by rewrite slice_fmap, Hblock. }
  rewrite (total_take_S _ _ _ Hc) in *.
  split_and!; [done|lia|subst segs; rewrite length_fmap; lia|done| | |done].
  - rewrite slice_shorter by lia. rewrite Hwhole. f_equal. lia.
  - rewrite (slice_final _ (total (take i (sum_dim1 (eq_mask tokens delim))) + Z.of_nat i))
      by lia.
    rewrite Hwhole. f_equal. lia.
Qed.

(** A batch that [forward] does not reject has the same delimiter counts,
    row by row, in two streams with the same number of rows. *)
Lemma equal_rows_equal_sums (m1 m2 : list (list bool)) :
  length m1 = length m2 → (nonzero m1).*1 = (nonzero m2).*1 →
  sum_dim1 m1 = sum_dim1 m2.
Proof.
  intros Hlen Heq. apply list_eq. intros i.
  destruct (sum_dim1 m1 !! i) as [a|] eqn:Ea, (sum_dim1 m2 !! i) as [b|] eqn:Eb;
    [|apply lookup_lt_Some in Ea|apply lookup_lt_Some in Eb|done].
  - f_equal. by eapply (equal_rows_equal_counts m1 m2 i).
  - apply lookup_ge_None in Eb. rewrite sum_dim1_length in *. lia.
  - apply lookup_ge_None in Ea. rewrite sum_dim1_length in *. lia.
Qed.

Lemma rejected_false (s e p : list (Z * Z)) :
  rejected s e p = false →
  s ≠ [] ∧ e ≠ [] ∧ p ≠ [] ∧ s.*1 = e.*1 ∧ s.*1 = p.*1.
Proof.
  unfold rejected. intros H.
  repeat (apply orb_false_iff in H as [H ?]).
  repeat match goal with
         | H : negb _ = false |- _ => apply negb_false_iff in H
         | H : bool_decide _ = false |- _ => apply bool_decide_eq_false in H
         | H : bool_decide _ = true |- _ => apply bool_decide_eq_true in H
         end.
  done.
Qed.

Lemma nonzero_eq_mask_nil (delim : Z) : nonzero (eq_mask [] delim) = [].
Proof. reflexivity. Qed.

End LayoutProps.

(** C5, the claim as stated, fails.  In the batch of two examples
    [10 D 11] and [12 D 13] (D = 4 the delimiter) the offset index is
    [0; 1; 2], so the claimed range of example 1 is [1, 2).  The tensor
    [_split_seq] returns has the rows [10], [11], [12], [13]; its row 1 is
    [11], the trailing sub-sequence of example 0, and is none of the
    sub-sequences [12], [13] of example 1. *)
Lemma offset_range_holds_another_example :
  let tokens := [[10; 4; 11]; [12; 4; 13]] in
  let split_inds := [0] ++ Code2Seq.cumsum (Code2Seq.sum_dim1 (Code2Seq.eq_mask tokens 4)) in
  split_inds = [0; 1; 2] ∧
  Code2Seq._split_seq 1 tokens [3; 3] (Code2Seq.nonzero (Code2Seq.eq_mask tokens 4)) split_inds
  = Some ([[10]; [11]; [12]; [13]], [1; 1; 1; 1], [[true]; [true]; [true]; [true]]) ∧
  Py.slice [[10]; [11]; [12]; [13]] 1 2 = [[11]] ∧
  (Code2Seq.split_row 3 [12; 4; 13] 3 (Code2Seq.delimiter_cols 4 [12; 4; 13])).1
  = [[12]; [13]] ∧
  [11] ∉ [[12]; [13]].
Proof.
  split_and!; [reflexivity..|].
  intros Hin. repeat (apply elem_of_cons in Hin as [Hin|Hin]; [discriminate|]).
  by apply elem_of_nil in Hin.
Qed.

(** ** [forward] on a batch that passes the validation *)

Section ForwardProps.
Import Code2Seq.

Lemma size1_nonneg {A} (t : list (list A)) : 0 <= size1 t.
Proof. destruct t; simpl; lia. Qed.

Lemma truncate_seqs_rows {A} (M : Z) (seqs : list (list A))
    (seq_lens : option (list Z)) (seq_masks : option (list (list bool))) :
  _truncate_seqs M seqs seq_lens seq_masks
  = (fmap (M:=list) (truncated M (Z.to_nat (size1 seqs))) seqs,
     fmap (M:=option)
          (λ lens, if size1 seqs <=? M then lens else fmap (M:=list) (clamp 0 M) lens)
          seq_lens,
     fmap (M:=option) (fmap (M:=list) (truncated M (Z.to_nat (size1 seqs)))) seq_masks).
Proof.
  unfold _truncate_seqs, truncated.
  rewrite Z2Nat.id by apply size1_nonneg.
  destruct (size1 seqs <=? M).
  - rewrite list_fmap_id. destruct seq_lens, seq_masks; simpl; by rewrite ?list_fmap_id.
  - by destruct seq_lens, seq_masks.
Qed.

Lemma pad_to_length (width : nat) (pad : Z) (s : list Z) :
  (length s <= width)%nat → length (pad_to width pad s) = width.
Proof. intros Hs. unfold pad_to. rewrite length_app, length_replicate. lia. Qed.

Lemma size1_padded (flat : list (list Z)) (pad : Z) :
  flat ≠ [] →
  size1 (pad_to (max_list (length <$> flat)) pad <$> flat)
  = Z.of_nat (max_list (length <$> flat)).
Proof.
  destruct flat as [|s flat]; [done|]. intros _. simpl.
  rewrite pad_to_length; [done|]. lia.
Qed.

Lemma flat_lengths_length (delim : Z) (tokens : list (list Z)) (lengths : list Z) :
  length lengths = length tokens →
  length (flat_lengths delim tokens lengths) = length (flat_segments delim tokens lengths).
Proof.
  intros Hl. destruct (flat_offset delim tokens lengths Hl (length tokens)) as [H1 H2]; [lia|].
  rewrite !take_ge in H1
    by (rewrite ?length_fmap, ?row_splits_length, ?sum_dim1_length, ?eq_mask_length; lia).
  rewrite !take_ge in H2
    by (rewrite ?length_fmap, ?row_splits_length, ?sum_dim1_length, ?eq_mask_length; lia).
  unfold flat_lengths, flat_segments. lia.
Qed.

Lemma size1_flat (pad delim : Z) (tokens : list (list Z)) (lengths : list Z) :
  tokens ≠ [] → length lengths = length tokens →
  size1 (pad_to (flat_width delim tokens lengths) pad
           <$> flat_segments delim tokens lengths)
  = Z.of_nat (flat_width delim tokens lengths).
Proof.
  intros Hne Hl. unfold flat_width. apply size1_padded.
  by apply flat_segments_not_nil.
Qed.

Lemma ne_mask_fmap (t : list (list Z)) (pad : Z) :
  ne_mask t pad = fmap (M:=list) (fmap (M:=list) (λ tok, negb (tok =? pad))) t.
Proof. reflexivity. Qed.

Lemma squeeze_vector (v : vec) : length v ≠ 1%nat → squeeze v = Vector v.
Proof. destruct v as [|q [|q' v]]; simpl; done. Qed.

Lemma all_vectors_fmap (vs : list vec) : all_vectors (Vector <$> vs) = Some vs.
Proof.
  induction vs as [|v vs IH]; [done|].
  rewrite fmap_cons. cbn [all_vectors]. by rewrite IH.
Qed.

Lemma cat_unsqueeze0_vectors (vs : list vec) :
  vs ≠ [] → cat_unsqueeze0 (Vector <$> vs) = Some (Rows vs).
Proof.
  destruct vs as [|v vs]; [done|]. intros _.
  rewrite fmap_cons. cbn [cat_unsqueeze0]. rewrite <- fmap_cons.
  by rewrite all_vectors_fmap.
Qed.

Lemma mapM_vectors {A} (f : A → option tensor01) (idxs : list A) :
  (∀ i, i ∈ idxs → ∃ v, f i = Some (Vector v)) →
  ∃ vs, mapM f idxs = Some (Vector <$> vs) ∧
        Forall2 (λ i v, f i = Some (Vector v)) idxs vs.
Proof.
  induction idxs as [|i idxs IH]; intros Hall.
  - exists []. split; [done|constructor].
  - destruct (Hall i) as [v Hv]; [by left|].
    destruct IH as (vs & Hvs & HF); [intros k Hk; apply Hall; by right|].
    exists (v :: vs). split; [|by constructor].
    rewrite fmap_cons. cbn [mapM]. rewrite Hv. cbn [mbind option_bind].
    rewrite Hvs. done.
Qed.

Lemma total_take_le (l : list Z) (i : nat) :
  Forall (λ c, 0 <= c) l → 0 <= total (take i l) <= total l.
Proof.
  intros Hl. rewrite <- (take_drop i l) at 3. rewrite total_app.
  pose proof (total_nonneg (take i l) (Forall_take _ _ _ Hl)).
  pose proof (total_nonneg (drop i l) (Forall_drop _ _ _ Hl)). lia.
Qed.

(** An example without delimiter owns one flat row: its tokens after the left
    padding, with the length of the example as reported length. *)
Lemma trailing_only (delim : Z) (tokens : list (list Z)) (lengths : list Z)
    (i : nat) (row : list Z) (len lo : Z) :
  length lengths = length tokens →
  tokens !! i = Some row → lengths !! i = Some len →
  ([0] ++ cumsum (sum_dim1 (eq_mask tokens delim))) !! i = Some lo →
  ([0] ++ cumsum (sum_dim1 (eq_mask tokens delim))) !! S i = Some lo →
  flat_segments delim tokens lengths !! Z.to_nat (lo + Z.of_nat i)
  = Some (Py.slice row (size1 tokens - len) (size1 tokens)) ∧
  flat_lengths delim tokens lengths !! Z.to_nat (lo + Z.of_nat i) = Some len.
Proof.
  intros Hlengths Hrow Hlen Hlo Hhi.
  pose proof (lookup_lt_Some _ _ _ Hrow) as Hi.
  rewrite split_inds_lookup in Hlo by (rewrite sum_dim1_length, eq_mask_length; lia).
  rewrite split_inds_lookup in Hhi by (rewrite sum_dim1_length, eq_mask_length; lia).
  pose proof (sum_dim1_eq_mask_lookup tokens delim i row Hrow) as Hc.
  pose proof (total_nonneg (take i (sum_dim1 (eq_mask tokens delim)))
                (Forall_take _ _ _ (sum_dim1_nonneg _))) as Hnn.
  destruct (flat_block delim tokens lengths Hlengths i row len Hrow Hlen) as [Hb1 Hb2].
  injection Hlo as Hlo. injection Hhi as Hhi.
  rewrite (total_take_S _ _ _ Hc) in Hhi, Hb1, Hb2.
  assert (Hcols : delimiter_cols delim row = []).
  { destruct (delimiter_cols delim row); [done|]. simpl in Hhi. lia. }
  subst lo.
  rewrite Hcols, split_row_nil in Hb1, Hb2. simpl in Hb1, Hb2.
  rewrite Z.add_0_r in Hb1, Hb2.
  split.
  - rewrite (slice_final _ (total (take i (sum_dim1 (eq_mask tokens delim))) + Z.of_nat i))
      by lia.
    rewrite Hb1. by rewrite Z.sub_diag.
  - rewrite (slice_final _ (total (take i (sum_dim1 (eq_mask tokens delim))) + Z.of_nat i))
      by lia.
    rewrite Hb2. by rewrite Z.sub_diag.
Qed.

Section Batch.
Variable embed_dim : nat.
Variables leaf_pad leaf_path path_path : Z.
Variables max_leaf_positions max_path_positions : Z.
Variables leaf_embedding path_embedding : Z → vec.
Variable path_bilstm : list vec → vec.
Variable fc_tanh : vec → vec.
Variables (start_leaf_tokens : list (list Z)) (start_leaf_lengths : list Z).
Variables (end_leaf_tokens : list (list Z)) (end_leaf_lengths : list Z).
Variables (path_tokens : list (list Z)) (path_lengths : list Z).

Hypothesis Hbe : length end_leaf_tokens = length start_leaf_tokens.
Hypothesis Hbp : length path_tokens = length start_leaf_tokens.
Hypothesis Hls : length start_leaf_lengths = length start_leaf_tokens.
Hypothesis Hle : length end_leaf_lengths = length start_leaf_tokens.
Hypothesis Hlp : length path_lengths = length start_leaf_tokens.
Hypothesis Hok :
  rejected (nonzero (eq_mask start_leaf_tokens leaf_path))
           (nonzero (eq_mask end_leaf_tokens leaf_path))
           (nonzero (eq_mask path_tokens path_path)) = false.

Local Abbreviation counts := (sum_dim1 (eq_mask start_leaf_tokens leaf_path)).
Local Abbreviation split_inds := ([0] ++ cumsum counts).

Lemma accepted_streams :
  start_leaf_tokens ≠ [] ∧ end_leaf_tokens ≠ [] ∧ path_tokens ≠ [] ∧
  sum_dim1 (eq_mask end_leaf_tokens leaf_path) = counts ∧
  sum_dim1 (eq_mask path_tokens path_path) = counts.
Proof.
  apply rejected_false in Hok as (Hs & He & Hp & Hse & Hsp).
  assert (Hne : start_leaf_tokens ≠ []) by (by intros ->).
  split_and!; [done| | | |].
  - intros ->. by destruct start_leaf_tokens.
  - intros ->. by destruct start_leaf_tokens.
  - symmetry. apply equal_rows_equal_sums; [|done]. by rewrite !eq_mask_length.
  - symmetry. apply equal_rows_equal_sums; [|done]. by rewrite !eq_mask_length.
Qed.

(** Past the validation, and with positive lengths for the recurrent pass,
    [forward] aggregates the fused vectors of the flat instances, which it
    holds in flat order. *)
Lemma forward_accepted :
  Forall (λ n, 0 < n)
         (packed_lengths path_path max_path_positions path_tokens path_lengths) →
  forward embed_dim leaf_pad leaf_path path_path max_leaf_positions
          max_path_positions leaf_embedding path_embedding path_bilstm fc_tanh
          start_leaf_tokens start_leaf_lengths end_leaf_tokens end_leaf_lengths
          path_tokens path_lengths
  = aggregate
      (flat_fused embed_dim leaf_pad leaf_path path_path max_leaf_positions
                  max_path_positions leaf_embedding path_embedding path_bilstm fc_tanh
                  start_leaf_tokens start_leaf_lengths end_leaf_tokens end_leaf_lengths
                  path_tokens path_lengths)
      split_inds (length start_leaf_tokens).
Proof.
  intros Hpos. unfold packed_lengths in Hpos.
  destruct accepted_streams as (Hs & He & Hp & Hce & Hcp).
  pose proof (split_seq_spec leaf_pad leaf_path start_leaf_tokens start_leaf_lengths
                Hs Hls) as Hss.
  pose proof (split_seq_spec leaf_pad leaf_path end_leaf_tokens end_leaf_lengths
                He (eq_trans Hle (eq_sym Hbe))) as Hse.
  pose proof (split_seq_spec leaf_pad path_path path_tokens path_lengths
                Hp (eq_trans Hlp (eq_sym Hbp))) as Hsp.
  rewrite Hce in Hse. rewrite Hcp in Hsp.
  unfold forward. rewrite Hok, Hss, Hse, Hsp.
  cbn [mbind option_bind].
  rewrite !truncate_seqs_rows.
  cbn [mbind option_bind fmap option_fmap option_map].
  rewrite !size1_flat, !Nat2Z.id by congruence.
  pose proof (flat_segments_length leaf_path start_leaf_tokens start_leaf_lengths Hls) as Hns.
  pose proof (flat_segments_length leaf_path end_leaf_tokens end_leaf_lengths
                (eq_trans Hle (eq_sym Hbe))) as Hne.
  pose proof (flat_segments_length path_path path_tokens path_lengths
                (eq_trans Hlp (eq_sym Hbp))) as Hnp.
  pose proof (flat_lengths_length path_path path_tokens path_lengths
                (eq_trans Hlp (eq_sym Hbp))) as Hnl.
  rewrite Hce in Hne. rewrite Hcp in Hnp. rewrite Hbe in Hne. rewrite Hbp in Hnp.
  unfold flat_fused.
  set (fs := flat_segments leaf_path start_leaf_tokens start_leaf_lengths) in *.
  set (fe := flat_segments leaf_path end_leaf_tokens end_leaf_lengths) in *.
  set (fp := flat_segments path_path path_tokens path_lengths) in *.
  set (fl := flat_lengths path_path path_tokens path_lengths) in *.
  set (ws := flat_width leaf_path start_leaf_tokens start_leaf_lengths).
  set (we := flat_width leaf_path end_leaf_tokens end_leaf_lengths).
  set (wp := flat_width path_path path_tokens path_lengths).
  change (map (map path_embedding) ?t)
    with (fmap (M:=list) (fmap (M:=list) path_embedding) t).
  rewrite encode_paths_rowwise.
  2:{ rewrite !length_fmap. destruct (_ <=? _); rewrite ?length_fmap; lia. }
  2:{ exact Hpos. }
  cbn [mbind option_bind]. unfold fuse, leaf_sums.
  rewrite decide_True.
  2:{ rewrite !length_zip_with, !length_fmap, ?ne_mask_fmap, ?length_fmap.
      destruct (_ <=? _); rewrite ?length_fmap; lia. }
  cbn [mbind option_bind]. f_equal.
  apply list_eq. intros j.
  rewrite !ne_mask_fmap.
  repeat (rewrite lookup_zip_with || rewrite list_lookup_fmap).
  unfold fused_instance.
  destruct (Z.of_nat wp <=? max_path_positions); rewrite ?list_lookup_fmap;
    destruct (fs !! j), (fe !! j), (fp !! j), (fl !! j); reflexivity.
Qed.

Local Abbreviation z :=
  (flat_fused embed_dim leaf_pad leaf_path path_path max_leaf_positions
              max_path_positions leaf_embedding path_embedding path_bilstm fc_tanh
              start_leaf_tokens start_leaf_lengths end_leaf_tokens end_leaf_lengths
              path_tokens path_lengths).

Lemma flat_fused_length :
  Z.of_nat (length z) = total counts + Z.of_nat (length start_leaf_tokens).
Proof.
  destruct accepted_streams as (Hs & He & Hp & Hce & Hcp).
  pose proof (flat_segments_length leaf_path start_leaf_tokens start_leaf_lengths Hls) as Hns.
  pose proof (flat_segments_length leaf_path end_leaf_tokens end_leaf_lengths
                (eq_trans Hle (eq_sym Hbe))) as Hne.
  pose proof (flat_segments_length path_path path_tokens path_lengths
                (eq_trans Hlp (eq_sym Hbp))) as Hnp.
  pose proof (flat_lengths_length path_path path_tokens path_lengths
                (eq_trans Hlp (eq_sym Hbp))) as Hnl.
  rewrite Hce in Hne. rewrite Hcp in Hnp. rewrite Hbe in Hne. rewrite Hbp in Hnp.
  unfold flat_fused. rewrite length_zip_with, !length_zip. lia.
Qed.

Lemma flat_fused_row (j : nat) (v : vec) :
  z !! j = Some v → ∃ x, v = fc_tanh x.
Proof.
  unfold flat_fused. intros (leaves & path & -> & _ & _)%lookup_zip_with_Some.
  unfold fused_instance. eauto.
Qed.

(** Every turn of the aggregation loop finds its rows, and appends a vector
    when the fused vectors have a width other than 1. *)
Lemma example_output_vector (i : nat) :
  (∀ x, length (fc_tanh x) ≠ 1%nat) →
  (i < length start_leaf_tokens)%nat →
  ∃ v, example_output z split_inds (Z.of_nat i) = Some (Vector v).
Proof.
  intros Hwidth Hi. rewrite example_output_unfold.
  rewrite !index_nonneg by lia.
  replace (Z.to_nat (Z.of_nat i + 1)) with (S i) by lia. rewrite Nat2Z.id.
  rewrite !split_inds_lookup by (rewrite sum_dim1_length, eq_mask_length; lia).
  cbn [mbind option_bind].
  destruct (negb _); [eauto|].
  pose proof (total_take_le counts i (sum_dim1_nonneg _)) as Hlo.
  pose proof flat_fused_length as Hz.
  rewrite index_nonneg by lia.
  destruct (lookup_lt_is_Some_2 z (Z.to_nat (total (take i counts) + Z.of_nat i)))
    as [row Hrow]; [lia|].
  rewrite Hrow. simpl. destruct (flat_fused_row _ _ Hrow) as [x ->].
  rewrite squeeze_vector by apply Hwidth. eauto.
Qed.

(** Past the validation, an empty path sub-sequence (a reported length that
    is not positive) makes [forward] raise. *)
Lemma forward_raises :
  ¬ Forall (λ n, 0 < n)
           (packed_lengths path_path max_path_positions path_tokens path_lengths) →
  forward embed_dim leaf_pad leaf_path path_path max_leaf_positions
          max_path_positions leaf_embedding path_embedding path_bilstm fc_tanh
          start_leaf_tokens start_leaf_lengths end_leaf_tokens end_leaf_lengths
          path_tokens path_lengths
  = None.
Proof.
  intros Hneg. unfold packed_lengths in Hneg.
  destruct accepted_streams as (Hs & He & Hp & Hce & Hcp).
  pose proof (split_seq_spec leaf_pad leaf_path start_leaf_tokens start_leaf_lengths
                Hs Hls) as Hss.
  pose proof (split_seq_spec leaf_pad leaf_path end_leaf_tokens end_leaf_lengths
                He (eq_trans Hle (eq_sym Hbe))) as Hse.
  pose proof (split_seq_spec leaf_pad path_path path_tokens path_lengths
                Hp (eq_trans Hlp (eq_sym Hbp))) as Hsp.
  rewrite Hce in Hse. rewrite Hcp in Hsp.
  unfold forward. rewrite Hok, Hss, Hse, Hsp.
  cbn [mbind option_bind].
  rewrite !truncate_seqs_rows.
  cbn [mbind option_bind fmap option_fmap option_map].
  rewrite !size1_flat, !Nat2Z.id by congruence.
  pose proof (flat_segments_length path_path path_tokens path_lengths
                (eq_trans Hlp (eq_sym Hbp))) as Hnp.
  pose proof (flat_lengths_length path_path path_tokens path_lengths
                (eq_trans Hlp (eq_sym Hbp))) as Hnl.
  change (map (map path_embedding) ?t)
    with (fmap (M:=list) (fmap (M:=list) path_embedding) t).
  rewrite encode_paths_raises; [done| |exact Hneg].
  rewrite !length_fmap. destruct (_ <=? _); rewrite ?length_fmap; lia.
Qed.

(** C5 (as amended).  In a batch of B examples that passes the validation,
    the offset index has B+1 entries, entry i being the number of delimiters
    of the examples before example i.  In each of the three tensors
    [_split_seq] returns for a stream (the padded sub-sequences, their
    lengths and the mask; start-leaf, end-leaf and path stream alike), which
    all have as many rows as there are delimiters plus B, example i, with
    index entries lo and hi, owns the hi-lo+1 rows [lo+i, hi+i]: its hi-lo
    delimiter-terminated sub-sequences are the rows [lo+i, hi+i) and its
    trailing sub-sequence is row hi+i; the lengths and the mask rows in that
    range are those of these sub-sequences.  The aggregation loop reads, for
    example i, that same range of the fused tensor: the rows [lo+i, hi+i]
    when hi > lo, row lo+i when hi = lo; and (with positive lengths for the
    recurrent pass) the fused tensor [forward] aggregates holds, at each flat
    row, the fused vector of the sub-sequences at that flat row.  The shift
    by i is the one trailing sub-sequence of each earlier example. *)
Theorem flat_rows_follow_shifted_offset_index :
  length split_inds = S (length start_leaf_tokens) ∧
  (∀ i, (i <= length start_leaf_tokens)%nat →
        split_inds !! i = Some (total (take i counts))) ∧
  (∀ tokens lengths delim,
     (tokens, lengths, delim) ∈ [(start_leaf_tokens, start_leaf_lengths, leaf_path);
                                 (end_leaf_tokens, end_leaf_lengths, leaf_path);
                                 (path_tokens, path_lengths, path_path)] →
     ∃ padded seq_lengths mask,
       _split_seq leaf_pad tokens lengths (nonzero (eq_mask tokens delim)) split_inds
       = Some (padded, seq_lengths, mask) ∧
       Z.of_nat (length padded) = total counts + Z.of_nat (length start_leaf_tokens) ∧
       length seq_lengths = length padded ∧
       length mask = length padded ∧
       ∀ (i : nat) row len lo hi,
         tokens !! i = Some row → lengths !! i = Some len →
         split_inds !! i = Some lo → split_inds !! S i = Some hi →
         let cut := split_row (size1 tokens) row len (delimiter_cols delim row) in
         let segs := pad_to (flat_width delim tokens lengths) leaf_pad <$> cut.1 in
         Z.of_nat (length segs) = hi - lo + 1 ∧
         Py.slice padded (lo + Z.of_nat i) (hi + Z.of_nat i + 1) = segs ∧
         Py.slice padded (lo + Z.of_nat i) (hi + Z.of_nat i)
         = take (Z.to_nat (hi - lo)) segs ∧
         padded !! Z.to_nat (hi + Z.of_nat i) = segs !! Z.to_nat (hi - lo) ∧
         Py.slice seq_lengths (lo + Z.of_nat i) (hi + Z.of_nat i + 1) = cut.2 ∧
         Py.slice mask (lo + Z.of_nat i) (hi + Z.of_nat i + 1) = ne_mask segs leaf_pad) ∧
  (∀ fused : list vec,
     aggregate fused split_inds (length start_leaf_tokens)
     = (output_sums ← mapM (example_output fused split_inds)
                          (Z.of_nat <$> seq 0 (length start_leaf_tokens));
        cat_unsqueeze0 output_sums) ∧
     ∀ (i : nat) lo hi,
       split_inds !! i = Some lo → split_inds !! S i = Some hi →
       example_output fused split_inds (Z.of_nat i)
       = if lo =? hi then squeeze <$> Py.index fused (lo + Z.of_nat i)
         else Some (Vector (vdiv (sum_dim0 (Z.to_nat (size1 fused))
                                           (Py.slice fused (lo + Z.of_nat i)
                                                     (hi + Z.of_nat i + 1)))
                                 (hi - lo)))) ∧
  (Forall (λ n, 0 < n)
          (packed_lengths path_path max_path_positions path_tokens path_lengths) →
   forward embed_dim leaf_pad leaf_path path_path max_leaf_positions
           max_path_positions leaf_embedding path_embedding path_bilstm fc_tanh
           start_leaf_tokens start_leaf_lengths end_leaf_tokens end_leaf_lengths
           path_tokens path_lengths
   = aggregate z split_inds (length start_leaf_tokens)).
Proof.
  destruct accepted_streams as (Hs & He & Hp & Hce & Hcp).
  split_and!.
  - by rewrite split_inds_length, sum_dim1_length, eq_mask_length.
  - intros i Hi. apply split_inds_lookup.
    by rewrite sum_dim1_length, eq_mask_length.
  - intros tokens lengths delim Hin.
    assert (Hstream : tokens ≠ [] ∧ length lengths = length tokens ∧
                      length tokens = length start_leaf_tokens ∧
                      sum_dim1 (eq_mask tokens delim) = counts).
    { repeat (apply elem_of_cons in Hin as [Hin|Hin]; [simplify_eq|]).
      - done.
      - split_and!; [done|lia|done|done].
      - split_and!; [done|lia|done|done].
      - by apply elem_of_nil in Hin. }
    destruct Hstream as (Hrows & Hlengths & Hbatch & Hcounts).
    eexists _, _, _. split; [|split_and!].
    + rewrite <- Hcounts. by apply split_seq_spec.
    + rewrite length_fmap, <- Hcounts, <- Hbatch. by apply flat_segments_length.
    + rewrite length_fmap. by apply flat_lengths_length.
    + by rewrite ne_mask_fmap, !length_fmap.
    + intros i row len lo hi Hrow Hlen Hlo Hhi cut segs.
      rewrite <- Hcounts in Hlo, Hhi.
      destruct (stream_layout leaf_pad delim tokens lengths i row len lo hi
                  Hlengths Hrow Hlen Hlo Hhi) as (_ & _ & H1 & H2 & H3 & H4 & H5).
      split_and!; [done..|].
      rewrite !ne_mask_fmap, slice_fmap. by rewrite H2.
  - intros fused. split.
    + change ([0] ++ cumsum counts) with (0 :: cumsum counts).
      apply aggregate_spec.
    + intros i lo hi Hlo Hhi.
      pose proof (lookup_lt_Some _ _ _ Hhi) as Hi.
      rewrite example_output_unfold, !index_nonneg by lia.
      replace (Z.to_nat (Z.of_nat i + 1)) with (S i) by lia.
      rewrite Nat2Z.id, Hlo, Hhi. cbn [mbind option_bind].
      by destruct (lo =? hi).
  - apply forward_accepted.
Qed.

(** C3 (as amended).  In a batch that passes the validation, with one length
    per example in each stream, fused vectors of a width other than 1, and
    every path sub-sequence handed to the recurrent pass reported with a
    positive length within the width of the path tensor (an empty
    sub-sequence makes [pack_padded_sequence] raise), [forward] returns one
    row per example, and the row of an example without delimiter (equal index
    entries lo at i and i+1) is exactly the fused vector of the one
    sub-sequence that example has in each stream: its tokens after the left
    padding, at flat row lo+i, where the pointer [cur_max] stands.  No zero
    row is put in its place; it is zero only when that fused vector is. *)
Theorem zero_delimiter_example_gets_its_fused_segment
    (i : nat) (start_row end_row path_row : list Z)
    (start_len end_len path_len lo : Z) :
  (∀ x, length (fc_tanh x) ≠ 1%nat) →
  Forall (λ n, 0 < n <= packed_width path_path max_path_positions path_tokens path_lengths)
         (packed_lengths path_path max_path_positions path_tokens path_lengths) →
  start_leaf_tokens !! i = Some start_row → start_leaf_lengths !! i = Some start_len →
  end_leaf_tokens !! i = Some end_row → end_leaf_lengths !! i = Some end_len →
  path_tokens !! i = Some path_row → path_lengths !! i = Some path_len →
  split_inds !! i = Some lo → split_inds !! S i = Some lo →
  ∃ out,
    forward embed_dim leaf_pad leaf_path path_path max_leaf_positions
            max_path_positions leaf_embedding path_embedding path_bilstm fc_tanh
            start_leaf_tokens start_leaf_lengths end_leaf_tokens end_leaf_lengths
            path_tokens path_lengths
    = Some (Rows out) ∧
    length out = length start_leaf_tokens ∧
    z !! Z.to_nat (lo + Z.of_nat i) = out !! i ∧
    out !! i =
      Some (fused_instance embed_dim leaf_pad max_leaf_positions max_path_positions
              leaf_embedding path_embedding path_bilstm fc_tanh
              (Py.slice start_row (size1 start_leaf_tokens - start_len)
                        (size1 start_leaf_tokens))
              (Py.slice end_row (size1 end_leaf_tokens - end_len)
                        (size1 end_leaf_tokens))
              (Py.slice path_row (size1 path_tokens - path_len) (size1 path_tokens))
              (flat_width leaf_path start_leaf_tokens start_leaf_lengths)
              (flat_width leaf_path end_leaf_tokens end_leaf_lengths)
              (flat_width path_path path_tokens path_lengths)
              path_len).
Proof.
  intros Hwidth Hpacked Hsr Hsl Her Hel Hpr Hpl Hlo Hhi.
  assert (Hpos : Forall (λ n, 0 < n)
                   (packed_lengths path_path max_path_positions path_tokens path_lengths)).
  { eapply Forall_impl; [exact Hpacked|]. intros n. cbn beta. lia. }
  destruct accepted_streams as (Hs & He & Hp & Hce & Hcp).
  pose proof (lookup_lt_Some _ _ _ Hsr) as Hi.
  destruct (mapM_vectors (example_output z split_inds)
              (Z.of_nat <$> seq 0 (length start_leaf_tokens))) as (out & Hout & HF).
  { intros k (n & -> & Hn%elem_of_seq)%list_elem_of_fmap.
    apply example_output_vector; [done|lia]. }
  assert (Hlen : length out = length start_leaf_tokens).
  { apply Forall2_length in HF. by rewrite length_fmap, length_seq in HF. }
  destruct (lookup_lt_is_Some_2 out i) as [v Hv]; [lia|].
  assert (Hvi : example_output z split_inds (Z.of_nat i) = Some (Vector v)).
  { eapply (Forall2_lookup_lr _ _ _ i) in HF; [done| |done].
    rewrite list_lookup_fmap, lookup_seq_lt by lia. done. }
  rewrite example_output_unfold in Hvi.
  rewrite !index_nonneg in Hvi by lia.
  replace (Z.to_nat (Z.of_nat i + 1)) with (S i) in Hvi by lia.
  rewrite Nat2Z.id, Hlo, Hhi in Hvi. cbn [mbind option_bind] in Hvi.
  rewrite Z.eqb_refl in Hvi. simpl in Hvi.
  pose proof Hlo as Hlo'.
  rewrite split_inds_lookup in Hlo' by (rewrite sum_dim1_length, eq_mask_length; lia).
  injection Hlo' as Hlo'.
  pose proof (total_take_le counts i (sum_dim1_nonneg _)) as Hnn.
  rewrite index_nonneg in Hvi by lia.
  destruct (z !! Z.to_nat (lo + Z.of_nat i)) as [row|] eqn:Erow; [|done].
  simpl in Hvi. destruct (flat_fused_row _ _ Erow) as [x Hx].
  rewrite squeeze_vector in Hvi by (rewrite Hx; apply Hwidth).
  injection Hvi as <-.
  exists out. split_and!.
  - rewrite (forward_accepted Hpos).
    change ([0] ++ cumsum counts) with (0 :: cumsum counts).
    rewrite aggregate_spec.
    change (0 :: cumsum counts) with ([0] ++ cumsum counts).
    rewrite Hout. cbn [mbind option_bind].
    apply cat_unsqueeze0_vectors. intros ->. simpl in Hlen. lia.
  - done.
  - by rewrite Hv.
  - rewrite Hv, <- Erow. clear Erow Hx Hv.
    destruct (trailing_only leaf_path start_leaf_tokens start_leaf_lengths i
                start_row start_len lo Hls Hsr Hsl Hlo Hhi) as [Hfs _].
    rewrite <- Hce in Hlo, Hhi.
    destruct (trailing_only leaf_path end_leaf_tokens end_leaf_lengths i
                end_row end_len lo (eq_trans Hle (eq_sym Hbe)) Her Hel Hlo Hhi)
      as [Hfe _].
    rewrite Hce, <- Hcp in Hlo, Hhi.
    destruct (trailing_only path_path path_tokens path_lengths i
                path_row path_len lo (eq_trans Hlp (eq_sym Hbp)) Hpr Hpl Hlo Hhi)
      as [Hfp Hfl].
    unfold flat_fused. apply lookup_zip_with_Some.
    eexists (_, _), (_, _). split_and!; [reflexivity| |].
    + by apply lookup_zip_Some.
    + by apply lookup_zip_Some.
Qed.

End Batch.

End ForwardProps.

(** ** The batch of two examples *)

Section ToyBatch.
Import Code2Seq.

Lemma forward_falls_back_to_zero_rows_witness :
  Forall (λ c, c = 0) (sum_dim1 (eq_mask [[10; 11; 12; 13]; [1; 1; 13; 14]] 4)) ∧
  forward 2 1 4 4 128 128 toy_embedding toy_embedding (zero_bilstm 2) half_fc_tanh
          toy_tokens toy_lengths [[10; 11; 12; 13]; [1; 1; 13; 14]] toy_lengths
          toy_tokens toy_lengths
  = Some (Rows [[0; 0]; [0; 0]]%Q).
Proof.
  assert (Hzero : Forall (λ c, c = 0)
                    (sum_dim1 (eq_mask [[10; 11; 12; 13]; [1; 1; 13; 14]] 4))).
  { repeat constructor. }
  split; [exact Hzero|].
  apply (forward_falls_back_to_zero_rows 2 1 4 4 128 128 toy_embedding toy_embedding
           (zero_bilstm 2) half_fc_tanh
           toy_tokens toy_lengths [[10; 11; 12; 13]; [1; 1; 13; 14]] toy_lengths
           toy_tokens toy_lengths).
  right. right. left. exact Hzero.
Defined.

Lemma zero_delimiter_example_gets_its_fused_segment_witness :
  (∀ x, length (half_fc_tanh x) ≠ 1%nat) ∧
  packed_lengths 4 128 toy_tokens toy_lengths = [1; 2; 2] ∧
  Forall (λ n, 0 < n <= packed_width 4 128 toy_tokens toy_lengths)
         (packed_lengths 4 128 toy_tokens toy_lengths) ∧
  rejected (nonzero (eq_mask toy_tokens 4)) (nonzero (eq_mask toy_tokens 4))
           (nonzero (eq_mask toy_tokens 4)) = false ∧
  ([0] ++ cumsum (sum_dim1 (eq_mask toy_tokens 4))) !! 1%nat = Some 1 ∧
  ([0] ++ cumsum (sum_dim1 (eq_mask toy_tokens 4))) !! 2%nat = Some 1 ∧
  ∃ out,
    forward 2 1 4 4 128 128 toy_embedding toy_embedding (zero_bilstm 2) half_fc_tanh
            toy_tokens toy_lengths toy_tokens toy_lengths toy_tokens toy_lengths
    = Some (Rows out) ∧
    length out = length toy_tokens ∧
    flat_fused 2 1 4 4 128 128 toy_embedding toy_embedding (zero_bilstm 2) half_fc_tanh
               toy_tokens toy_lengths toy_tokens toy_lengths toy_tokens toy_lengths
      !! Z.to_nat (1 + Z.of_nat 1) = out !! 1%nat ∧
    out !! 1%nat =
      Some (fused_instance 2 1 128 128 toy_embedding toy_embedding (zero_bilstm 2)
              half_fc_tanh
              (Py.slice [1; 1; 13; 14] (size1 toy_tokens - 2) (size1 toy_tokens))
              (Py.slice [1; 1; 13; 14] (size1 toy_tokens - 2) (size1 toy_tokens))
              (Py.slice [1; 1; 13; 14] (size1 toy_tokens - 2) (size1 toy_tokens))
              (flat_width 4 toy_tokens toy_lengths)
              (flat_width 4 toy_tokens toy_lengths)
              (flat_width 4 toy_tokens toy_lengths)
              2).
Proof.
  assert (Hwidth : ∀ x, length (half_fc_tanh x) ≠ 1%nat) by (intros x; discriminate).
  assert (Hpacked : Forall (λ n, 0 < n <= packed_width 4 128 toy_tokens toy_lengths)
                           (packed_lengths 4 128 toy_tokens toy_lengths)).
  { change (Forall (λ n, 0 < n <= 2) [1; 2; 2]). repeat constructor; lia. }
  split_and!; [exact Hwidth|reflexivity|exact Hpacked|reflexivity..|].
  exact (zero_delimiter_example_gets_its_fused_segment 2 1 4 4 128 128
           toy_embedding toy_embedding (zero_bilstm 2) half_fc_tanh
           toy_tokens toy_lengths toy_tokens toy_lengths toy_tokens toy_lengths
           eq_refl eq_refl eq_refl eq_refl eq_refl eq_refl
           1%nat [1; 1; 13; 14] [1; 1; 13; 14] [1; 1; 13; 14] 2 2 2 1
           Hwidth Hpacked
           eq_refl eq_refl eq_refl eq_refl eq_refl eq_refl eq_refl eq_refl).
Defined.

Lemma flat_rows_follow_shifted_offset_index_witness :
  let tokens := [[10; 4; 11]; [12; 4; 13]] in
  let split_inds := [0] ++ cumsum (sum_dim1 (eq_mask tokens 4)) in
  length [3; 3] = length tokens ∧
  rejected (nonzero (eq_mask tokens 4)) (nonzero (eq_mask tokens 4))
           (nonzero (eq_mask tokens 4)) = false ∧
  split_inds = [0; 1; 2] ∧
  length split_inds = 3%nat ∧
  (∃ padded seq_lengths mask,
     _split_seq 1 tokens [3; 3] (nonzero (eq_mask tokens 4)) split_inds
     = Some (padded, seq_lengths, mask) ∧
     Py.slice padded (1 + 1) (2 + 1 + 1) = [[12]; [13]] ∧
     Py.slice seq_lengths (1 + 1) (2 + 1 + 1) = [1; 1] ∧
     Py.slice mask (1 + 1) (2 + 1 + 1) = [[true]; [true]]) ∧
  ∀ fused : list vec,
    example_output fused split_inds 1
    = Some (Vector (vdiv (sum_dim0 (Z.to_nat (size1 fused)) (Py.slice fused (1 + 1) (2 + 1 + 1)))
                         (2 - 1))).
Proof.
  intros tokens split_inds.
  destruct (flat_rows_follow_shifted_offset_index 2 1 4 4 128 128
              toy_embedding toy_embedding (zero_bilstm 2) half_fc_tanh
              tokens [3; 3] tokens [3; 3] tokens [3; 3]
              eq_refl eq_refl eq_refl eq_refl eq_refl eq_refl)
    as (Hlen & _ & Hstreams & Hagg & _).
  split_and!; [reflexivity|reflexivity|reflexivity|exact Hlen| |].
  - destruct (Hstreams tokens [3; 3] 4)
      as (padded & seq_lengths & mask & Hsplit & _ & _ & _ & Hrows).
    { apply elem_of_cons. by left. }
    exists padded, seq_lengths, mask. split; [exact Hsplit|].
    destruct (Hrows 1%nat [12; 4; 13] 3 1 2 eq_refl eq_refl eq_refl eq_refl)
      as (_ & Hblock & _ & _ & Hlens & Hmask).
    split_and!; [exact Hblock|exact Hlens|exact Hmask].
  - intros fused. exact (proj2 (Hagg fused) 1%nat 1 2 eq_refl eq_refl).
Defined.

(** C3, the claim as stated, fails.  The batch of two examples passes the
    validation and its second example has no delimiter (index entries 1 and
    1).  With every table and layer zero at width 2, the row [forward] returns
    for that example is the fused vector of its segment and is the zero
    vector; at width 1, [squeeze] turns that row into a scalar and the final
    [torch.cat] raises, so no row is returned at all.  And when the example
    without delimiter is empty (length 0, a row of padding), its one
    sub-sequence is empty, the lengths handed to [pack_padded_sequence] are
    1, 2 and 0, and [forward] raises for the whole batch. *)
Lemma zero_delimiter_row_may_be_zero :
  rejected (nonzero (eq_mask toy_tokens 4)) (nonzero (eq_mask toy_tokens 4))
           (nonzero (eq_mask toy_tokens 4)) = false ∧
  [0] ++ cumsum (sum_dim1 (eq_mask toy_tokens 4)) = [0; 1; 1] ∧
  forward 2 1 4 4 128 128 (zero_embedding 2) (zero_embedding 2) (zero_bilstm 2)
          (zero_fc_tanh 2)
          toy_tokens toy_lengths toy_tokens toy_lengths toy_tokens toy_lengths
  = Some (Rows [vzeros 2; vzeros 2]) ∧
  forward 1 1 4 4 128 128 (zero_embedding 1) (zero_embedding 1) (zero_bilstm 1)
          (zero_fc_tanh 1)
          toy_tokens toy_lengths toy_tokens toy_lengths toy_tokens toy_lengths
  = None ∧
  let empty_second := [[10; 4; 11; 12]; [1; 1; 1; 1]] in
  rejected (nonzero (eq_mask empty_second 4)) (nonzero (eq_mask empty_second 4))
           (nonzero (eq_mask empty_second 4)) = false ∧
  [0] ++ cumsum (sum_dim1 (eq_mask empty_second 4)) = [0; 1; 1] ∧
  packed_lengths 4 128 empty_second [4; 0] = [1; 2; 0] ∧
  forward 2 1 4 4 128 128 toy_embedding toy_embedding (zero_bilstm 2) half_fc_tanh
          empty_second [4; 0] empty_second [4; 0] empty_second [4; 0]
  = None.
Proof. cbv zeta. split_and!; vm_compute; reflexivity. Qed.

(** C1, evaluated where it fails.  On the batch of two examples, with every
    fused vector equal to (1/2, 1/2), the first example has one delimiter
    (index entries 0 and 1) and owns the flat rows 0 and 1.  [forward] returns
    for it the sum of both rows divided by 1, that is (1, 1), whereas the mean
    of the one fused vector in [0, 1) is (1/2, 1/2). *)
Theorem aggregation_divides_by_delimiters_but_sums_trailing_row :
  let z := flat_fused 2 1 4 4 128 128 (zero_embedding 2) (zero_embedding 2)
                      (zero_bilstm 2) half_fc_tanh
                      toy_tokens toy_lengths toy_tokens toy_lengths
                      toy_tokens toy_lengths in
  [0] ++ cumsum (sum_dim1 (eq_mask toy_tokens 4)) = [0; 1; 1] ∧
  z = [[1 # 2; 1 # 2]; [1 # 2; 1 # 2]; [1 # 2; 1 # 2]]%Q ∧
  forward 2 1 4 4 128 128 (zero_embedding 2) (zero_embedding 2) (zero_bilstm 2)
          half_fc_tanh
          toy_tokens toy_lengths toy_tokens toy_lengths toy_tokens toy_lengths
  = Some (Rows [[4 # 4; 4 # 4]; [1 # 2; 1 # 2]]%Q) ∧
  mean 2 (Py.slice z 0 1) = [1 # 2; 1 # 2]%Q ∧
  ¬ vec_equiv [4 # 4; 4 # 4]%Q (mean 2 (Py.slice z 0 1)).
Proof.
  split_and!; [vm_compute; reflexivity..|].
  vm_compute. intros H. inversion H as [|? ? ? ? Hq _]. discriminate Hq.
Qed.

(** C4, evaluated where it fails.  The first example of the batch is cut
    into [10] and [11; 12]; filled up to the common length 2 the first is
    [10; 1], of true length 1.  The mask [_split_seq] returns for it is true
    at the token and false at the pad position, and the sum the leaf
    aggregator computes with it is zero, whereas the embedding of its first
    token alone is (10, 1). *)
Theorem leaf_mask_is_true_at_tokens :
  _split_seq 1 toy_tokens toy_lengths (nonzero (eq_mask toy_tokens 4)) [0; 1; 1]
  = Some ([[10; 1]; [11; 12]; [13; 14]], [1; 2; 2],
          [[true; false]; [true; true]; [true; true]]) ∧
  leaf_sums 2 toy_embedding [[10; 1]; [11; 12]; [13; 14]]
            [[true; false]; [true; true]; [true; true]]
  = [vzeros 2; vzeros 2; vzeros 2] ∧
  sum_dim0 2 (toy_embedding <$> take 1 [10; 1]) = [10; 1]%Q.
Proof. split_and!; vm_compute; reflexivity. Qed.

End ToyBatch.

(** ** What [_split_seq] cuts from a row *)

Section SplitRowProps.
Import Code2Seq.

Lemma split_on_not_nil (delim : Z) (l : list Z) : split_on delim l ≠ [].
Proof.
  destruct l as [|x l]; simpl; [done|].
  destruct (x =? delim); [done|]. by destruct (split_on delim l).
Qed.

Lemma split_row_cuts (ml : Z) (row : list Z) (len : Z) (cols : list Z) :
  split_row ml row len cols = cuts row ml (1 + (ml - len - 1)) cols.
Proof.
  unfold split_row.
  rewrite slice_to_minus_one, slice_from_nonneg by lia.
  rewrite !fmap_app. simpl.
  generalize (1 + (ml - len - 1)) as s.
  induction cols as [|col cols IH]; intros s; [done|].
  specialize (IH (1 + col)). simpl in *.
  rewrite !length_app, !length_fmap in *. simpl in *.
  replace (length cols + 1 - 0)%nat with (S (length cols)) in * by lia.
  replace (length cols + 1)%nat with (S (length cols)) in * by lia.
  simpl in *. rewrite <- IH. reflexivity.
Qed.

Lemma slice_snoc {A} (l : list A) (s : Z) (j : nat) (x : A) :
  0 <= s <= Z.of_nat j → l !! j = Some x →
  Py.slice l s (Z.of_nat j + 1) = Py.slice l s (Z.of_nat j) ++ [x].
Proof.
  intros Hs Hx. rewrite !slice_nonneg by lia.
  replace (Z.to_nat (Z.of_nat j + 1) - Z.to_nat s)%nat
    with (S (Z.to_nat (Z.of_nat j) - Z.to_nat s)) by lia.
  apply take_S_r. rewrite lookup_drop, <- Hx. f_equal. lia.
Qed.

Lemma slice_empty {A} (l : list A) (s : Z) : 0 <= s → Py.slice l s s = [].
Proof. intros Hs. rewrite slice_nonneg by lia. by rewrite Nat.sub_diag. Qed.

Lemma slice_whole_length {A} (l : list A) (s : Z) :
  0 <= s <= Z.of_nat (length l) →
  Z.of_nat (length (Py.slice l s (Z.of_nat (length l)))) = Z.of_nat (length l) - s.
Proof.
  intros Hs. rewrite slice_nonneg by lia. rewrite length_take, length_drop. lia.
Qed.

Lemma slice_length {A} (l : list A) (s e : Z) :
  0 <= s <= e → e <= Z.of_nat (length l) →
  Z.of_nat (length (Py.slice l s e)) = e - s.
Proof.
  intros Hs He. rewrite slice_nonneg by lia. rewrite length_take, length_drop. lia.
Qed.

(** The boundary recursion, started at [start] with the row read up to
    [front], continues the piece in progress and then cuts as [split_on]
    does. *)
Lemma cuts_split_on (delim : Z) (row front r : list Z) (start : Z) :
  row = front ++ r → 0 <= start <= Z.of_nat (length front) →
  ∃ hd tl,
    split_on delim r = hd :: tl ∧
    cuts row (Z.of_nat (length row)) start
         (true_cols (Z.of_nat (length front)) ((λ tok, tok =? delim) <$> r))
    = ((Py.slice row start (Z.of_nat (length front)) ++ hd) :: tl,
       (Z.of_nat (length front) - start + Z.of_nat (length hd))
         :: ((λ p, Z.of_nat (length p)) <$> tl)).
Proof.
  revert front start. induction r as [|x r IH]; intros front start Hrow Hs.
  - exists [], []. split; [done|]. simpl.
    assert (Hl : length row = length front) by (rewrite Hrow, length_app; simpl; lia).
    rewrite Hl. rewrite app_nil_r.
    replace (start + (1 + Z.of_nat (length front) - start - 1))
      with (Z.of_nat (length front)) by lia.
    do 2 f_equal. lia.
  - assert (Hx : row !! length front = Some x).
    { rewrite Hrow. by rewrite list_lookup_middle. }
    destruct (IH (front ++ [x]) (if x =? delim then 1 + Z.of_nat (length front) else start))
      as (hd & tl & Hsplit & Hcuts).
    { rewrite Hrow, <- app_assoc. done. }
    { rewrite length_app. simpl. destruct (x =? delim); lia. }
    rewrite length_app in Hcuts. cbn [length] in Hcuts.
    replace (Z.of_nat (length front + 1)) with (Z.of_nat (length front) + 1) in Hcuts by lia.
    rewrite fmap_cons. cbn [true_cols split_on]. rewrite Hsplit.
    destruct (x =? delim) eqn:Ex.
    + exists [], (hd :: tl). split; [done|].
      cbn [app cuts]. rewrite Hcuts. cbn [fst snd].
      replace (1 + Z.of_nat (length front)) with (Z.of_nat (length front) + 1) by lia.
      rewrite slice_empty by lia. rewrite app_nil_r. cbn [app length fmap list_fmap].
      replace (start + (Z.of_nat (length front) + 1 - start - 1))
        with (Z.of_nat (length front)) by lia.
      do 2 f_equal; [lia|]. f_equal. lia.
    + exists (x :: hd), tl. split; [done|].
      cbn [app]. rewrite Hcuts. rewrite (slice_snoc _ _ _ x) by (done || lia).
      rewrite <- app_assoc. cbn [app length]. do 2 f_equal. lia.
Qed.

Lemma true_cols_app_false (pre r : list Z) (delim j : Z) :
  Forall (λ tok, tok ≠ delim) pre →
  true_cols j ((λ tok, tok =? delim) <$> (pre ++ r))
  = true_cols (j + Z.of_nat (length pre)) ((λ tok, tok =? delim) <$> r).
Proof.
  intros Hpre. revert j. induction Hpre as [|x pre Hx _ IH]; intros j.
  - cbn [app length]. by rewrite Z.add_0_r.
  - cbn [app length]. rewrite fmap_cons. cbn [true_cols].
    rewrite (proj2 (Z.eqb_neq x delim) Hx). cbn [app].
    rewrite IH. f_equal. lia.
Qed.

(** On a left-padded row [split_row] returns the pieces of the tokens after
    the padding, cut at the delimiters, and their lengths. *)
Lemma split_row_split_on (delim ml : Z) (row : list Z) (len : Z) :
  left_padded delim ml row len →
  split_row ml row len (delimiter_cols delim row)
  = (split_on delim (real_tokens ml row len),
     (λ p, Z.of_nat (length p)) <$> split_on delim (real_tokens ml row len)).
Proof.
  intros (Hml & Hlen & Hpad). unfold real_tokens.
  rewrite split_row_cuts. unfold delimiter_cols.
  assert (Hfront : Z.of_nat (length (take (Z.to_nat (ml - len)) row)) = ml - len)
    by (rewrite length_take; lia).
  destruct (cuts_split_on delim row (take (Z.to_nat (ml - len)) row)
              (drop (Z.to_nat (ml - len)) row) (ml - len))
    as (hd & tl & Hsplit & Hcuts).
  { by rewrite take_drop. }
  { lia. }
  rewrite Hml, Hfront in Hcuts. rewrite Hsplit.
  replace (1 + (ml - len - 1)) with (ml - len) by lia.
  transitivity (cuts row ml (ml - len)
    (true_cols (ml - len) ((λ tok, tok =? delim) <$> drop (Z.to_nat (ml - len)) row))).
  { f_equal. rewrite <- (take_drop (Z.to_nat (ml - len)) row) at 1.
    rewrite (true_cols_app_false _ _ _ _ Hpad). f_equal. lia. }
  rewrite Hcuts. rewrite slice_empty by lia. cbn [app fmap list_fmap].
  do 3 f_equal. lia.
Qed.

Lemma join_split_on (delim : Z) (l : list Z) : join_with delim (split_on delim l) = l.
Proof.
  induction l as [|x l IH]; [done|]. cbn [split_on].
  pose proof (split_on_not_nil delim l) as Hne.
  destruct (Z.eqb_spec x delim) as [->|Hx].
  - destruct (split_on delim l) as [|s ss] eqn:E; [done|].
    cbn [join_with app]. cbn [join_with] in IH. by rewrite IH.
  - destruct (split_on delim l) as [|s ss] eqn:E; [done|].
    cbn [join_with] in *. destruct ss; simpl in *; by rewrite IH.
Qed.

Lemma split_on_delimiter_free (delim : Z) (l : list Z) :
  Forall (Forall (λ tok, tok ≠ delim)) (split_on delim l).
Proof.
  induction l as [|x l IH]; [by repeat constructor|]. cbn [split_on].
  destruct (Z.eqb_spec x delim) as [->|Hx]; [by constructor|].
  destruct (split_on delim l) as [|s ss]; [by repeat constructor|].
  apply Forall_cons in IH as [Hs Hss]. by repeat constructor.
Qed.

Lemma split_on_length (delim : Z) (l : list Z) :
  length (split_on delim l) = S (length (filter (λ tok, tok = delim) l)).
Proof.
  induction l as [|x l IH]; [done|]. cbn [split_on].
  pose proof (split_on_not_nil delim l) as Hne.
  destruct (Z.eqb_spec x delim) as [->|Hx].
  - rewrite filter_cons_True by done. simpl. by rewrite IH.
  - rewrite filter_cons_False by done.
    destruct (split_on delim l) as [|s ss]; [done|]. by rewrite <- IH.
Qed.

Lemma zip_with_ext_Forall2 {A B C} (P : A → B → Prop) (f g : A → B → C)
    (l : list A) (k : list B) :
  (∀ x y, P x y → f x y = g x y) → Forall2 P l k → zip_with f l k = zip_with g l k.
Proof.
  intros Hfg. induction 1 as [|x y l k Hxy _ IH]; [done|].
  simpl. by rewrite Hfg, IH.
Qed.

Lemma concat_fmap_fmap {A B} (f : A → B) (ll : list (list A)) :
  concat (fmap (M:=list) (fmap (M:=list) f) ll) = f <$> concat ll.
Proof.
  induction ll as [|l ll IH]; [done|].
  rewrite fmap_cons, !concat_cons, fmap_app. by rewrite <- IH.
Qed.

(** On a stream whose rows are all left-padded, the sub-sequences cut from
    the rows are the pieces of their tokens, and the reported lengths are
    the lengths of the pieces. *)
Lemma flat_segments_pieces (delim : Z) (tokens : list (list Z)) (lengths : list Z) :
  Forall2 (left_padded delim (size1 tokens)) tokens lengths →
  flat_segments delim tokens lengths = pieces delim tokens lengths
  ∧ flat_lengths delim tokens lengths
    = (λ p, Z.of_nat (length p)) <$> pieces delim tokens lengths.
Proof.
  intros Hpad. unfold flat_segments, flat_lengths, row_splits, pieces.
  rewrite (zip_with_ext_Forall2 _ _
             (λ row len, (split_on delim (real_tokens (size1 tokens) row len),
                          (λ p, Z.of_nat (length p))
                            <$> split_on delim (real_tokens (size1 tokens) row len)))
             _ _ (split_row_split_on delim (size1 tokens)) Hpad).
  generalize (size1 tokens) as ml. intros ml. clear Hpad.
  rewrite <- concat_fmap_fmap.
  split; f_equal.
  - revert lengths. induction tokens as [|row tokens IH]; intros [|len lengths];
      simpl; try done. by rewrite IH.
  - revert lengths. induction tokens as [|row tokens IH]; intros [|len lengths];
      simpl; try done. by rewrite IH.
Qed.

(** X1.  [_split_seq] on a stream whose rows are left-padded (row [i] holds
    [lengths[i]] tokens after padding that contains no delimiter), called as
    [forward] calls it, does not raise and returns: the pieces into which the
    delimiters cut the tokens of each row, all rows in order, each piece
    filled on the right with the pad symbol up to the longest piece; the true
    length of each piece; and the mask of the positions that differ from the
    pad symbol. *)
Theorem split_seq_cuts_tokens_at_delimiters
    (pad delim : Z) (tokens : list (list Z)) (lengths : list Z) :
  tokens ≠ [] →
  Forall2 (left_padded delim (size1 tokens)) tokens lengths →
  let segs := pieces delim tokens lengths in
  let width := max_list (length <$> segs) in
  _split_seq pad tokens lengths (nonzero (eq_mask tokens delim))
             ([0] ++ cumsum (sum_dim1 (eq_mask tokens delim)))
  = Some (pad_to width pad <$> segs,
          (λ p, Z.of_nat (length p)) <$> segs,
          ne_mask (pad_to width pad <$> segs) pad).
Proof.
  intros Hne Hpad segs width.
  rewrite (split_seq_spec pad delim tokens lengths Hne)
    by (symmetry; by eapply Forall2_length).
  unfold flat_width.
  destruct (flat_segments_pieces delim tokens lengths Hpad) as [-> ->]. done.
Qed.

(** X2.  The round trip of one row through the body of the loop of
    [_split_seq]: for a left-padded row, the sub-sequences it cuts, put
    together again with the delimiter between them, are the tokens of the row
    after its padding; no sub-sequence holds the delimiter; there is one more
    sub-sequence than the row has delimiters; and the lengths it reports are
    the lengths of the sub-sequences. *)
Theorem split_row_round_trip (delim max_length : Z) (row : list Z) (len : Z) :
  left_padded delim max_length row len →
  let '(seqs, split_lengths) :=
    split_row max_length row len (delimiter_cols delim row) in
  join_with delim seqs = real_tokens max_length row len
  ∧ Forall (Forall (λ tok, tok ≠ delim)) seqs
  ∧ length seqs = S (length (filter (λ tok, tok = delim) row))
  ∧ split_lengths = (λ p, Z.of_nat (length p)) <$> seqs.
Proof.
  intros Hpad. rewrite (split_row_split_on _ _ _ _ Hpad).
  split_and!.
  - apply join_split_on.
  - apply split_on_delimiter_free.
  - rewrite split_on_length. destruct Hpad as (Hml & Hlen & Hfree).
    unfold real_tokens.
    rewrite <- (take_drop (Z.to_nat (max_length - len)) row) at 2.
    rewrite filter_app, length_app.
    rewrite (filter_none _ (take _ row)); [done|].
    eapply Forall_impl; [exact Hfree|]. done.
  - done.
Qed.

End SplitRowProps.

Lemma split_seq_cuts_tokens_at_delimiters_witness :
  Code2Seq.toy_tokens ≠ []
  ∧ Forall2 (Code2Seq.left_padded 4 (Code2Seq.size1 Code2Seq.toy_tokens))
            Code2Seq.toy_tokens Code2Seq.toy_lengths
  ∧ Code2Seq._split_seq 1 Code2Seq.toy_tokens Code2Seq.toy_lengths
      (Code2Seq.nonzero (Code2Seq.eq_mask Code2Seq.toy_tokens 4))
      ([0] ++ Code2Seq.cumsum (Code2Seq.sum_dim1 (Code2Seq.eq_mask Code2Seq.toy_tokens 4)))
    = Some ([[10; 1]; [11; 12]; [13; 14]], [1; 2; 2],
            [[true; false]; [true; true]; [true; true]]).
Proof.
  assert (Hne : Code2Seq.toy_tokens ≠ []) by done.
  assert (Hpad : Forall2 (Code2Seq.left_padded 4 (Code2Seq.size1 Code2Seq.toy_tokens))
                         Code2Seq.toy_tokens Code2Seq.toy_lengths).
  { repeat constructor; simpl; lia. }
  split_and!; [done|done|].
  exact (split_seq_cuts_tokens_at_delimiters 1 4 _ _ Hne Hpad).
Defined.

Lemma split_row_round_trip_witness :
  Code2Seq.left_padded 4 6 [1; 1; 7; 4; 4; 9] 4
  ∧ (let '(seqs, split_lengths) :=
       Code2Seq.split_row 6 [1; 1; 7; 4; 4; 9] 4
                          (Code2Seq.delimiter_cols 4 [1; 1; 7; 4; 4; 9]) in
     Code2Seq.join_with 4 seqs = [7; 4; 4; 9]
     ∧ Forall (Forall (λ tok, tok ≠ 4)) seqs
     ∧ length seqs = 3%nat
     ∧ split_lengths = (λ p, Z.of_nat (length p)) <$> seqs).
Proof.
  assert (Hpad : Code2Seq.left_padded 4 6 [1; 1; 7; 4; 4; 9] 4).
  { repeat constructor; simpl; lia. }
  split; [done|].
  exact (split_row_round_trip 4 6 [1; 1; 7; 4; 4; 9] 4 Hpad).
Defined.

(** ** What the validation of [forward] compares *)

Section ValidationExact.
Import Code2Seq.

(** The row-index column of [torch.nonzero] is fixed by the number of true
    entries of each row. *)
Lemma nonzero_from_rows (mask : list (list bool)) (off : Z) :
  (nonzero_from off mask).*1 = row_indices off (sum_dim1 mask).
Proof.
  revert off. induction mask as [|row mask IH]; intros off; [done|].
  cbn [nonzero_from]. rewrite fmap_app, IH. unfold sum_dim1.
  rewrite fmap_cons. cbn [row_indices]. f_equal.
  rewrite <- (true_cols_length row 0), Nat2Z.id.
  induction (true_cols 0 row) as [|c cs IHc]; [done|].
  cbn [map length replicate]. rewrite fmap_cons. cbn [fst]. by f_equal.
Qed.

Lemma nonzero_nil_iff (mask : list (list bool)) :
  nonzero mask = [] ↔ total (sum_dim1 mask) = 0.
Proof.
  pose proof (sum_dim1_nonneg mask) as Hnn. split.
  - intros Hnil. pose proof (nonzero_from_length mask 0) as Hl.
    unfold nonzero in Hnil. rewrite Hnil in Hl. simpl in Hl. lia.
  - intros Hz. apply nonzero_from_nil.
    induction Hnn as [|c cs Hc Hcs IH]; [done|].
    pose proof (total_nonneg cs Hcs). simpl in Hz.
    constructor; [lia|]. apply IH. lia.
Qed.

(** X3.  For three streams with the same number of rows, the validation at
    the head of [forward] lets a batch through exactly when every example has
    the same number of delimiters in its start-leaf, end-leaf and path rows,
    and the batch holds at least one delimiter: where the delimiters stand in
    a row plays no part. *)
Theorem validation_compares_delimiter_counts (ms me mp : list (list bool)) :
  length me = length ms → length mp = length ms →
  rejected (nonzero ms) (nonzero me) (nonzero mp) = false
  ↔ sum_dim1 me = sum_dim1 ms ∧ sum_dim1 mp = sum_dim1 ms ∧ 0 < total (sum_dim1 ms).
Proof.
  intros Hle Hlp. split.
  - intros (Hs & He & Hp & Hse & Hsp)%rejected_false.
    split_and!.
    + symmetry. by apply equal_rows_equal_sums.
    + symmetry. by apply equal_rows_equal_sums.
    + pose proof (total_nonneg _ (sum_dim1_nonneg ms)).
      destruct (decide (total (sum_dim1 ms) = 0)) as [Hz|Hz]; [|lia].
      by apply nonzero_nil_iff in Hz.
  - intros (Hce & Hcp & Hpos).
    assert (Hs : nonzero ms ≠ []) by (rewrite nonzero_nil_iff; lia).
    assert (He : nonzero me ≠ []) by (rewrite nonzero_nil_iff, Hce; lia).
    assert (Hp : nonzero mp ≠ []) by (rewrite nonzero_nil_iff, Hcp; lia).
    assert (Hse : (nonzero ms).*1 = (nonzero me).*1)
      by (unfold nonzero; by rewrite !nonzero_from_rows, Hce).
    assert (Hsp : (nonzero ms).*1 = (nonzero mp).*1)
      by (unfold nonzero; by rewrite !nonzero_from_rows, Hcp).
    unfold rejected.
    rewrite !bool_decide_eq_false_2 by done.
    by rewrite !bool_decide_eq_true_2 by done.
Qed.

End ValidationExact.

Lemma validation_compares_delimiter_counts_witness :
  let ms := Code2Seq.eq_mask [[10; 4; 11]; [1; 12; 13]] 4 in
  let me := Code2Seq.eq_mask [[4; 14; 15]; [1; 1; 16]] 4 in
  let mp := Code2Seq.eq_mask [[20; 21; 5]; [22; 23; 24]] 5 in
  length me = length ms ∧ length mp = length ms
  ∧ (Code2Seq.rejected (Code2Seq.nonzero ms) (Code2Seq.nonzero me) (Code2Seq.nonzero mp)
     = false
     ↔ Code2Seq.sum_dim1 me = Code2Seq.sum_dim1 ms
       ∧ Code2Seq.sum_dim1 mp = Code2Seq.sum_dim1 ms
       ∧ 0 < Code2Seq.total (Code2Seq.sum_dim1 ms)).
Proof.
  intros ms me mp. split_and!; [reflexivity|reflexivity|].
  apply (validation_compares_delimiter_counts ms me mp); reflexivity.
Defined.

(** ** Reordering the encoder output *)

Section ReorderProps.
Import Reorder.

Lemma select_rows_cons {A} (t : list A) (j : Z) (new_order : list Z) :
  index_select t (j :: new_order)
  = (r ← (if 0 <=? j then t !! Z.to_nat j else None);
     rest ← index_select t new_order;
     Some (r :: rest)).
Proof.
  unfold index_select, Code2Seq.index_select, to_index. cbn [mapM].
  destruct (0 <=? j); [|done]. cbn [mbind option_bind mret option_ret].
  destruct (mapM _ new_order) as [order|]; cbn [mbind option_bind mapM mret option_ret];
    [done|]. by destruct (t !! Z.to_nat j).
Qed.

(** [index_select] returns, for each index, the slice it names. *)
Lemma select_rows_Some {A} (t : list A) (new_order : list Z) (t' : list A) :
  index_select t new_order = Some t'
  ↔ Forall2 (λ j r, 0 <= j ∧ t !! Z.to_nat j = Some r) new_order t'.
Proof.
  revert t'. induction new_order as [|j new_order IH]; intros t'.
  - split; [intros [= <-]; constructor|by intros ->%Forall2_nil_inv_l].
  - rewrite select_rows_cons. split.
    + destruct (Z.leb_spec 0 j) as [Hj|Hj]; [|done].
      destruct (t !! Z.to_nat j) as [r|] eqn:Er; [|done].
      cbn [mbind option_bind].
      destruct (index_select t new_order) as [rest|]; [|done].
      intros [= <-]. constructor; [done|]. by apply IH.
    + intros (r & rest & [Hj Hr] & Hrest & ->)%Forall2_cons_inv_l.
      apply IH in Hrest. rewrite Hrest, Hr.
      destruct (Z.leb_spec 0 j); [done|lia].
Qed.

Lemma select_rows_length {A} (t : list A) (new_order : list Z) (t' : list A) :
  index_select t new_order = Some t' → length t' = length new_order.
Proof. intros H%select_rows_Some. symmetry. by eapply Forall2_length. Qed.

Lemma select_rows_lookup {A} (t : list A) (new_order : list Z) (t' : list A)
    (k : nat) (j : Z) :
  index_select t new_order = Some t' → new_order !! k = Some j →
  0 <= j ∧ is_Some (t !! Z.to_nat j) ∧ t' !! k = t !! Z.to_nat j.
Proof.
  intros H%select_rows_Some Hk.
  destruct (Forall2_lookup_l _ _ _ _ _ H Hk) as (r & Hr & Hj & Ht).
  rewrite Hr, Ht. eauto.
Qed.

(** It raises exactly when some index is not a slice of the tensor. *)
Lemma select_rows_is_Some {A} (t : list A) (new_order : list Z) :
  is_Some (index_select t new_order) ↔ in_range (length t) new_order.
Proof.
  unfold in_range. induction new_order as [|j new_order IH].
  - split; [constructor|by eexists].
  - rewrite select_rows_cons, Forall_cons, <- IH. split.
    + destruct (Z.leb_spec 0 j) as [Hj|Hj]; [|by intros [? ?]].
      destruct (t !! Z.to_nat j) as [r|] eqn:Er; [|by intros [? ?]].
      apply lookup_lt_Some in Er. cbn [mbind option_bind].
      destruct (index_select t new_order); [|by intros [? ?]].
      intros _. split; [lia|by eexists].
    + intros [Hj [rest ->]].
      destruct (lookup_lt_is_Some_2 t (Z.to_nat j)) as [r ->]; [lia|].
      destruct (Z.leb_spec 0 j); [by eexists|lia].
Qed.

(** Selecting twice is selecting once with the composed order. *)
Lemma select_rows_compose {A} (t t1 : list A) (p q pq : list Z) :
  index_select t p = Some t1 → index_select p q = Some pq →
  index_select t1 q = index_select t pq.
Proof.
  intros Hp. revert pq. induction q as [|j q IH]; intros pq.
  - by intros [= <-].
  - rewrite select_rows_cons.
    destruct (Z.leb_spec 0 j) as [Hj|Hj]; [|done].
    destruct (p !! Z.to_nat j) as [i|] eqn:Ei; [|done].
    cbn [mbind option_bind].
    destruct (index_select p q) as [pq'|]; [|done].
    intros [= <-]. rewrite !select_rows_cons, (IH pq' eq_refl).
    destruct (select_rows_lookup _ _ _ _ _ Hp Ei) as (Hi & _ & ->).
    destruct (Z.leb_spec 0 j); [|lia].
    by destruct (Z.leb_spec 0 i); [|lia].
Qed.

(** The order that leaves every slice in place. *)
Lemma select_rows_identity {A} (t : list A) :
  index_select t (Z.of_nat <$> seq 0 (length t)) = Some t.
Proof.
  apply select_rows_Some. apply Forall2_same_length_lookup_2.
  - by rewrite length_fmap, length_seq.
  - intros k j r Hj Hr. rewrite list_lookup_fmap in Hj.
    destruct (seq 0 (length t) !! k) as [k'|] eqn:Ek; [|done].
    apply lookup_seq in Ek as [-> _]. simplify_eq/=. split; [lia|].
    by rewrite Nat2Z.id.
Qed.

Lemma reorder_encoder_out_Some {A M} (e e' : encoder_dict A M) (new_order : list Z) :
  reorder_encoder_out e new_order = Some e'
  ↔ match encoder_out e with
    | Some (x, y) =>
        ∃ x' y', index_select x new_order = Some x'
                 ∧ index_select y new_order = Some y'
                 ∧ encoder_out e' = Some (x', y')
    | None => encoder_out e' = None
    end
    ∧ match encoder_padding_mask e with
      | Some m => ∃ m', index_select m new_order = Some m'
                        ∧ encoder_padding_mask e' = Some m'
      | None => encoder_padding_mask e' = None
      end.
Proof.
  unfold reorder_encoder_out. destruct e as [out mask], e' as [out' mask'].
  cbn [encoder_out encoder_padding_mask].
  destruct out as [[x y]|], mask as [m|]; cbn [mbind option_bind].
  - destruct (index_select x new_order) as [x'|]; cbn [mbind option_bind].
    2:{ split; [done|]. by intros [(? & ? & ? & _) _]. }
    destruct (index_select y new_order) as [y'|]; cbn [mbind option_bind].
    2:{ split; [done|]. by intros [(? & ? & _ & ? & _) _]. }
    destruct (index_select m new_order) as [m'|];
      cbn [mbind option_bind fmap option_fmap option_map].
    2:{ split; [done|]. by intros [_ (? & ? & _)]. }
    split.
    + intros [= <- <-]. eauto 10.
    + intros [(? & ? & [= <-] & [= <-] & ->) (? & [= <-] & ->)]. done.
  - destruct (index_select x new_order) as [x'|]; cbn [mbind option_bind].
    2:{ split; [done|]. by intros [(? & ? & ? & _) _]. }
    destruct (index_select y new_order) as [y'|]; cbn [mbind option_bind].
    2:{ split; [done|]. by intros [(? & ? & _ & ? & _) _]. }
    split.
    + intros [= <- <-]. eauto 10.
    + intros [(? & ? & [= <-] & [= <-] & ->) ->]. done.
  - destruct (index_select m new_order) as [m'|];
      cbn [mbind option_bind fmap option_fmap option_map].
    2:{ split; [done|]. by intros [_ (? & ? & _)]. }
    split.
    + intros [= <- <-]. eauto 10.
    + intros [-> (? & [= <-] & ->)]. done.
  - split.
    + by intros [= <- <-].
    + by intros [-> ->].
Qed.

(** X4.  When [reorder_encoder_out] returns, every tensor the dictionary
    held is still there with one slice per entry of [new_order], slice [k]
    being the old slice [new_order[k]], in both tensors of ['encoder_out']
    and in the padding mask alike, so that the three stay aligned; an entry
    that was [None] stays [None]. *)
Theorem reorder_encoder_out_selects_rows {A M} (e e' : encoder_dict A M)
    (new_order : list Z) :
  reorder_encoder_out e new_order = Some e' →
  match encoder_out e, encoder_out e' with
  | Some (x, y), Some (x', y') =>
      length x' = length new_order ∧ length y' = length new_order
      ∧ ∀ k j, new_order !! k = Some j →
               0 <= j ∧ is_Some (x' !! k)
               ∧ x' !! k = x !! Z.to_nat j ∧ y' !! k = y !! Z.to_nat j
  | None, None => True
  | _, _ => False
  end
  ∧ match encoder_padding_mask e, encoder_padding_mask e' with
    | Some m, Some m' =>
        length m' = length new_order
        ∧ ∀ k j, new_order !! k = Some j → m' !! k = m !! Z.to_nat j
    | None, None => True
    | _, _ => False
    end.
Proof.
  intros [Hout Hmask]%reorder_encoder_out_Some. split.
  - destruct (encoder_out e) as [[x y]|]; [|by rewrite Hout].
    destruct Hout as (x' & y' & Hx & Hy & ->).
    split_and!; [by eapply select_rows_length..|].
    intros k j Hk.
    destruct (select_rows_lookup _ _ _ _ _ Hx Hk) as (Hj & Hsome & Hxk).
    destruct (select_rows_lookup _ _ _ _ _ Hy Hk) as (_ & _ & Hyk).
    rewrite Hxk. done.
  - destruct (encoder_padding_mask e) as [m|]; [|by rewrite Hmask].
    destruct Hmask as (m' & Hm & ->).
    split; [by eapply select_rows_length|].
    intros k j Hk. by destruct (select_rows_lookup _ _ _ _ _ Hm Hk) as (_ & _ & ?).
Qed.

(** X5.  On a dictionary whose tensors all have [n] slices,
    [reorder_encoder_out] raises exactly when the dictionary holds a tensor
    and some entry of [new_order] is negative or not below [n] (on a
    dictionary with both entries [None] it never raises); and the order
    0, 1, ..., n-1 gives the dictionary back unchanged. *)
Theorem reorder_encoder_out_raises_out_of_range {A M} (n : nat)
    (e : encoder_dict A M) (new_order : list Z) :
  batch_is n e →
  (reorder_encoder_out e new_order = None
   ↔ ¬ in_range n new_order
     ∧ (encoder_out e ≠ None ∨ encoder_padding_mask e ≠ None))
  ∧ reorder_encoder_out e (Z.of_nat <$> seq 0 n) = Some e.
Proof.
  intros [Hout Hmask]. split.
  2:{ apply reorder_encoder_out_Some. split.
      - destruct (encoder_out e) as [[x y]|] eqn:E; [|done].
        destruct (Hout x y eq_refl) as [<- Hy]. exists x, y.
        split_and!; [apply select_rows_identity| |done].
        rewrite <- Hy. apply select_rows_identity.
      - destruct (encoder_padding_mask e) as [m|] eqn:E; [|done].
        exists m. rewrite <- (Hmask m eq_refl).
        split; [apply select_rows_identity|done]. }
  unfold reorder_encoder_out.
  destruct e as [out mask]. cbn [encoder_out encoder_padding_mask] in *.
  assert (Hsel : ∀ B (t : list B), length t = n →
            (index_select t new_order = None ↔ ¬ in_range n new_order)).
  { intros B t <-. rewrite <- select_rows_is_Some, eq_None_not_Some. done. }
  assert (Hok : ∀ B (t t' : list B), length t = n →
            index_select t new_order = Some t' → in_range n new_order).
  { intros B t t' <- Ht. apply select_rows_is_Some. by eexists. }
  assert (Hex : ∀ B (t : list B), length t = n → in_range n new_order →
            ∃ t', index_select t new_order = Some t').
  { intros B t <- Hin. by apply select_rows_is_Some. }
  destruct out as [[x y]|].
  - destruct (Hout x y eq_refl) as [Hx Hy].
    destruct (index_select x new_order) as [x'|] eqn:Ex.
    + pose proof (Hok _ _ _ Hx Ex) as Hin.
      destruct (Hex _ y Hy Hin) as [y' ->]. cbn [mbind option_bind].
      destruct mask as [m|].
      * destruct (Hex _ m (Hmask m eq_refl) Hin) as [m' ->].
        split; [done|]. by intros [Hn _].
      * split; [done|]. by intros [Hn _].
    + apply (Hsel _ x Hx) in Ex. cbn [mbind option_bind].
      split; [|done]. intros _. split; [done|by left].
  - cbn [mbind option_bind]. destruct mask as [m|].
    + destruct (index_select m new_order) as [m'|] eqn:Em;
        cbn [mbind option_bind fmap option_fmap option_map].
      * pose proof (Hok _ _ _ (Hmask m eq_refl) Em) as Hin.
        split; [done|]. by intros [Hn _].
      * apply (Hsel _ m (Hmask m eq_refl)) in Em.
        split; [|done]. intros _. split; [done|by right].
    + split; [done|]. by intros [_ [?|?]].
Qed.

(** X6.  Reordering twice is reordering once with the composed order, the
    first order selected by the second. *)
Theorem reorder_encoder_out_composes {A M} (e e1 : encoder_dict A M)
    (p q pq : list Z) :
  reorder_encoder_out e p = Some e1 → index_select p q = Some pq →
  reorder_encoder_out e1 q = reorder_encoder_out e pq.
Proof.
  intros [Hout Hmask]%reorder_encoder_out_Some Hpq.
  unfold reorder_encoder_out.
  destruct e as [out mask], e1 as [out1 mask1].
  cbn [encoder_out encoder_padding_mask] in *.
  destruct out as [[x y]|].
  - destruct Hout as (x1 & y1 & Hx & Hy & ->).
    rewrite (select_rows_compose _ _ _ _ _ Hx Hpq).
    rewrite (select_rows_compose _ _ _ _ _ Hy Hpq).
    destruct mask as [m|].
    + destruct Hmask as (m1 & Hm & ->).
      by rewrite (select_rows_compose _ _ _ _ _ Hm Hpq).
    + by rewrite Hmask.
  - rewrite Hout. destruct mask as [m|].
    + destruct Hmask as (m1 & Hm & ->).
      by rewrite (select_rows_compose _ _ _ _ _ Hm Hpq).
    + by rewrite Hmask.
Qed.

(** X7.  The method of [Code2SeqEncoder] on the tensor its own [forward]
    returns (one row of width [d] per example) does not select examples: it
    returns exactly when there are at least two examples and every entry of
    [new_order] is a column of a row, and then the pair it returns holds, at
    position [k], entry [new_order[k]] of the row of the first example and of
    the row of the second; the other examples do not occur in it. *)
Theorem reorder_encoder_out_tensor_selects_columns (d : nat)
    (encoder_out : list Code2Seq.vec) (new_order : list Z) :
  Forall (λ row, length row = d) encoder_out →
  (is_Some (reorder_encoder_out_tensor encoder_out new_order)
   ↔ (2 <= length encoder_out)%nat ∧ in_range d new_order)
  ∧ ∀ x y, reorder_encoder_out_tensor encoder_out new_order = Some (x, y) →
      length x = length new_order ∧ length y = length new_order
      ∧ ∀ k j, new_order !! k = Some j →
               x !! k = encoder_out !! 0%nat ≫= (λ row, row !! Z.to_nat j)
               ∧ y !! k = encoder_out !! 1%nat ≫= (λ row, row !! Z.to_nat j).
Proof.
  intros Hd. unfold reorder_encoder_out_tensor.
  destruct encoder_out as [|r0 [|r1 rest]].
  - split; [|done]. split; [by intros [? ?]|simpl; lia].
  - split.
    + split; [|simpl; lia]. cbn [lookup list_lookup mbind option_bind].
      destruct (index_select r0 new_order); by intros [? ?].
    + cbn [lookup list_lookup mbind option_bind].
      by destruct (index_select r0 new_order).
  - apply Forall_cons in Hd as [H0 Hd]. apply Forall_cons in Hd as [H1 _].
    cbn [lookup list_lookup mbind option_bind]. split.
    + rewrite <- H0 at 1. rewrite <- select_rows_is_Some. split.
      * destruct (index_select r0 new_order); [|by intros [? ?]].
        intros _. split; [simpl; lia|by eexists].
      * intros [_ [x Hx]]. rewrite Hx. cbn [mbind option_bind].
        destruct (proj2 (select_rows_is_Some r1 new_order)) as [y ->];
          [|by eexists].
        rewrite H1, <- H0. apply select_rows_is_Some. by eexists.
    + intros x y.
      destruct (index_select r0 new_order) as [x'|] eqn:Ex; [|done].
      cbn [mbind option_bind].
      destruct (index_select r1 new_order) as [y'|] eqn:Ey; [|done].
      intros [= <- <-].
      split_and!; [by eapply select_rows_length..|].
      intros k j Hk.
      destruct (select_rows_lookup _ _ _ _ _ Ex Hk) as (_ & _ & Hxk).
      destruct (select_rows_lookup _ _ _ _ _ Ey Hk) as (_ & _ & Hyk).
      done.
Qed.

End ReorderProps.

Lemma reorder_encoder_out_selects_rows_witness :
  let e := {| Reorder.encoder_out := Some ([10; 20; 30], [11; 21; 31]);
              Reorder.encoder_padding_mask := Some [true; false; false] |} in
  let e' := {| Reorder.encoder_out := Some ([30; 10; 10], [31; 11; 11]);
               Reorder.encoder_padding_mask := Some [false; true; true] |} in
  Reorder.reorder_encoder_out e [2; 0; 0] = Some e'
  ∧ ∀ k j, [2; 0; 0] !! k = Some j → [false; true; true] !! k
                                      = [true; false; false] !! Z.to_nat j.
Proof.
  intros e e'. split; [reflexivity|].
  exact (proj2 (proj2 (reorder_encoder_out_selects_rows e e' [2; 0; 0] eq_refl))).
Defined.

Lemma reorder_encoder_out_raises_out_of_range_witness :
  let e := {| Reorder.encoder_out := Some ([10; 20; 30], [11; 21; 31]);
              Reorder.encoder_padding_mask := @None (list bool) |} in
  Reorder.batch_is 3 e
  ∧ Reorder.reorder_encoder_out e [0; 3] = None
  ∧ Reorder.reorder_encoder_out e [0; 1; 2] = Some e.
Proof.
  intros e.
  assert (Hb : Reorder.batch_is 3 e).
  { split; [by intros x y [= <- <-]|by intros m [=]]. }
  destruct (reorder_encoder_out_raises_out_of_range 3 e [0; 3] Hb) as [Hnone Hid].
  split_and!; [done| |exact Hid].
  apply Hnone. split; [|by left].
  intros Hin. apply Forall_cons in Hin as [_ Hin].
  apply Forall_cons in Hin as [H3 _]. lia.
Defined.

Lemma reorder_encoder_out_composes_witness :
  let e := {| Reorder.encoder_out := Some ([10; 20; 30], [11; 21; 31]);
              Reorder.encoder_padding_mask := Some [true; false; false] |} in
  let e1 := {| Reorder.encoder_out := Some ([30; 10; 10], [31; 11; 11]);
               Reorder.encoder_padding_mask := Some [false; true; true] |} in
  Reorder.reorder_encoder_out e [2; 0; 0] = Some e1
  ∧ Reorder.index_select [2; 0; 0] [1; 0] = Some [0; 2]
  ∧ Reorder.reorder_encoder_out e1 [1; 0] = Reorder.reorder_encoder_out e [0; 2].
Proof.
  intros e e1. split_and!; [reflexivity|reflexivity|].
  exact (reorder_encoder_out_composes e e1 [2; 0; 0] [1; 0] [0; 2]
           eq_refl eq_refl).
Defined.

Lemma reorder_encoder_out_tensor_selects_columns_witness :
  Forall (λ row : Code2Seq.vec, length row = 2%nat) [[1; 2]; [3; 4]; [5; 6]]%Q
  ∧ Reorder.reorder_encoder_out_tensor [[1; 2]; [3; 4]; [5; 6]]%Q [1; 0; 1]
    = Some ([2; 1; 2], [4; 3; 4])%Q
  ∧ (is_Some (Reorder.reorder_encoder_out_tensor [[1; 2]; [3; 4]; [5; 6]]%Q [0; 1; 2])
     ↔ (2 <= 3)%nat ∧ Reorder.in_range 2 [0; 1; 2]).
Proof.
  assert (Hd : Forall (λ row : Code2Seq.vec, length row = 2%nat)
                 [[1; 2]; [3; 4]; [5; 6]]%Q) by (by repeat constructor).
  split_and!; [done|reflexivity|].
  exact (proj1 (reorder_encoder_out_tensor_selects_columns 2 _ [0; 1; 2] Hd)).
Defined.

(** ** The multi-context encoder *)

Section MultiContextProps.
Import ContextEncoder MultiContextEncoder.

Lemma chunks_concat (e : nat) (rows : list (list Q)) :
  Forall (λ r, length r = e) rows → chunks (length rows) e (concat rows) = rows.
Proof.
  induction 1 as [|r rows Hr _ IH]; [done|].
  cbn [length chunks concat]. rewrite take_app_length', drop_app_length' by done.
  by rewrite IH.
Qed.

Lemma concat_length_uniform (e : nat) (rows : list (list Q)) :
  Forall (λ r, length r = e) rows → length (concat rows) = (length rows * e)%nat.
Proof.
  induction 1 as [|r rows Hr _ IH]; [done|].
  cbn [length concat]. rewrite length_app, IH. lia.
Qed.

Lemma view_rows (b e : nat) (rows : list (list Q)) :
  length rows = b → Forall (λ r, length r = e) rows →
  view (Code2Seq.Rows rows) (Z.of_nat b) (Z.of_nat e) = Some ((λ v, [v]) <$> rows).
Proof.
  intros Hb He. unfold view. cbn [elements].
  rewrite (concat_length_uniform e rows He), Hb.
  rewrite (proj2 (Z.eqb_eq _ _)) by lia.
  rewrite !Nat2Z.id, <- Hb. by rewrite (chunks_concat e rows He).
Qed.

Lemma cat1_position (b e : nat) (t : tensor3) (ctx : list (list Q)) :
  length t = b →
  Forall (λ row, row ≠ [] ∧ Forall (λ v : list Q, length v = e) row) t →
  length ctx = b → Forall (λ r, length r = e) ctx →
  size2 t = Z.of_nat (match b with O => O | _ => e end)
  ∧ cat1 t ((λ v, [v]) <$> ctx) = Some (zip_with (λ row c, row ++ [c]) t ctx).
Proof.
  intros Hb Ht Hc He.
  assert (Hsize : size2 t = Z.of_nat (match b with O => O | _ => e end)).
  { destruct t as [|[|v row] t]; simpl in Hb; subst b; [done| |].
    - by apply Forall_cons in Ht as [[? _] _].
    - apply Forall_cons in Ht as [[_ Hv] _].
      apply Forall_cons in Hv as [<- _]. done. }
  split; [done|]. unfold cat1. rewrite decide_True.
  - f_equal. rewrite zip_with_fmap_r. apply zip_with_ext; [|done|done].
    done.
  - split; [by rewrite length_fmap, Hb, Hc|].
    rewrite Hsize. destruct b as [|b].
    { destruct t; [|done]. destruct ctx; [|done]. constructor. }
    apply Forall_app. split.
    + eapply Forall_impl; [exact Ht|]. intros row [_ Hrow].
      eapply Forall_impl; [exact Hrow|]. intros v ->. done.
    + apply Forall_fmap. eapply Forall_impl; [exact He|].
      intros v <-. by repeat constructor.
Qed.

Lemma zip_with_constant {A B C} (f : A → B → C) (l : list A) (c : B) :
  zip_with f l (replicate (length l) c) = (λ x, f x c) <$> l.
Proof. induction l as [|x l IH]; [done|]. simpl. by rewrite IH. Qed.

Section Forward.
Context {rng : Type}.
Variable input_encoder : rng → list (list Z) → list Z → encoder_output * rng.
Variable embed_dim : nat.
Variables leaf_pad leaf_path path_path : Z.
Variables max_leaf_positions max_path_positions : Z.
Variables leaf_embedding path_embedding : Z → Code2Seq.vec.
Variable path_bilstm : list Code2Seq.vec → Code2Seq.vec.
Variable fc_tanh : Code2Seq.vec → Code2Seq.vec.
Variables (g : rng) (src_tokens : list (list Z)) (src_lengths : list Z).
Variables (start_leaf_tokens : list (list Z)) (start_leaf_lengths : list Z).
Variables (end_leaf_tokens : list (list Z)) (end_leaf_lengths : list Z).
Variables (path_tokens : list (list Z)) (path_lengths : list Z).

Local Abbreviation src_output := (input_encoder g src_tokens src_lengths).
Local Abbreviation context_forward :=
  (Code2Seq.forward embed_dim leaf_pad leaf_path path_path max_leaf_positions
     max_path_positions leaf_embedding path_embedding path_bilstm fc_tanh
     start_leaf_tokens start_leaf_lengths end_leaf_tokens end_leaf_lengths
     path_tokens path_lengths).
Local Abbreviation multi_forward :=
  (forward rng input_encoder embed_dim leaf_pad leaf_path path_path
     max_leaf_positions max_path_positions leaf_embedding path_embedding
     path_bilstm fc_tanh g src_tokens src_lengths
     start_leaf_tokens start_leaf_lengths end_leaf_tokens end_leaf_lengths
     path_tokens path_lengths).

(** With an input encoder output of [b] examples and width [e] and a context
    encoder output of [b] rows of width [e], [forward] puts row [i] of the
    context output behind the positions of example [i]. *)
Lemma forward_rows (e : nat) (ctx : list (list Q)) :
  well_shaped (length src_tokens) e src_output.1 →
  context_forward = Some (Code2Seq.Rows ctx) →
  length ctx = length src_tokens → Forall (λ r, length r = e) ctx →
  multi_forward
  = Some ({| encoder_out :=
               (zip_with (λ row c, row ++ [c]) (encoder_out src_output.1).1 ctx,
                zip_with (λ row c, row ++ [c]) (encoder_out src_output.1).2 ctx);
             encoder_padding_mask :=
               fmap (M:=list) (λ row, row ++ [false])
                 <$> encoder_padding_mask src_output.1 |},
          src_output.2).
Proof.
  intros ((Hxb & Hx) & (Hyb & Hy) & Hm) Hctx Hb He. unfold forward.
  destruct src_output as [out g'] eqn:Eout. cbn [fst snd] in *.
  rewrite Hctx. cbn [mbind option_bind].
  destruct (cat1_position _ e _ ctx Hxb Hx Hb He) as [Hsize Hcatx].
  destruct (cat1_position _ e _ ctx Hyb Hy Hb He) as [_ Hcaty].
  assert (Hview : view (Code2Seq.Rows ctx) (size0 src_tokens) (size2 (encoder_out out).1)
                  = Some ((λ v, [v]) <$> ctx)).
  { rewrite Hsize. unfold size0. destruct (length src_tokens) as [|b] eqn:Eb.
    - destruct ctx; [|done]. reflexivity.
    - by apply view_rows. }
  assert (Hmask : match encoder_padding_mask out with
                  | None => Some None
                  | Some mask => Some <$> cat_zeros mask (size0 src_tokens)
                  end
                  = Some (fmap (M:=list) (λ row, row ++ [false])
                            <$> encoder_padding_mask out)).
  { destruct (encoder_padding_mask out) as [mask|]; [|done].
    unfold cat_zeros, size0. rewrite decide_True by (by rewrite (Hm mask eq_refl)).
    done. }
  rewrite Hmask. cbn [mbind option_bind]. rewrite Hview. cbn [mbind option_bind].
  rewrite Hcatx. cbn [mbind option_bind]. rewrite Hcaty. done.
Qed.

(** X8.  When the input encoder returns tensors of [b] examples and width
    [e] and the context encoder returns [b] rows of width [e], [forward]
    returns, and example [i] gets one more position in both output tensors,
    behind its own positions, holding row [i] of the context output; in the
    padding mask, if there is one, that position is not marked as padding;
    the generator state is the one the input encoder left. *)
Theorem forward_appends_context_vector (e : nat) (ctx : list (list Q)) :
  well_shaped (length src_tokens) e src_output.1 →
  context_forward = Some (Code2Seq.Rows ctx) →
  length ctx = length src_tokens → Forall (λ r, length r = e) ctx →
  ∃ out,
    multi_forward = Some (out, src_output.2)
    ∧ (∀ i row c, (encoder_out src_output.1).1 !! i = Some row → ctx !! i = Some c →
                  (encoder_out out).1 !! i = Some (row ++ [c]))
    ∧ (∀ i row c, (encoder_out src_output.1).2 !! i = Some row → ctx !! i = Some c →
                  (encoder_out out).2 !! i = Some (row ++ [c]))
    ∧ match encoder_padding_mask src_output.1, encoder_padding_mask out with
      | Some mask, Some mask' =>
          ∀ i row, mask !! i = Some row → mask' !! i = Some (row ++ [false])
      | None, None => True
      | _, _ => False
      end.
Proof.
  intros Hshape Hctx Hb He.
  rewrite (forward_rows e ctx Hshape Hctx Hb He).
  eexists. split; [reflexivity|].
  cbn [encoder_out encoder_padding_mask fst snd]. split_and!.
  - intros i row c Hrow Hc. apply lookup_zip_with_Some. eauto.
  - intros i row c Hrow Hc. apply lookup_zip_with_Some. eauto.
  - destruct (encoder_padding_mask src_output.1) as [mask|]; [|done].
    cbn [fmap option_fmap option_map].
    intros i row Hrow.
    change (((λ r : list bool, r ++ [false]) <$> mask) !! i = Some (row ++ [false])).
    apply list_lookup_fmap_Some. eauto.
Qed.

(** X9.  On a batch that the context encoder rejects (delimiter counts that
    differ between the streams, or a stream without delimiter), with as many
    context rows as source rows and an input encoder of the width the
    context encoder was built with, [forward] still returns: every example
    gets the zero vector as its additional position, in both tensors, and the
    padding mask does not mark it. *)
Theorem forward_appends_zero_vector_when_rejected :
  well_shaped (length src_tokens) embed_dim src_output.1 →
  length start_leaf_tokens = length src_tokens →
  Code2Seq.rejected
    (Code2Seq.nonzero (Code2Seq.eq_mask start_leaf_tokens leaf_path))
    (Code2Seq.nonzero (Code2Seq.eq_mask end_leaf_tokens leaf_path))
    (Code2Seq.nonzero (Code2Seq.eq_mask path_tokens path_path)) = true →
  multi_forward
  = Some ({| encoder_out :=
               ((λ row, row ++ [Code2Seq.vzeros embed_dim])
                  <$> (encoder_out src_output.1).1,
                (λ row, row ++ [Code2Seq.vzeros embed_dim])
                  <$> (encoder_out src_output.1).2);
             encoder_padding_mask :=
               fmap (M:=list) (λ row, row ++ [false])
                 <$> encoder_padding_mask src_output.1 |},
          src_output.2).
Proof.
  intros Hshape Hb Hrej.
  assert (Hctx : context_forward
                 = Some (Code2Seq.Rows (replicate (length start_leaf_tokens)
                                                  (Code2Seq.vzeros embed_dim)))).
  { unfold Code2Seq.forward. cbn zeta. by rewrite Hrej. }
  rewrite (forward_rows embed_dim _ Hshape Hctx).
  - destruct Hshape as ((Hxb & _) & (Hyb & _) & _).
    pose proof (zip_with_constant (λ (row : list (list Q)) c, row ++ [c])
                  (encoder_out src_output.1).1 (Code2Seq.vzeros embed_dim)) as Hzx.
    pose proof (zip_with_constant (λ (row : list (list Q)) c, row ++ [c])
                  (encoder_out src_output.1).2 (Code2Seq.vzeros embed_dim)) as Hzy.
    rewrite Hxb in Hzx. rewrite Hyb in Hzy. rewrite Hb.
    exact (f_equal2 (λ x y, Some ({| encoder_out := (x, y);
                                     encoder_padding_mask := _ |}, _)) Hzx Hzy).
  - by rewrite length_replicate.
  - apply Forall_replicate. unfold Code2Seq.vzeros. by rewrite length_replicate.
Qed.

End Forward.
End MultiContextProps.

Lemma forward_appends_context_vector_witness :
  let src_tokens := [[1; 5]; [6; 7]] in
  let src_output := MultiContextEncoder.toy_input_encoder tt src_tokens [1; 2] in
  let ctx := [[4 # 4; 4 # 4]; [1 # 2; 1 # 2]]%Q in
  MultiContextEncoder.well_shaped (length src_tokens) 2 src_output.1
  ∧ Code2Seq.forward 2 1 4 4 128 128 Code2Seq.toy_embedding Code2Seq.toy_embedding
      (Code2Seq.zero_bilstm 2) Code2Seq.half_fc_tanh
      Code2Seq.toy_tokens Code2Seq.toy_lengths Code2Seq.toy_tokens Code2Seq.toy_lengths
      Code2Seq.toy_tokens Code2Seq.toy_lengths
    = Some (Code2Seq.Rows ctx)
  ∧ ∃ out,
      MultiContextEncoder.forward unit MultiContextEncoder.toy_input_encoder
        2 1 4 4 128 128 Code2Seq.toy_embedding Code2Seq.toy_embedding
        (Code2Seq.zero_bilstm 2) Code2Seq.half_fc_tanh tt src_tokens [1; 2]
        Code2Seq.toy_tokens Code2Seq.toy_lengths Code2Seq.toy_tokens Code2Seq.toy_lengths
        Code2Seq.toy_tokens Code2Seq.toy_lengths
      = Some (out, tt)
      ∧ (ContextEncoder.encoder_out out).1 !! 1%nat
        = Some ([[6; 1]; [7; 1]] ++ [[1 # 2; 1 # 2]])%Q.
Proof.
  intros src_tokens src_output ctx.
  assert (Hshape : MultiContextEncoder.well_shaped (length src_tokens) 2 src_output.1).
  { split_and!; [done|by repeat constructor|done|by repeat constructor|].
    by intros mask [= <-]. }
  assert (Hctx : Code2Seq.forward 2 1 4 4 128 128 Code2Seq.toy_embedding
                   Code2Seq.toy_embedding (Code2Seq.zero_bilstm 2) Code2Seq.half_fc_tanh
                   Code2Seq.toy_tokens Code2Seq.toy_lengths Code2Seq.toy_tokens
                   Code2Seq.toy_lengths Code2Seq.toy_tokens Code2Seq.toy_lengths
                 = Some (Code2Seq.Rows ctx)) by (vm_compute; reflexivity).
  split_and!; [exact Hshape|exact Hctx|].
  destruct (forward_appends_context_vector MultiContextEncoder.toy_input_encoder
              2 1 4 4 128 128 Code2Seq.toy_embedding Code2Seq.toy_embedding
              (Code2Seq.zero_bilstm 2) Code2Seq.half_fc_tanh tt src_tokens [1; 2]
              Code2Seq.toy_tokens Code2Seq.toy_lengths Code2Seq.toy_tokens
              Code2Seq.toy_lengths Code2Seq.toy_tokens Code2Seq.toy_lengths
              2%nat ctx Hshape Hctx eq_refl)
    as (out & Hout & Hx & _).
  { by repeat constructor. }
  exists out. split; [exact Hout|].
  exact (Hx 1%nat _ _ eq_refl eq_refl).
Defined.

Lemma forward_appends_zero_vector_when_rejected_witness :
  let src_tokens := [[1; 5]; [6; 7]] in
  let src_output := MultiContextEncoder.toy_input_encoder tt src_tokens [1; 2] in
  let no_delimiter := [[10; 11; 12; 13]; [1; 1; 13; 14]] in
  MultiContextEncoder.well_shaped (length src_tokens) 2 src_output.1
  ∧ Code2Seq.rejected
      (Code2Seq.nonzero (Code2Seq.eq_mask Code2Seq.toy_tokens 4))
      (Code2Seq.nonzero (Code2Seq.eq_mask no_delimiter 4))
      (Code2Seq.nonzero (Code2Seq.eq_mask Code2Seq.toy_tokens 4)) = true
  ∧ MultiContextEncoder.forward unit MultiContextEncoder.toy_input_encoder
      2 1 4 4 128 128 Code2Seq.toy_embedding Code2Seq.toy_embedding
      (Code2Seq.zero_bilstm 2) Code2Seq.half_fc_tanh tt src_tokens [1; 2]
      Code2Seq.toy_tokens Code2Seq.toy_lengths no_delimiter Code2Seq.toy_lengths
      Code2Seq.toy_tokens Code2Seq.toy_lengths
    = Some ({| ContextEncoder.encoder_out :=
                 ([[[1; 1]; [5; 1]; [0; 0]]; [[6; 1]; [7; 1]; [0; 0]]]%Q,
                  [[[1; 2]; [5; 2]; [0; 0]]; [[6; 2]; [7; 2]; [0; 0]]]%Q);
               ContextEncoder.encoder_padding_mask :=
                 Some [[true; false; false]; [false; false; false]] |}, tt).
Proof.
  intros src_tokens src_output no_delimiter.
  assert (Hshape : MultiContextEncoder.well_shaped (length src_tokens) 2 src_output.1).
  { split_and!; [done|by repeat constructor|done|by repeat constructor|].
    by intros mask [= <-]. }
  split_and!; [exact Hshape|reflexivity|].
  exact (forward_appends_zero_vector_when_rejected MultiContextEncoder.toy_input_encoder
           2 1 4 4 128 128 Code2Seq.toy_embedding Code2Seq.toy_embedding
           (Code2Seq.zero_bilstm 2) Code2Seq.half_fc_tanh tt src_tokens [1; 2]
           Code2Seq.toy_tokens Code2Seq.toy_lengths no_delimiter Code2Seq.toy_lengths
           Code2Seq.toy_tokens Code2Seq.toy_lengths Hshape eq_refl eq_refl).
Defined.

(** ** Batching *)

Section CollateProps.
Import Dataset Collate.

#[local] Existing Instance by_key_desc_total.

Lemma index_select_rows {A} (t t' : list A) (order : list nat) (k j : nat) :
  Code2Seq.index_select t order = Some t' → order !! k = Some j →
  is_Some (t !! j) ∧ t' !! k = t !! j.
Proof.
  unfold Code2Seq.index_select. intros Hsel%mapM_Some Hk.
  destruct (Forall2_lookup_l _ _ _ _ _ Hsel Hk) as (x & Hx & Hj).
  rewrite Hx, Hj. eauto.
Qed.

Ltac step H :=
  match type of H with
  | (?m ≫= _) = Some _ =>
      let E := fresh "E" in
      destruct m eqn:E; cbn [mbind option_bind] in H; [|discriminate H]
  end.

Section Collate.
Variable collate_tokens :
  list (list Z) → Z → Z → bool → bool → option (list (list Z)).

(** What [collate] returns: the sorted source lengths, and every other field
    selected by the sort order. *)
Lemma collate_fields (samples : list item)
    (pad_idx eos_idx : Z) (left_pad_source left_pad_target input_feeding : bool)
    (b : batch) :
  collate collate_tokens samples pad_idx eos_idx left_pad_source left_pad_target
          input_feeding = Some (Some b) →
  let n := batch_net_input b in
  StronglySorted (λ a a', a' <= a) (src_lengths n)
  ∧ ∃ sort_order src_rows start_rows end_rows path_rows,
      sort_order ≡ₚ seq 0 (length samples)
      ∧ collate_tokens (source <$> samples) pad_idx eos_idx left_pad_source false
        = Some src_rows
      ∧ collate_tokens (start_leaf <$> samples) pad_idx eos_idx left_pad_source false
        = Some start_rows
      ∧ collate_tokens (end_leaf <$> samples) pad_idx eos_idx left_pad_source false
        = Some end_rows
      ∧ collate_tokens (path_item <$> samples) pad_idx eos_idx left_pad_source false
        = Some path_rows
      ∧ ∀ k j, sort_order !! k = Some j →
          ∃ s, samples !! j = Some s
               ∧ batch_id b !! k = Some (id s)
               ∧ src_lengths n !! k = Some (numel (source s))
               ∧ start_leaf_lengths n !! k = Some (numel (start_leaf s))
               ∧ end_leaf_lengths n !! k = Some (numel (end_leaf s))
               ∧ path_lengths n !! k = Some (numel (path_item s))
               ∧ is_Some (src_rows !! j) ∧ src_tokens n !! k = src_rows !! j
               ∧ is_Some (start_rows !! j) ∧ start_leaf_tokens n !! k = start_rows !! j
               ∧ is_Some (end_rows !! j) ∧ end_leaf_tokens n !! k = end_rows !! j
               ∧ is_Some (path_rows !! j) ∧ path_tokens n !! k = path_rows !! j.
Proof.
  unfold collate. destruct samples as [|first rest] eqn:Esamples; [done|].
  rewrite <- Esamples. intros H.
  do 4 step H.
  destruct (Code2Seq.sort_descending ((λ s, numel (source s)) <$> samples))
    as [lens sort_order] eqn:Esort.
  do 8 step H.
  step H. destruct p as [[target prev] ntok].
  injection H as <-. cbn [batch_net_input src_lengths batch_id start_leaf_lengths
    end_leaf_lengths path_lengths src_tokens start_leaf_tokens end_leaf_tokens
    path_tokens].
  assert (Hlens : lens = (Code2Seq.sort_descending ((λ s, numel (source s)) <$> samples)).1)
    by by rewrite Esort.
  assert (Horder : sort_order
                   = (Code2Seq.sort_descending ((λ s, numel (source s)) <$> samples)).2)
    by by rewrite Esort.
  split; [rewrite Hlens; apply sort_descending_sorted|].
  exists sort_order, l, l0, l1, l2. split_and!; [|done..|].
  { rewrite Horder, sort_descending_perm. by rewrite length_fmap. }
  intros k j Hk.
  destruct (index_select_rows _ _ _ _ _ E3 Hk) as [[i Hi] Hid].
  rewrite list_lookup_fmap in Hi.
  destruct (samples !! j) as [s|] eqn:Es; [|done]. cbn in Hi.
  exists s. split; [done|].
  destruct (index_select_rows _ _ _ _ _ E4 Hk) as [? ?].
  destruct (index_select_rows _ _ _ _ _ E5 Hk) as [? ?].
  destruct (index_select_rows _ _ _ _ _ E6 Hk) as [_ Hsl].
  destruct (index_select_rows _ _ _ _ _ E7 Hk) as [? ?].
  destruct (index_select_rows _ _ _ _ _ E8 Hk) as [_ Hel].
  destruct (index_select_rows _ _ _ _ _ E9 Hk) as [? ?].
  destruct (index_select_rows _ _ _ _ _ E10 Hk) as [_ Hpl].
  rewrite list_lookup_fmap, Es in Hid. rewrite list_lookup_fmap, Es in Hsl.
  rewrite list_lookup_fmap, Es in Hel. rewrite list_lookup_fmap, Es in Hpl.
  split_and!; try done.
  assert (Hlk : is_Some (lens !! k)).
  { apply lookup_lt_is_Some. rewrite Hlens.
    destruct (sort_descending_length ((λ s, numel (source s)) <$> samples))
      as [-> Hl2].
    rewrite <- Hl2, <- Horder. by eapply lookup_lt_Some. }
  destruct Hlk as [a Ha]. rewrite Ha. f_equal.
  rewrite Hlens in Ha. rewrite Horder in Hk.
  pose proof (sort_descending_lookup _ _ _ _ Ha Hk) as Hlook.
  rewrite list_lookup_fmap, Es in Hlook. by injection Hlook.
Qed.

(** X10.  When [collate] returns a batch, the source lengths it holds are in
    non-increasing order, and one permutation of the samples explains every
    field of the batch: with [sort_order[k] = j], position [k] of the ids and
    of the four length tensors holds the id and the token counts of sample
    [j], and row [k] of the four token tensors is row [j] of what
    [collate_tokens] returned for that field, so a row, its length and its id
    always belong to the same sample. *)
Theorem collate_sorts_and_keeps_fields_aligned (samples : list item)
    (pad_idx eos_idx : Z) (left_pad_source left_pad_target input_feeding : bool)
    (b : batch) :
  collate collate_tokens samples pad_idx eos_idx left_pad_source left_pad_target
          input_feeding = Some (Some b) →
  let n := batch_net_input b in
  StronglySorted (λ a a', a' <= a) (src_lengths n)
  ∧ ∃ sort_order src_rows start_rows end_rows path_rows,
      sort_order ≡ₚ seq 0 (length samples)
      ∧ collate_tokens (source <$> samples) pad_idx eos_idx left_pad_source false
        = Some src_rows
      ∧ collate_tokens (start_leaf <$> samples) pad_idx eos_idx left_pad_source false
        = Some start_rows
      ∧ collate_tokens (end_leaf <$> samples) pad_idx eos_idx left_pad_source false
        = Some end_rows
      ∧ collate_tokens (path_item <$> samples) pad_idx eos_idx left_pad_source false
        = Some path_rows
      ∧ ∀ k j, sort_order !! k = Some j →
          ∃ s, samples !! j = Some s
               ∧ batch_id b !! k = Some (id s)
               ∧ src_lengths n !! k = Some (numel (source s))
               ∧ start_leaf_lengths n !! k = Some (numel (start_leaf s))
               ∧ end_leaf_lengths n !! k = Some (numel (end_leaf s))
               ∧ path_lengths n !! k = Some (numel (path_item s))
               ∧ is_Some (src_rows !! j) ∧ src_tokens n !! k = src_rows !! j
               ∧ is_Some (start_rows !! j) ∧ start_leaf_tokens n !! k = start_rows !! j
               ∧ is_Some (end_rows !! j) ∧ end_leaf_tokens n !! k = end_rows !! j
               ∧ is_Some (path_rows !! j) ∧ path_tokens n !! k = path_rows !! j.
Proof. apply collate_fields. Qed.

(** X11.  What [collate] counts.  When it returns a batch, [nsentences] is
    the number of tokens of the source of the first sample given, whatever
    the number of samples.  If the first sample has a target, every sample
    has one, the batch has a target tensor, [ntokens] is the number of target
    tokens of all samples, and the shifted targets are there exactly when
    [input_feeding] is set; if the first sample has none, the batch has
    neither, and [ntokens] is the number of source tokens of all samples. *)
Theorem collate_counts_tokens (samples : list item)
    (pad_idx eos_idx : Z) (left_pad_source left_pad_target input_feeding : bool)
    (b : batch) :
  collate collate_tokens samples pad_idx eos_idx left_pad_source left_pad_target
          input_feeding = Some (Some b) →
  ∃ first rest,
    samples = first :: rest
    ∧ nsentences b = numel (source first)
    ∧ match target first with
      | Some _ =>
          ∃ targets,
            Forall2 (λ s t, target s = Some t) samples targets
            ∧ ntokens b = Code2Seq.total (numel <$> targets)
            ∧ is_Some (batch_target b)
            ∧ (is_Some (prev_output_tokens (batch_net_input b))
               ↔ input_feeding = true)
      | None =>
          ntokens b = Code2Seq.total ((λ s, numel (source s)) <$> samples)
          ∧ batch_target b = None
          ∧ prev_output_tokens (batch_net_input b) = None
      end.
Proof.
  unfold collate. destruct samples as [|first rest] eqn:Esamples; [done|].
  rewrite <- Esamples. intros H. exists first, rest. split; [done|].
  do 4 step H.
  destruct (Code2Seq.sort_descending ((λ s, numel (source s)) <$> samples))
    as [lens sort_order] eqn:Esort.
  do 8 step H.
  destruct (target first) as [t0|] eqn:Et.
  - step H. destruct p as [[tgt prev] ntok]. injection H as <-.
    cbn [nsentences ntokens batch_target batch_net_input prev_output_tokens].
    split; [done|].
    step E11. step E11. step E11.
    exists l11. split; [by apply mapM_Some|].
    destruct input_feeding.
    + step E11. step E11. injection E11 as <- <- <-.
      split_and!; [done|by eexists|]. split; [done|by eexists].
    + injection E11 as <- <- <-.
      split_and!; [done|by eexists|]. split; [by intros [? ?]|done].
  - cbn [mbind option_bind] in H. injection H as <-.
    cbn [nsentences ntokens batch_target batch_net_input prev_output_tokens].
    done.
Qed.

(** Rows and lengths selected by one order from the left-padded rows of a
    field and from its token counts satisfy what [_split_seq] expects. *)
Lemma selected_rows_left_padded (key : item → list Z) (samples : list item)
    (pad_idx delim : Z) (sort_order : list nat)
    (tokens : list (list Z)) (lengths : list Z) :
  pad_idx ≠ delim →
  Code2Seq.index_select (left_pad_rows pad_idx (key <$> samples)) sort_order
  = Some tokens →
  Code2Seq.index_select ((λ s, numel (key s)) <$> samples) sort_order = Some lengths →
  Forall2 (Code2Seq.left_padded delim (Code2Seq.size1 tokens)) tokens lengths.
Proof.
  intros Hpad Htok Hlen.
  set (size := max_list (length <$> (key <$> samples))).
  assert (Hrow : ∀ k row len, tokens !! k = Some row → lengths !! k = Some len →
            ∃ s, (length (key s) <= size)%nat
                 ∧ row = replicate (size - length (key s)) pad_idx ++ key s
                 ∧ len = numel (key s)).
  { intros k row len Hk Hl.
    destruct (lookup_lt_is_Some_2 sort_order k) as [j Hj].
    { apply mapM_Some, Forall2_length in Htok. rewrite Htok.
      by eapply lookup_lt_Some. }
    destruct (index_select_rows _ _ _ _ _ Htok Hj) as [_ Hr].
    destruct (index_select_rows _ _ _ _ _ Hlen Hj) as [_ Hn].
    rewrite Hk in Hr. rewrite Hl in Hn. unfold left_pad_rows in Hr.
    rewrite !list_lookup_fmap in Hr. rewrite list_lookup_fmap in Hn.
    destruct (samples !! j) as [s|] eqn:Es; [|done].
    cbn in Hr, Hn. injection Hr as Hr. injection Hn as Hn.
    exists s. split_and!; [|exact Hr|exact Hn].
    apply max_list_elem_of_le. apply list_elem_of_fmap. exists (key s).
    split; [done|]. apply list_elem_of_fmap. exists s. split; [done|].
    by eapply list_elem_of_lookup_2. }
  assert (Hlenrow : ∀ k row, tokens !! k = Some row → length row = size).
  { intros k row Hk.
    destruct (lookup_lt_is_Some_2 lengths k) as [len Hl].
    { apply mapM_Some, Forall2_length in Htok.
      apply mapM_Some, Forall2_length in Hlen. rewrite <- Hlen, Htok.
      by eapply lookup_lt_Some. }
    destruct (Hrow k row len Hk Hl) as (s & Hs & -> & _).
    rewrite length_app, length_replicate. lia. }
  assert (Hsize : tokens ≠ [] → Code2Seq.size1 tokens = Z.of_nat size).
  { destruct tokens as [|row0 tokens']; [done|]. intros _.
    cbn [Code2Seq.size1]. by rewrite (Hlenrow 0%nat row0 eq_refl). }
  apply Forall2_same_length_lookup_2.
  { apply mapM_Some, Forall2_length in Htok.
    apply mapM_Some, Forall2_length in Hlen. congruence. }
  intros k row len Hk Hl.
  destruct (Hrow k row len Hk Hl) as (s & Hs & -> & ->).
  rewrite Hsize by (intros ->; done). unfold Code2Seq.left_padded, numel.
  split_and!; [|lia|lia|].
  - rewrite length_app, length_replicate. lia.
  - replace (Z.to_nat (Z.of_nat size - Z.of_nat (length (key s))))
      with (size - length (key s))%nat by lia.
    rewrite take_app_length' by (by rewrite length_replicate).
    by apply Forall_replicate.
Qed.

(** X12.  [collate] hands [Code2SeqEncoder] what its [_split_seq] relies on.
    With [left_pad_source] set, a pad symbol that is neither delimiter, and
    [collate_tokens] filling the start-leaf, end-leaf and path values on the
    left up to the longest, every row of the three context tensors of the
    batch is left-padded with respect to the length the batch holds for it:
    the row has the width of the tensor, the length is the number of tokens
    behind the padding, and the padding holds no delimiter. *)
Theorem collate_left_pads_context_rows (samples : list item)
    (pad_idx eos_idx leaf_path path_path : Z)
    (left_pad_target input_feeding : bool) (b : batch) :
  pad_idx ≠ leaf_path → pad_idx ≠ path_path →
  collate_tokens (start_leaf <$> samples) pad_idx eos_idx true false
  = Some (left_pad_rows pad_idx (start_leaf <$> samples)) →
  collate_tokens (end_leaf <$> samples) pad_idx eos_idx true false
  = Some (left_pad_rows pad_idx (end_leaf <$> samples)) →
  collate_tokens (path_item <$> samples) pad_idx eos_idx true false
  = Some (left_pad_rows pad_idx (path_item <$> samples)) →
  collate collate_tokens samples pad_idx eos_idx true left_pad_target input_feeding
  = Some (Some b) →
  let n := batch_net_input b in
  Forall2 (Code2Seq.left_padded leaf_path (Code2Seq.size1 (start_leaf_tokens n)))
          (start_leaf_tokens n) (start_leaf_lengths n)
  ∧ Forall2 (Code2Seq.left_padded leaf_path (Code2Seq.size1 (end_leaf_tokens n)))
            (end_leaf_tokens n) (end_leaf_lengths n)
  ∧ Forall2 (Code2Seq.left_padded path_path (Code2Seq.size1 (path_tokens n)))
            (path_tokens n) (path_lengths n).
Proof.
  intros Hleaf Hpath Hs He Hp. unfold collate.
  destruct samples as [|first rest] eqn:Esamples; [done|].
  rewrite <- Esamples in *. rewrite Hs, He, Hp. intros H.
  step H. cbn [mbind option_bind] in H.
  destruct (Code2Seq.sort_descending ((λ s, numel (source s)) <$> samples))
    as [lens sort_order] eqn:Esort.
  do 8 step H.
  step H. destruct p as [[target prev] ntok].
  injection H as <-. cbn [batch_net_input start_leaf_lengths
    end_leaf_lengths path_lengths start_leaf_tokens end_leaf_tokens path_tokens].
  split_and!; by eapply selected_rows_left_padded.
Qed.

End Collate.
End CollateProps.

Lemma collate_sorts_and_keeps_fields_aligned_witness :
  ∃ b,
    Collate.collate Collate.example_collate_tokens Collate.example_samples 1 2
                    true false true = Some (Some b)
    ∧ Collate.batch_id b = [9; 7]%nat
    ∧ StronglySorted (λ a a', a' <= a)
                     (Collate.src_lengths (Collate.batch_net_input b)).
Proof.
  eexists. split; [vm_compute; reflexivity|]. split; [reflexivity|].
  exact (proj1 (collate_sorts_and_keeps_fields_aligned Collate.example_collate_tokens
                  Collate.example_samples 1 2 true false true _ eq_refl)).
Defined.

Lemma collate_counts_tokens_witness :
  ∃ b,
    Collate.collate Collate.example_collate_tokens Collate.example_samples 1 2
                    true false true = Some (Some b)
    ∧ length Collate.example_samples = 2%nat
    ∧ Collate.nsentences b = 2
    ∧ Collate.ntokens b = 5
    ∧ ∃ first rest,
        Collate.example_samples = first :: rest
        ∧ Collate.nsentences b = Collate.numel (Dataset.source first).
Proof.
  eexists. split; [vm_compute; reflexivity|].
  split_and!; [reflexivity..|].
  destruct (collate_counts_tokens Collate.example_collate_tokens
              Collate.example_samples 1 2 true false true _ eq_refl)
    as (first & rest & Hsamples & Hn & _).
  by exists first, rest.
Defined.

Lemma collate_left_pads_context_rows_witness :
  ∃ b,
    Collate.collate Collate.example_collate_tokens Collate.example_samples 1 2
                    true false true = Some (Some b)
    ∧ Collate.start_leaf_tokens (Collate.batch_net_input b) = [[1; 1; 14]; [10; 4; 11]]
    ∧ Collate.start_leaf_lengths (Collate.batch_net_input b) = [1; 3]
    ∧ Forall2 (Code2Seq.left_padded 4 3)
              (Collate.start_leaf_tokens (Collate.batch_net_input b))
              (Collate.start_leaf_lengths (Collate.batch_net_input b)).
Proof.
  eexists. split; [vm_compute; reflexivity|].
  split_and!; [reflexivity..|].
  assert (Hleaf : (1 : Z) ≠ 4) by lia.
  exact (proj1 (collate_left_pads_context_rows Collate.example_collate_tokens
                  Collate.example_samples 1 2 4 4 false true _
                  Hleaf Hleaf eq_refl eq_refl eq_refl eq_refl)).
Defined.

(** ** The converter: aligned files and recoverable tuples *)

Section ConverterFiles.
Import Converter.
Local Open Scope string_scope.

#[local] Instance is_example_dec line : Decision (is_example line).
Proof. unfold is_example. apply _. Defined.

(** X13.  The converter never raises, and the four files stay aligned: a run
    over any lines appends to each of the four files one record per line
    that has at least three space-separated fields, and nothing for the other
    lines, and leaves what the files already held in place.  Record [k] of
    one file and record [k] of another therefore come from the same line. *)
Theorem convert_keeps_files_aligned (out : outputs) (lines : list string) :
  ∃ out' src trg leaf path,
    convert out lines = Some out'
    ∧ src_file out' = (src_file out ++ src)%list
    ∧ trg_file out' = (trg_file out ++ trg)%list
    ∧ leaf_file out' = (leaf_file out ++ leaf)%list
    ∧ path_file out' = (path_file out ++ path)%list
    ∧ length src = length (filter is_example lines)
    ∧ length trg = length (filter is_example lines)
    ∧ length leaf = length (filter is_example lines)
    ∧ length path = length (filter is_example lines).
Proof.
  revert out. induction lines as [|line lines IH]; intros out.
  - exists out, [], [], [], []. by rewrite !app_nil_r.
  - cbn [convert]. rewrite convert_line_spec. cbn [mbind option_bind].
    rewrite filter_cons.
    destruct (decide (is_example line)) as [Hex|Hex]; unfold is_example in Hex.
    + rewrite decide_False by lia.
      destruct (IH (emitted out (split " " (strip line))))
        as (out' & src & trg & leaf & path & -> & Hs & Ht & Hl & Hp & Hn).
      unfold emitted, write in Hs, Ht, Hl, Hp.
      cbn [src_file trg_file leaf_file path_file] in Hs, Ht, Hl, Hp.
      rewrite <- app_assoc in Hs, Ht, Hl, Hp.
      eexists out', _, _, _, _.
      split_and!; [done|exact Hs|exact Ht|exact Hl|exact Hp|..];
        cbn [app length]; destruct Hn as (H1 & H2 & H3 & H4); lia.
    + rewrite decide_True by lia. apply IH.
Qed.

Lemma join_split (c : ascii) (s : string) :
  join (String c EmptyString) (split c s) = s.
Proof.
  induction s as [|c' s IH]; [done|]. cbn [split].
  pose proof (split_not_nil c s) as Hne.
  destruct (Ascii.eqb_spec c' c) as [->|Hc].
  - destruct (split c s) as [|w ws] eqn:E; [done|].
    change (join (String c "") ("" :: w :: ws))
      with ("" ++ String c "" ++ join (String c "") (w :: ws)).
    by rewrite IH.
  - destruct (split c s) as [|w ws] eqn:E; [done|].
    destruct ws as [|w' ws].
    + cbn [join] in *. by rewrite IH.
    + change (join (String c "") (String c' w :: w' :: ws))
        with (String c' (w ++ String c "" ++ join (String c "") (w' :: ws))).
      f_equal. exact IH.
Qed.

Lemma split_free (c : ascii) (s : string) :
  Forall (λ w, mentions c w = false) (split c s).
Proof.
  induction s as [|c' s IH]; [by repeat constructor|]. cbn [split].
  destruct (Ascii.eqb_spec c' c) as [->|Hc]; [by constructor|].
  destruct (split c s) as [|w ws]; [|apply Forall_cons in IH as [Hw Hws]];
    constructor; try done; cbn [mentions];
    by rewrite (proj2 (Ascii.eqb_neq c' c) Hc).
Qed.

Lemma split_whole (c : ascii) (w : string) :
  mentions c w = false → split c w = [w].
Proof.
  induction w as [|c' w IH]; [done|]. cbn [mentions split].
  intros [Hc Hw]%orb_false_iff. rewrite Hc, (IH Hw). done.
Qed.

Lemma split_app (c : ascii) (w rest : string) :
  mentions c w = false →
  split c (w ++ String c rest) = w :: split c rest.
Proof.
  induction w as [|c' w IH]; cbn [mentions append split].
  - intros _. by rewrite Ascii.eqb_refl.
  - intros [Hc Hw]%orb_false_iff. rewrite Hc, (IH Hw). done.
Qed.

Lemma split_join (c : ascii) (l : list string) :
  l ≠ [] → Forall (λ w, mentions c w = false) l →
  split c (join (String c EmptyString) l) = l.
Proof.
  intros Hne Hfree. induction Hfree as [|w l Hw Hl IH]; [done|].
  destruct l as [|w' l].
  - cbn [join]. by apply split_whole.
  - change (join (String c "") (w :: w' :: l))
      with (w ++ String c (join (String c "") (w' :: l))).
    rewrite (split_app c w _ Hw). f_equal. by apply IH.
Qed.

Lemma removelast_last {A} (l : list A) (d : A) :
  l ≠ [] → l = (removelast l ++ [List.last l d])%list.
Proof. intros Hne. by apply app_removelast_last. Qed.

(** X14.  Nothing of a kept path tuple is lost.  For a field whose tuple has
    at least three pipe-separated parts, the inner loop appends one entry to
    the leaves and one to the paths; splitting the leaf entry at the pipes
    gives back the first and the last part, splitting the path entry gives
    back the parts in between, of which there is at least one; and the three
    together, joined with pipes, are the stripped field. *)
Theorem path_step_keeps_the_whole_tuple (acc : list string * list string)
    (field : string) :
  (3 <= length (split "|" (strip field)))%nat →
  ∃ first middle final,
    path_step acc field
    = Some ((acc.1 ++ [join "|" [first; final]])%list,
            (acc.2 ++ [join "|" middle])%list)
    ∧ middle ≠ []
    ∧ split "|" (join "|" [first; final]) = [first; final]
    ∧ split "|" (join "|" middle) = middle
    ∧ join "|" (first :: middle ++ [final])%list = strip field.
Proof.
  intros Hlen. pose proof (split_free "|" (strip field)) as Hfree.
  pose proof (join_split "|" (strip field)) as Hjoin.
  unfold path_step. destruct (Nat.ltb_spec (length (split "|" (strip field))) 3);
    [lia|].
  destruct (tuple_reads _ Hlen) as (-> & -> & ->). cbn [mbind option_bind].
  destruct (split "|" (strip field)) as [|first rest] eqn:E; [simpl in Hlen; lia|].
  assert (Hrest : rest ≠ []) by (intros ->; simpl in Hlen; lia).
  pose proof (removelast_last rest "" Hrest) as Hsplit.
  assert (Hlast : List.last (first :: rest) "" = List.last rest "")
    by (destruct rest; done).
  rewrite Hlast. cbn [hd tl].
  exists first, (removelast rest), (List.last rest "").
  apply Forall_cons in Hfree as [Hfirst Hfree].
  rewrite Hsplit in Hfree. apply Forall_app in Hfree as [Hmid Hfin].
  unfold append_item. split_and!.
  - done.
  - intros Hnil. rewrite Hnil in Hsplit. rewrite Hsplit in Hlen. simpl in Hlen. lia.
  - apply split_join; [done|]. apply Forall_cons. done.
  - apply split_join; [|done].
    intros Hnil. rewrite Hnil in Hsplit. rewrite Hsplit in Hlen. simpl in Hlen. lia.
  - by rewrite <- Hsplit.
Qed.

End ConverterFiles.

Lemma path_step_keeps_the_whole_tuple_witness :
  (3 <= length (Converter.split "|" (Converter.strip " a|b|c|d ")))%nat
  ∧ Converter.path_step ([], []) " a|b|c|d " = Some (["a|d"], ["b|c"])%string
  ∧ ∃ first middle final,
      Converter.path_step ([], []) " a|b|c|d "
      = Some ([] ++ [Converter.join "|" [first; final]],
              [] ++ [Converter.join "|" middle])
      ∧ Converter.join "|" (first :: middle ++ [final]) = "a|b|c|d"%string.
Proof.
  assert (Hlen : (3 <= length (Converter.split "|" (Converter.strip " a|b|c|d ")))%nat)
    by (simpl; lia).
  split_and!; [exact Hlen|reflexivity|].
  destruct (path_step_keeps_the_whole_tuple ([], []) " a|b|c|d " Hlen)
    as (first & middle & final & Hstep & _ & _ & _ & Hjoin).
  exists first, middle, final. split; [exact Hstep|exact Hjoin].
Defined.

(** ** Convolution specs *)

Section ConvSpecProps.
Import Fconv.

Lemma extend_loop_Some (extended convolutions e : list (list Z)) :
  extend_loop extended convolutions = Some e
  ↔ ∃ e', e = extended ++ e'
          ∧ Forall2 (λ spec x, (length spec = 3%nat ∧ x = spec)
                               ∨ (length spec = 2%nat ∧ x = spec ++ [1]))
                    convolutions e'.
Proof.
  revert extended. induction convolutions as [|spec rest IH]; intros extended.
  - cbn [extend_loop]. split.
    + intros [= <-]. exists []. by rewrite app_nil_r.
    + intros (e' & -> & ->%Forall2_nil_inv_l). by rewrite app_nil_r.
  - cbn [extend_loop].
    destruct (Nat.eqb_spec (length spec) 3) as [H3|H3];
      [|destruct (Nat.eqb_spec (length spec) 2) as [H2|H2]].
    + rewrite IH. split.
      * intros (e' & -> & He'). exists (spec :: e').
        rewrite <- app_assoc. split; [done|]. constructor; [by left|done].
      * intros (e' & -> & (x & e'' & [[_ ->]|[? _]] & He'' & ->)%Forall2_cons_inv_l);
          [|lia].
        exists e''. by rewrite <- app_assoc.
    + rewrite IH. split.
      * intros (e' & -> & He'). exists ((spec ++ [1]) :: e').
        rewrite <- app_assoc. split; [done|]. constructor; [by right|done].
      * intros (e' & -> & (x & e'' & [[? _]|[_ ->]] & He'' & ->)%Forall2_cons_inv_l);
          [lia|].
        exists e''. by rewrite <- app_assoc.
    + split; [done|].
      intros (e' & _ & (x & e'' & [[? _]|[? _]] & _)%Forall2_cons_inv_l); lia.
Qed.

Lemma extend_loop_None (extended convolutions : list (list Z)) :
  extend_loop extended convolutions = None
  ↔ Exists (λ spec, length spec ≠ 2%nat ∧ length spec ≠ 3%nat) convolutions.
Proof.
  revert extended. induction convolutions as [|spec rest IH]; intros extended.
  - cbn [extend_loop]. split; [done|by intros ?%Exists_nil].
  - cbn [extend_loop]. rewrite Exists_cons.
    destruct (Nat.eqb_spec (length spec) 3) as [H3|H3];
      [|destruct (Nat.eqb_spec (length spec) 2) as [H2|H2]].
    + rewrite IH. split; [by right|]. intros [[_ ?]|?]; [lia|done].
    + rewrite IH. split; [by right|]. intros [[? _]|?]; [lia|done].
    + split; [by left|done].
Qed.

Lemma extend_loop_triples (extended convolutions : list (list Z)) :
  Forall (λ spec, length spec = 3%nat) convolutions →
  extend_loop extended convolutions = Some (extended ++ convolutions).
Proof.
  intros H. revert extended.
  induction H as [|spec rest Hspec _ IH]; intros extended.
  - by rewrite app_nil_r.
  - cbn [extend_loop]. rewrite (proj2 (Nat.eqb_eq _ _) Hspec), IH.
    by rewrite <- app_assoc.
Qed.

(** X15.  [extend_conv_spec] raises exactly when some spec has neither two
    nor three entries, wherever in the list it stands. *)
Theorem extend_conv_spec_raises_on_bad_arity (convolutions : list (list Z)) :
  extend_conv_spec convolutions = None
  ↔ Exists (λ spec, length spec ≠ 2%nat ∧ length spec ≠ 3%nat) convolutions.
Proof. apply extend_loop_None. Qed.

(** X16.  When [extend_conv_spec] returns, it returns one spec per spec
    given, in the same order, each with three entries: the first two are
    those given, the third is the one given if there was one and 1
    otherwise.  What it returns is a fixed point: extending it again changes
    nothing. *)
Theorem extend_conv_spec_defaults_residual (convolutions extended : list (list Z)) :
  extend_conv_spec convolutions = Some extended →
  Forall2 (λ spec x, length x = 3%nat
                     ∧ take 2 x = take 2 spec
                     ∧ x !! 2%nat = Some (default 1 (spec !! 2%nat)))
          convolutions extended
  ∧ extend_conv_spec extended = Some extended.
Proof.
  intros (e' & -> & He')%extend_loop_Some. cbn [app].
  assert (Hshape : Forall2 (λ spec x, length x = 3%nat
                              ∧ take 2 x = take 2 spec
                              ∧ x !! 2%nat = Some (default 1 (spec !! 2%nat)))
                           convolutions e').
  { eapply Forall2_impl; [exact He'|]. intros spec x [[H3 ->]|[H2 ->]].
    - split_and!; [done..|].
      destruct spec as [|a [|b [|c rest]]]; simpl in H3; try lia. done.
    - destruct spec as [|a [|b [|c rest]]]; simpl in H2; try lia. done. }
  split; [done|]. unfold extend_conv_spec.
  rewrite extend_loop_triples; [done|].
  apply Forall2_Forall_r with (Q := λ x, length x = 3%nat) in Hshape; [done|].
  apply Forall_true. by intros spec x (? & _).
Qed.

End ConvSpecProps.

Lemma extend_conv_spec_defaults_residual_witness :
  Fconv.extend_conv_spec [[512; 3]; [1024; 3; 0]] = Some [[512; 3; 1]; [1024; 3; 0]]
  ∧ Fconv.extend_conv_spec [[512; 3; 1]; [1024; 3; 0]]
    = Some [[512; 3; 1]; [1024; 3; 0]].
Proof.
  split; [reflexivity|].
  exact (proj2 (extend_conv_spec_defaults_residual [[512; 3]; [1024; 3; 0]]
                  [[512; 3; 1]; [1024; 3; 0]] eq_refl)).
Defined.

(** ** Architecture defaults *)

Section ArchitectureProps.
Import Fconv.

Lemma set_default_lookup (args : namespace) (name : string) (d : value) (m : string) :
  set_default args name d m
  = if String.eqb m name then Some (getattr args name d) else args m.
Proof. reflexivity. Qed.

(** A run of default statements leaves a set attribute alone and gives an
    unset one the first default the run has for it. *)
Lemma set_defaults_lookup (defaults : list (string * value)) (args : namespace)
    (m : string) :
  set_defaults defaults args m
  = match args m with
    | Some v => Some v
    | None => first_default defaults m
    end.
Proof.
  revert args. induction defaults as [|[name d] defaults IH]; intros args.
  - cbn [set_defaults foldl first_default]. by destruct (args m).
  - change (set_defaults ((name, d) :: defaults) args)
      with (set_defaults defaults (set_default args name d)).
    rewrite IH, set_default_lookup. cbn [first_default fst snd].
    destruct (String.eqb_spec m name) as [->|Hne]; [|done].
    unfold getattr. by destruct (args name).
Qed.

Lemma first_default_is_Some (defaults : list (string * value)) (m : string) :
  is_Some (first_default defaults m) ↔ In m defaults.*1.
Proof.
  induction defaults as [|[name d] defaults IH]; cbn [first_default fmap list_fmap In fst snd].
  - split; [by intros [? ?]|done].
  - destruct (String.eqb_spec m name) as [->|Hne].
    + split; [by left|by eexists].
    + rewrite IH. split; [by right|]. intros [?|?]; [congruence|done].
Qed.

(** Each architecture function is the run of its statements. *)
Lemma translation_defaults_run :
  Forall (λ p, ∀ args, p.1 args = set_defaults p.2 args) translation_defaults.
Proof.
  unfold translation_defaults.
  repeat (apply Forall_cons; split; [intros args; reflexivity|]).
  apply Forall_nil_2.
Qed.

Lemma lm_defaults_run :
  Forall (λ p, ∀ args, p.1 args = set_defaults p.2 args) lm_defaults.
Proof.
  unfold lm_defaults.
  repeat (apply Forall_cons; split; [intros args; reflexivity|]).
  apply Forall_nil_2.
Qed.

Lemma translation_defaults_functions :
  translation_defaults.*1 = translation_architectures.
Proof. reflexivity. Qed.

Lemma lm_defaults_functions : lm_defaults.*1 = lm_architectures.
Proof. reflexivity. Qed.

Lemma names_included (l1 l2 : list string) :
  forallb (λ x, existsb (String.eqb x) l2) l1 = true →
  ∀ m, In m l1 → In m l2.
Proof.
  intros Hall m Hin. rewrite forallb_forall in Hall.
  apply Hall in Hin. apply existsb_exists in Hin as (y & Hy & Heq).
  apply String.eqb_eq in Heq. by subst.
Qed.

Lemma translation_defaults_names :
  Forall (λ p, ∀ m, In m p.2.*1 ↔ In m translation_attributes) translation_defaults.
Proof.
  unfold translation_defaults.
  repeat (apply Forall_cons; split;
          [intros m; split; apply names_included; vm_compute; reflexivity|]).
  apply Forall_nil_2.
Qed.

Lemma lm_defaults_names :
  Forall (λ p, ∀ m, In m p.2.*1 ↔ In m lm_attributes) lm_defaults.
Proof.
  unfold lm_defaults.
  repeat (apply Forall_cons; split;
          [intros m; split; apply names_included; vm_compute; reflexivity|]).
  apply Forall_nil_2.
Qed.

Lemma architectures_closed_form
    (table : list ((namespace → namespace) * list (string * value)))
    (attributes : list string) :
  Forall (λ p, ∀ args, p.1 args = set_defaults p.2 args) table →
  Forall (λ p, ∀ m, In m p.2.*1 ↔ In m attributes) table →
  Forall (λ f : namespace → namespace,
            ∀ args name,
              (∀ v, args name = Some v → f args name = Some v)
              ∧ (is_Some (f args name) ↔ is_Some (args name) ∨ In name attributes))
         table.*1.
Proof.
  intros Hrun Hnames. apply Forall_fmap.
  apply Forall_forall. intros [f ds] Hin.
  rewrite Forall_forall in Hrun, Hnames.
  pose proof (Hrun _ Hin) as Hf. pose proof (Hnames _ Hin) as Hn.
  cbn [fst snd] in *. intros args name. cbn [fst snd].
  rewrite Hf, set_defaults_lookup. split.
  - by intros v ->.
  - rewrite <- Hn, <- first_default_is_Some.
    destruct (args name) as [v|].
    + split; [left; by eexists|by eexists].
    + split; [by right|]. intros [[? ?]|?]; done.
Qed.

(** X17.  No architecture function overrides an attribute that is already
    set, whatever its value (also [None]); and after any architecture of the
    translation models the attributes that are set are those that were set
    before and the ten attributes of the family, after any architecture of
    the language models those set before and the six of that family. *)
Theorem architectures_never_override_given_attributes :
  Forall (λ f : namespace → namespace,
            ∀ args name,
              (∀ v, args name = Some v → f args name = Some v)
              ∧ (is_Some (f args name)
                 ↔ is_Some (args name) ∨ In name translation_attributes))
         translation_architectures
  ∧ Forall (λ f : namespace → namespace,
              ∀ args name,
                (∀ v, args name = Some v → f args name = Some v)
                ∧ (is_Some (f args name)
                   ↔ is_Some (args name) ∨ In name lm_attributes))
           lm_architectures.
Proof.
  split.
  - rewrite <- translation_defaults_functions.
    apply architectures_closed_form;
      [apply translation_defaults_run|apply translation_defaults_names].
  - rewrite <- lm_defaults_functions.
    apply architectures_closed_form;
      [apply lm_defaults_run|apply lm_defaults_names].
Qed.

Lemma set_defaults_absorbed (ds ds' : list (string * value)) (args : namespace)
    (m : string) :
  (∀ n, In n ds'.*1 → In n ds.*1) →
  set_defaults ds' (set_defaults ds args) m = set_defaults ds args m.
Proof.
  intros Hsub. rewrite (set_defaults_lookup ds').
  destruct (set_defaults ds args m) as [v|] eqn:E; [done|].
  destruct (first_default ds' m) as [v|] eqn:E'; [|done].
  assert (Hin : In m ds.*1) by (apply Hsub, first_default_is_Some; by eexists).
  apply first_default_is_Some in Hin as [w Hw].
  rewrite set_defaults_lookup, Hw in E. by destruct (args m).
Qed.

Lemma architectures_absorb
    (table : list ((namespace → namespace) * list (string * value)))
    (attributes : list string) (base : namespace → namespace)
    (base_ds : list (string * value)) :
  (∀ args, base args = set_defaults base_ds args) →
  (∀ m, In m base_ds.*1 ↔ In m attributes) →
  Forall (λ p, ∀ args, p.1 args = set_defaults p.2 args) table →
  Forall (λ p, ∀ m, In m p.2.*1 ↔ In m attributes) table →
  Forall (λ f : namespace → namespace,
            ∀ args name,
              base (f args) name = f args name
              ∧ f (f args) name = f args name)
         table.*1.
Proof.
  intros Hbase Hbn Hrun Hnames. apply Forall_fmap.
  apply Forall_forall. intros [f ds] Hin.
  rewrite Forall_forall in Hrun, Hnames.
  pose proof (Hrun _ Hin) as Hf. pose proof (Hnames _ Hin) as Hn.
  cbn [fst snd] in *. intros args name. cbn [fst snd].
  rewrite Hbase, (Hf (f args)), (Hf args). split.
  - apply set_defaults_absorbed. intros n. rewrite Hbn, Hn. done.
  - apply set_defaults_absorbed. done.
Qed.

(** X18.  The architecture functions are idempotent, and running the base
    function of the family after any architecture of the family changes
    nothing: the defaults of a named architecture are in place before the
    base function runs and the base function leaves them alone. *)
Theorem architectures_absorb_their_base :
  Forall (λ f : namespace → namespace,
            ∀ args name,
              base_architecture (f args) name = f args name
              ∧ f (f args) name = f args name)
         translation_architectures
  ∧ Forall (λ f : namespace → namespace,
              ∀ args name,
                base_lm_architecture (f args) name = f args name
                ∧ f (f args) name = f args name)
           lm_architectures.
Proof.
  split.
  - rewrite <- translation_defaults_functions.
    apply (architectures_absorb _ translation_attributes _ base_defaults);
      [done|intros m; split; apply names_included; vm_compute; reflexivity
      |apply translation_defaults_run|apply translation_defaults_names].
  - rewrite <- lm_defaults_functions.
    apply (architectures_absorb _ lm_attributes _ base_lm_defaults);
      [done|intros m; split; apply names_included; vm_compute; reflexivity
      |apply lm_defaults_run|apply lm_defaults_names].
Qed.

End ArchitectureProps.

(** The named architecture [fconv_iwslt_de_en] on a namespace that gives the
    encoder width and sets the attention flag to [None]: both are kept, the
    decoder width gets the default of the named architecture, the dropout
    that of the base function. *)
Example fconv_iwslt_de_en_on_given_attributes :
  Fconv.fconv_iwslt_de_en Fconv.example_args "encoder_embed_dim"%string
  = Some (Fconv.VInt 64)
  ∧ Fconv.fconv_iwslt_de_en Fconv.example_args "decoder_attention"%string
    = Some Fconv.VNone
  ∧ Fconv.fconv_iwslt_de_en Fconv.example_args "decoder_embed_dim"%string
    = Some (Fconv.VInt 256)
  ∧ Fconv.fconv_iwslt_de_en Fconv.example_args "dropout"%string
    = Some (Fconv.VFloat (1 # 10))
  ∧ Fconv.fconv_iwslt_de_en Fconv.example_args "max_tokens"%string = None.
Proof. split_and!; reflexivity. Qed.
